(** * simgo: the process handoff protocol (process.go)

    A shallow embedding of [Process.Wait] and of the delegating methods
    of [Process], together with a small interleaving semantics of
    goroutines that communicate over unbuffered boolean channels.

    Goroutine bodies, handlers and [Wait] itself are terms of [prog], a
    tree of primitive actions with continuations.  The occurrences and
    the shutdown signal live in a shared [Store]; the goroutines live in
    a pool.  One scheduler step is either an internal action of one
    goroutine, a rendezvous of a sender and a receiver on the same
    channel, or a [select] that takes its shutdown case.

    The development covers process.go.  What [Wait] relies on from the
    rest of the package (the states of an occurrence, its two handler
    lists, how it is settled, the shutdown signal) is modelled from the
    specification and marked as such.  How a process is launched is not
    in process.go, and the pool of goroutines has nothing of it: there a
    goroutine that has ended takes no further step.  That a process gives
    control back when it finishes is said in the specification only; it
    is a step of its own, [LEnd], added on top of the pool, and used
    where processes that finish or abort must give control back. *)

From stdpp Require Import gmap list strings.

Set Default Proof Using "Type".

(** ** Identifiers *)

(** [*Event] pointers and [chan bool] values are compared by identity. *)
Definition evid := nat.
Definition chan := nat.
Definition tid := nat.

(** ** Programs *)

(** The four status methods of an awaitable. *)
Inductive query := QPending | QTriggered | QProcessed | QAborted.

(** A goroutine body.  [Return] is the normal end of a function body,
    [Goexit] is [runtime.Goexit()].  [Send c v k] is [c <- v] and
    [Recv c k] is [v := <-c], on an unbuffered channel.  [Select c k ks]
    is [select { case v := <-c: k v; case <-shutdown: ks }].  The [Ev]
    actions are the method calls on an [*Event]; [EvSettle] is what the
    driver does when it processes an occurrence, [RaiseShutdown] what it
    does to shut the simulation down; [Println] stands for any
    observable statement of user code. *)
Inductive prog : Type :=
| Return
| Goexit
| Send (c : chan) (v : bool) (k : prog)
| Recv (c : chan) (k : bool -> prog)
| Select (c : chan) (k : bool -> prog) (ks : prog)
| EvQuery (q : query) (e : evid) (k : bool -> prog)
| EvAddHandler (e : evid) (h : evid -> prog) (k : prog)
| EvAddAbortHandler (e : evid) (h : evid -> prog) (k : prog)
| EvAbort (e : evid) (k : prog)
| EvSettle (e : evid) (k : prog)
| RaiseShutdown (k : prog)
| Println (s : string) (k : prog).

(** [type Handler func(ev *Event)] *)
Definition Handler := evid -> prog.

(** [seq p q] runs [q] when [p] returns normally; a [Goexit] inside [p]
    discards [q]. *)
Fixpoint seq (p q : prog) : prog :=
  match p with
  | Return => q
  | Goexit => Goexit
  | Send c v k => Send c v (seq k q)
  | Recv c k => Recv c (fun b => seq (k b) q)
  | Select c k ks => Select c (fun b => seq (k b) q) (seq ks q)
  | EvQuery qy e k => EvQuery qy e (fun b => seq (k b) q)
  | EvAddHandler e h k => EvAddHandler e h (seq k q)
  | EvAddAbortHandler e h k => EvAddAbortHandler e h (seq k q)
  | EvAbort e k => EvAbort e (seq k q)
  | EvSettle e k => EvSettle e (seq k q)
  | RaiseShutdown k => RaiseShutdown (seq k q)
  | Println s k => Println s (seq k q)
  end.

Declare Scope prog_scope.
Delimit Scope prog_scope with prog.
Bind Scope prog_scope with prog.

Notation "x ← y ; z" := (y (fun x => z))
  (at level 20, y at level 100, z at level 200, only parsing) : prog_scope.
Notation "x ;; z" := (x z)
  (at level 100, z at level 200, only parsing, right associativity) : prog_scope.

(** ** Occurrences *)

Inductive EvState := pending | processed | aborted.

Global Instance EvState_eq_dec : EqDecision EvState.
Proof. solve_decision. Defined.

(** Modelled from the spec: the [Event] type behind [*Event], which
    process.go uses and does not define.  An occurrence is in exactly
    one of three states and holds an ordered list of on-processed
    handlers and an ordered list of on-abort handlers. *)
Record Event := mkEvent {
  state : EvState;
  handlers : list Handler;
  abortHandlers : list Handler;
}.

(** Modelled from the spec: what the goroutines of one simulation share.
    The occurrences on the heap; the shutdown signal, a broadcast signal
    that any number of goroutines can observe once it is raised
    ([proc.shutdown] in process.go:84); and, to observe user code, what
    was printed. *)
Record Store := mkStore {
  events : gmap evid Event;
  shutdown : bool;
  output : list string;
}.

Definition set_event (σ : Store) (e : evid) (E : Event) : Store :=
  mkStore (<[e := E]> (events σ)) (shutdown σ) (output σ).

(** Modelled from the spec: the answers of the status methods of an
    occurrence; "triggered" means settled, whatever the outcome. *)
Definition answer (q : query) (s : EvState) : bool :=
  match q with
  | QPending => bool_decide (s = pending)
  | QTriggered => bool_decide (s ≠ pending)
  | QProcessed => bool_decide (s = processed)
  | QAborted => bool_decide (s = aborted)
  end.

(** [fire hs e k] invokes the handlers [hs] on [e] in order, then
    continues with [k]. *)
Definition fire (hs : list Handler) (e : evid) (k : prog) : prog :=
  foldr (fun h acc => seq (h e) acc) k hs.

(** Modelled from the spec: settling an occurrence.  The transition out
    of [pending] is one-way and happens at most once; whoever settles the
    occurrence invokes the matching handlers synchronously, in order. *)
Definition settle (to : EvState) (E : Event) : Event :=
  mkEvent to (handlers E) (abortHandlers E).

(** ** Internal steps of one goroutine *)

(** Modelled from the spec: what the methods of an occurrence and the
    raising of the shutdown signal do to the store.  A status method
    reads the state; [AddHandler] and [AddAbortHandler] append to the
    ordered lists; [Abort] and the settling as processed take a pending
    occurrence to its final state and invoke the matching handlers in
    order, in the goroutine that settles, and leave a settled occurrence
    alone.

    [tstep σ p] is one non-blocking action of a goroutine.  Channel
    operations, goroutines that have ended and dangling event pointers
    do not step here. *)
Definition tstep (σ : Store) (p : prog) : option (Store * prog) :=
  match p with
  | EvQuery q e k =>
      E ← events σ !! e; Some (σ, k (answer q (state E)))
  | EvAddHandler e h k =>
      E ← events σ !! e;
      Some (set_event σ e (mkEvent (state E) (handlers E ++ [h]) (abortHandlers E)), k)
  | EvAddAbortHandler e h k =>
      E ← events σ !! e;
      Some (set_event σ e (mkEvent (state E) (handlers E) (abortHandlers E ++ [h])), k)
  | EvAbort e k =>
      E ← events σ !! e;
      if decide (state E = pending)
      then Some (set_event σ e (settle aborted E), fire (abortHandlers E) e k)
      else Some (σ, k)
  | EvSettle e k =>
      E ← events σ !! e;
      if decide (state E = pending)
      then Some (set_event σ e (settle processed E), fire (handlers E) e k)
      else Some (σ, k)
  | RaiseShutdown k =>
      Some (mkStore (events σ) true (output σ), k)
  | Println s k =>
      Some (mkStore (events σ) (shutdown σ) (output σ ++ [s]), k)
  | Return | Goexit | Send _ _ _ | Recv _ _ | Select _ _ _ => None
  end.

(** ** process.go *)

(** [type Process struct { *Simulation; ev *Event; sync chan bool }].
    The embedded simulation is the shared [Store]. *)
Record Process := mkProcess {
  ev : evid;
  sync : chan;
}.

(** The [Awaitable] interface has two implementations: [*Event] and
    [Process], whose methods of that interface are defined in process.go
    and delegate to the field [ev]. *)
Inductive Awaitable :=
| AwEvent (e : evid)
| AwProcess (p : Process).

(** The methods of [*Event] as actions of a program. *)
Module Event_.
Definition Pending (e : evid) : (bool -> prog) -> prog := EvQuery QPending e.
Definition Triggered (e : evid) : (bool -> prog) -> prog := EvQuery QTriggered e.
Definition Processed (e : evid) : (bool -> prog) -> prog := EvQuery QProcessed e.
Definition Aborted (e : evid) : (bool -> prog) -> prog := EvQuery QAborted e.
Definition AddHandler (e : evid) (handler : Handler) : prog -> prog :=
  EvAddHandler e handler.
Definition AddAbortHandler (e : evid) (handler : Handler) : prog -> prog :=
  EvAddAbortHandler e handler.
Definition Abort (e : evid) : prog -> prog := EvAbort e.
End Event_.

(** [func (proc Process) Pending() bool] and its three siblings. *)
Definition Pending (proc : Process) : (bool -> prog) -> prog :=
  Event_.Pending (ev proc).

Definition Triggered (proc : Process) : (bool -> prog) -> prog :=
  Event_.Triggered (ev proc).

Definition Processed (proc : Process) : (bool -> prog) -> prog :=
  Event_.Processed (ev proc).

Definition Aborted (proc : Process) : (bool -> prog) -> prog :=
  Event_.Aborted (ev proc).

(** [func (proc Process) AddHandler(handler Handler)] *)
Definition AddHandler (proc : Process) (handler : Handler) : prog -> prog :=
  Event_.AddHandler (ev proc) handler.

(** [func (proc Process) AddAbortHandler(handler Handler)] *)
Definition AddAbortHandler (proc : Process) (handler : Handler) : prog -> prog :=
  Event_.AddAbortHandler (ev proc) handler.

(** The event an awaitable stands for. *)
Definition target (a : Awaitable) : evid :=
  match a with
  | AwEvent e => e
  | AwProcess p => ev p
  end.

(** Dynamic dispatch of the [Awaitable] methods. *)
Module Awaitable_.
Definition Processed (a : Awaitable) : (bool -> prog) -> prog :=
  match a with
  | AwEvent e => Event_.Processed e
  | AwProcess p => Processed p
  end.
Definition Aborted (a : Awaitable) : (bool -> prog) -> prog :=
  match a with
  | AwEvent e => Event_.Aborted e
  | AwProcess p => Aborted p
  end.
Definition AddHandler (a : Awaitable) (handler : Handler) : prog -> prog :=
  match a with
  | AwEvent e => Event_.AddHandler e handler
  | AwProcess p => AddHandler p handler
  end.
Definition AddAbortHandler (a : Awaitable) (handler : Handler) : prog -> prog :=
  match a with
  | AwEvent e => Event_.AddAbortHandler e handler
  | AwProcess p => AddAbortHandler p handler
  end.
End Awaitable_.

(** The closure registered at process.go:56. *)
Definition resume_handler (proc : Process) : Handler :=
  fun _ =>
    (Send (sync proc) true;;      (* yield to process *)
     _ ← Recv (sync proc);        (* wait for process *)
     Return)%prog.

(** The closure registered at process.go:65. *)
Definition abort_handler (proc : Process) : Handler :=
  fun _ =>
    (Send (sync proc) false;;     (* abort process *)
     _ ← Recv (sync proc);        (* wait for process *)
     Return)%prog.

(** [func (proc Process) Wait(ev Awaitable)].  The parameter is [ev']
    here, [ev] being the field. *)
Definition Wait (proc : Process) (ev' : Awaitable) : prog :=
  (processed ← Awaitable_.Processed ev';
   if processed then
     Return                                   (* already processed, do not wait *)
   else
   aborted ← Awaitable_.Aborted ev';
   if aborted then
     (Event_.Abort (ev proc);; Goexit)        (* event aborted, abort process *)
   else
   Awaitable_.AddHandler ev' (resume_handler proc);;
   Awaitable_.AddAbortHandler ev' (abort_handler proc);;
   Send (sync proc) true;;                    (* yield to simulation *)
   Select (sync proc)
     (fun processed =>                        (* wait for simulation *)
        if negb processed then
          (Event_.Abort (ev proc);; Goexit)   (* event aborted, abort process *)
        else Return)
     Goexit                                   (* simulation shutdown *)
  )%prog.

(** *** The program points of [Wait]

    [Wait] after dynamic dispatch, cut at its program points; [e] is the
    event that the awaitable stands for.  [Wait_eq] below shows that
    [Wait_on proc (target a)] is [Wait proc a]. *)

(** process.go:51-52, reached from line 49 and from line 78. *)
Definition Wait_abort (proc : Process) : prog :=
  EvAbort (ev proc) Goexit.

(** The [select] at process.go:76, at which a waiting process is parked. *)
Definition Wait_parked (proc : Process) : prog :=
  Select (sync proc)
    (fun processed => if negb processed then Wait_abort proc else Return)
    Goexit.

(** process.go:56-74. *)
Definition Wait_register (proc : Process) (e : evid) : prog :=
  EvAddHandler e (resume_handler proc)
    (EvAddAbortHandler e (abort_handler proc)
       (Send (sync proc) true (Wait_parked proc))).

(** process.go:49. *)
Definition Wait_unprocessed (proc : Process) (e : evid) : prog :=
  EvQuery QAborted e (fun aborted =>
    if aborted then Wait_abort proc else Wait_register proc e).

(** process.go:44. *)
Definition Wait_on (proc : Process) (e : evid) : prog :=
  EvQuery QProcessed e (fun processed =>
    if processed then Return else Wait_unprocessed proc e).

(** ** Goroutines running together *)

Record State := mkState {
  store : Store;
  pool : gmap tid prog;
}.

(** What a scheduler step does: an internal action of goroutine [t], the
    rendezvous of sender [s] and receiver [r] on channel [c] passing [v],
    or goroutine [t] leaving a [select] through its shutdown case. *)
Inductive label :=
| LTau (t : tid)
| LComm (s r : tid) (c : chan) (v : bool)
| LShut (t : tid).

(** The continuation of a goroutine that is ready to receive on [c]. *)
Definition recv_on (c : chan) (p : prog) : option (bool -> prog) :=
  match p with
  | Recv c' k => if decide (c' = c) then Some k else None
  | Select c' k _ => if decide (c' = c) then Some k else None
  | _ => None
  end.

(** The continuation of a goroutine that is ready to send [v] on [c]. *)
Definition send_on (c : chan) (v : bool) (p : prog) : option prog :=
  match p with
  | Send c' v' k => if decide (c' = c ∧ v' = v) then Some k else None
  | _ => None
  end.

Definition shut_of (p : prog) : option prog :=
  match p with
  | Select _ _ ks => Some ks
  | _ => None
  end.

Definition do_step (G : State) (l : label) : option State :=
  match l with
  | LTau t =>
      p ← pool G !! t;
      '(σ', p') ← tstep (store G) p;
      Some (mkState σ' (<[t := p']> (pool G)))
  | LComm s r c v =>
      if decide (s = r) then None else
      ps ← pool G !! s;
      pr ← pool G !! r;
      ks ← send_on c v ps;
      kr ← recv_on c pr;
      Some (mkState (store G) (<[r := kr v]> (<[s := ks]> (pool G))))
  | LShut t =>
      p ← pool G !! t;
      ks ← shut_of p;
      if shutdown (store G)
      then Some (mkState (store G) (<[t := ks]> (pool G)))
      else None
  end.

(** Running a schedule. *)
Fixpoint run (G : State) (ls : list label) : option State :=
  match ls with
  | [] => Some G
  | l :: ls => G' ← do_step G l; run G' ls
  end.

(** A goroutine is blocked when no step of the pool involves it. *)
Definition involves (t : tid) (l : label) : bool :=
  match l with
  | LTau t' | LShut t' => bool_decide (t' = t)
  | LComm s r _ _ => bool_decide (s = t) || bool_decide (r = t)
  end.

Definition blocked (G : State) (t : tid) : Prop :=
  ∀ l, involves t l = true → do_step G l = None.

(** The tokens passed over channel [c] along a schedule. *)
Fixpoint tokens (c : chan) (ls : list label) : list bool :=
  match ls with
  | [] => []
  | LComm _ _ c' v :: ls => if decide (c' = c) then v :: tokens c ls else tokens c ls
  | _ :: ls => tokens c ls
  end.

(** Whether the next action of a goroutine is a send, and whether it is
    a receive (plain or in a [select]). *)
Definition send_on_any (p : prog) : bool :=
  match p with
  | Send _ _ _ => true
  | _ => false
  end.

Definition recv_on_any (p : prog) : bool :=
  match p with
  | Recv _ _ | Select _ _ _ => true
  | _ => false
  end.

(** Every program point of [p]: [p] itself and, recursively, whatever
    remains after its next action, for either boolean the environment
    may hand back. *)
Fixpoint residuals (p : prog) : list prog :=
  p ::
  match p with
  | Return | Goexit => []
  | Send _ _ k | EvAddHandler _ _ k | EvAddAbortHandler _ _ k
  | EvAbort _ k | EvSettle _ k | RaiseShutdown k | Println _ k => residuals k
  | Recv _ k | EvQuery _ _ k => residuals (k true) ++ residuals (k false)
  | Select _ k ks => residuals (k true) ++ residuals (k false) ++ residuals ks
  end.

(** What one step may do to an event while a process [proc] is inside
    [Wait] on the awaitable [a]. *)
Definition Wait_frame (proc : Process) (a : Awaitable) (σ σ' : Store) : Prop :=
  shutdown σ' = shutdown σ ∧ output σ' = output σ ∧
  ∀ e E, events σ !! e = Some E →
    ∃ E', events σ' !! e = Some E' ∧
      (e ≠ ev proc → state E' = state E) ∧
      (e = ev proc → state E' = state E ∨ (state E = pending ∧ state E' = aborted)) ∧
      (e ≠ target a → handlers E' = handlers E ∧ abortHandlers E' = abortHandlers E) ∧
      handlers E `prefix_of` handlers E' ∧
      abortHandlers E `prefix_of` abortHandlers E'.

(** No goroutine of the pool can take a step. *)
Definition stuck (G : State) : Prop := ∀ l, do_step G l = None.

(** Settling an occurrence either way: the action, the handlers it
    invokes, and the handler that [Wait] registered for it. *)
Definition settle_op (abort : bool) : evid -> prog -> prog :=
  if abort then EvAbort else EvSettle.

Definition handlers_for (abort : bool) (E : Event) : list Handler :=
  if abort then abortHandlers E else handlers E.

Definition Wait_handler (abort : bool) (proc : Process) : Handler :=
  if abort then abort_handler proc else resume_handler proc.

(** ** The handoff discipline *)

(** Code that keeps to the handoff discipline of process.go: it sends on
    a channel only to receive on the same channel right afterwards, the
    way the two handlers of [Wait] do (send, then receive) and the way
    [Wait] itself does (send, then [select] with [Goexit] as the shutdown
    case); it receives nowhere else; and the handlers it registers keep
    to the discipline too.  Code that does not touch channels at all is
    of this kind, which is all that code outside the package can be,
    [sync] being a private field. *)
Inductive handoff_code : prog -> Prop :=
| hc_Return : handoff_code Return
| hc_Goexit : handoff_code Goexit
| hc_call c v k :
    (∀ b, handoff_code (k b)) → handoff_code (Send c v (Recv c k))
| hc_yield c v k :
    (∀ b, handoff_code (k b)) → handoff_code (Send c v (Select c k Goexit))
| hc_query q e k :
    (∀ b, handoff_code (k b)) → handoff_code (EvQuery q e k)
| hc_add e h k :
    (∀ e', handoff_code (h e')) → handoff_code k →
    handoff_code (EvAddHandler e h k)
| hc_add_abort e h k :
    (∀ e', handoff_code (h e')) → handoff_code k →
    handoff_code (EvAddAbortHandler e h k)
| hc_abort e k : handoff_code k → handoff_code (EvAbort e k)
| hc_settle e k : handoff_code k → handoff_code (EvSettle e k)
| hc_raise k : handoff_code k → handoff_code (RaiseShutdown k)
| hc_println s k : handoff_code k → handoff_code (Println s k).

Definition handoff_handler (h : Handler) : Prop := ∀ e, handoff_code (h e).

(** A goroutine that waits for a token, after which it goes on with
    code that keeps to the discipline. *)
Definition waiting (p : prog) : Prop :=
  match p with
  | Recv _ k => ∀ b, handoff_code (k b)
  | Select _ k ks => (∀ b, handoff_code (k b)) ∧ ks = Goexit
  | _ => False
  end.

(** A goroutine is running when its next action is an internal action or
    a send; otherwise it has ended or it waits in a receive. *)
Definition running (p : prog) : bool :=
  match p with
  | Return | Goexit | Recv _ _ | Select _ _ _ => false
  | _ => true
  end.

(** Strict alternation: all goroutines and all registered handlers keep
    to the handoff discipline, at most one goroutine is running, and on
    every channel at most one goroutine is waiting to receive. *)
Record alternation (G : State) : Prop := mkAlternation {
  alt_code : ∀ t p, pool G !! t = Some p → handoff_code p ∨ waiting p;
  alt_handlers : ∀ e E, events (store G) !! e = Some E →
    Forall handoff_handler (handlers E) ∧ Forall handoff_handler (abortHandlers E);
  alt_running : ∀ t1 t2 p1 p2,
    pool G !! t1 = Some p1 → pool G !! t2 = Some p2 →
    running p1 = true → running p2 = true → t1 = t2;
  alt_receiver : ∀ c t1 t2 p1 p2,
    pool G !! t1 = Some p1 → pool G !! t2 = Some p2 →
    is_Some (recv_on c p1) → is_Some (recv_on c p2) → t1 = t2;
}.

(** ** Waiting processes *)

(** A process parked in [Wait]: its goroutine, the process value and
    the code after the call of [Wait]. *)
Record waiter := mkWaiter {
  w_tid : tid;
  w_proc : Process;
  w_cont : prog;
}.

Definition is_aborted (σ : Store) (e : evid) : Prop :=
  ∃ E, events σ !! e = Some E ∧ state E = aborted.

Definition is_pending (σ : Store) (e : evid) : Prop :=
  ∃ E, events σ !! e = Some E ∧ state E = pending.

(** Goroutine [d] invokes the handlers [hs] of event [e] from store [σ]
    and pool [T]; along the schedule [ls] they all return, leaving store
    [σ'] and pool [T'], whatever [d] goes on to do afterwards. *)
Definition handlers_return (σ : Store) (T : gmap tid prog) (d : tid)
    (hs : list Handler) (e : evid) (ls : list label)
    (σ' : Store) (T' : gmap tid prog) : Prop :=
  ∀ X, run (mkState σ (<[d := fire hs e X]> T)) ls
       = Some (mkState σ' (<[d := X]> T')).

(** The store after [proc] has registered its two handlers on [e]. *)
Definition register (proc : Process) (e : evid) (σ : Store) : Store :=
  match events σ !! e with
  | Some E =>
      set_event σ e
        (mkEvent (state E) (handlers E ++ [resume_handler proc])
                           (abortHandlers E ++ [abort_handler proc]))
  | None => σ
  end.

(** ** Concrete scenarios

    The process of the package documentation,
    [fmt.Println("Start"); proc.Wait(ev); fmt.Println("End")], seen from
    the call of [Wait] on: process [Demo.proc] runs as goroutine 1 and
    waits on event 0; goroutine 0 is the driver. *)
Module Demo.
Definition proc : Process := mkProcess 1 10.
Definition logic : prog := seq (Wait proc (AwEvent 0)) (Println "End" Return).

Definition store_with (s : EvState) : Store :=
  mkStore {[ 0 := mkEvent s [] []; 1 := mkEvent pending [] [] ]} false [].

Definition pool_with (driver : prog) : gmap tid prog :=
  {[ 0 := driver; 1 := logic ]}.

(** The same process parked in [Wait], with its two handlers registered
    on event 0, and the shutdown signal [sd]. *)
Definition parked_store (sd : bool) : Store :=
  mkStore {[ 0 := mkEvent pending [resume_handler proc] [abort_handler proc];
             1 := mkEvent pending [] [] ]} sd [].

Definition parked_pool (driver : prog) : gmap tid prog :=
  {[ 0 := driver; 1 := seq (Wait_parked proc) (Println "End" Return) ]}.

(** Teardown: the driver receives the token of the parked process,
    raises the shutdown signal and later settles event 0 all the same. *)
Definition teardown_driver : prog :=
  Recv 10 (fun _ => RaiseShutdown (EvSettle 0 (Println "settled" Return))).

Definition teardown : list label :=
  [LTau 1; LTau 1; LTau 1; LTau 1; LComm 1 0 10 true; LTau 0; LShut 1; LTau 0].

Definition after_teardown : State :=
  mkState
    (mkStore {[ 0 := mkEvent processed [resume_handler proc] [abort_handler proc];
                1 := mkEvent pending [] [] ]} true [])
    {[ 0 := Send 10 true (Recv 10 (fun _ => Println "settled" Return));
       1 := Goexit ]}.
End Demo.

(** Three processes in a chain: [P3] waits on event 0, [P2] on [P3],
    [P1] on [P2]; the driver, goroutine 0, aborts event 0. *)
Module Chain3.
Definition P1 : Process := mkProcess 1 10.
Definition P2 : Process := mkProcess 2 20.
Definition P3 : Process := mkProcess 3 30.

Definition store0 : Store :=
  mkStore {[ 0 := mkEvent pending [resume_handler P3] [abort_handler P3];
             3 := mkEvent pending [resume_handler P2] [abort_handler P2];
             2 := mkEvent pending [resume_handler P1] [abort_handler P1];
             1 := mkEvent pending [] [] ]} false [].

Definition pool0 : gmap tid prog :=
  {[ 0 := EvAbort 0 Return;
     3 := seq (Wait_parked P3) (Println "P3 after Wait" Return);
     2 := seq (Wait_parked P2) (Println "P2 after Wait" Return);
     1 := seq (Wait_parked P1) (Println "P1 after Wait" Return) ]}.
End Chain3.

(** ** Callers of [Wait] *)

(** The process of the documentation of [Process], process.go:16-20:
    [fmt.Println("Start"); proc.Wait(proc.Timeout(5)); fmt.Println("End")].
    [proc.Timeout(5)] is a method of the embedded simulation; the
    awaitable it returns is the parameter [timeout]. *)
Definition myProcess (proc : Process) (timeout : Awaitable) : prog :=
  Println "Start" (seq (Wait proc timeout) (Println "End" Return)).

(** [for i := 0; i < n; i++ { proc.Wait(ev) }], followed by [k]. *)
Fixpoint Wait_times (n : nat) (proc : Process) (a : Awaitable) (k : prog) : prog :=
  match n with
  | 0 => k
  | S n => seq (Wait proc a) (Wait_times n proc a k)
  end.

(** The store after [s] was printed. *)
Definition printed (s : string) (σ : Store) : Store :=
  mkStore (events σ) (shutdown σ) (output σ ++ [s]).

(** Several processes call [Wait] on one awaitable, one after the other.
    [collect ws X] is a goroutine that takes the token of each in turn
    and goes on with [X]; [calls d ws] is the schedule: each process
    does its two reads and two registrations and hands its token to
    [d]. *)
Definition collect (ws : list waiter) (X : prog) : prog :=
  foldr (fun w acc => Recv (sync (w_proc w)) (fun _ => acc)) X ws.

Fixpoint calls (d : tid) (ws : list waiter) : list label :=
  match ws with
  | [] => []
  | w :: ws =>
      [LTau (w_tid w); LTau (w_tid w); LTau (w_tid w); LTau (w_tid w);
       LComm (w_tid w) d (sync (w_proc w)) true] ++ calls d ws
  end.

Definition after_calls_store (σ : Store) (e : evid) (ws : list waiter) : Store :=
  foldl (fun σ w => register (w_proc w) e σ) σ ws.

Definition after_calls_pool (T : gmap tid prog) (ws : list waiter) : gmap tid prog :=
  foldl (fun T w => <[w_tid w := seq (Wait_parked (w_proc w)) (w_cont w)]> T) T ws.

(** Three processes about to call [Wait] on event 0, and the goroutine
    that takes their tokens. *)
Module Queue.
Definition callers : list waiter :=
  [mkWaiter 1 (mkProcess 1 10) (Println "first" Return);
   mkWaiter 2 (mkProcess 2 20) (Println "second" Return);
   mkWaiter 3 (mkProcess 3 30) (Println "third" Return)].

Definition store0 : Store :=
  mkStore {[ 0 := mkEvent pending [] []; 1 := mkEvent pending [] [];
             2 := mkEvent pending [] []; 3 := mkEvent pending [] [] ]} false [].

Definition pool0 : gmap tid prog :=
  {[ 1 := seq (Wait (mkProcess 1 10) (AwEvent 0)) (Println "first" Return);
     2 := seq (Wait (mkProcess 2 20) (AwEvent 0)) (Println "second" Return);
     3 := seq (Wait (mkProcess 3 30) (AwEvent 0)) (Println "third" Return) ]}.
End Queue.

(** The pool after the goroutines of [ws] have ended. *)
Definition after_shutdown_pool (T : gmap tid prog) (ws : list waiter) : gmap tid prog :=
  foldl (fun T w => <[w_tid w := Goexit]> T) T ws.

(** [proc.Wait(e1); proc.Wait(e2); ...], followed by [k], and a driver
    that processes the same occurrences in that order and goes on with
    [X].  [rounds d t c es] is their schedule from the moment the process
    is parked on the first occurrence, the occurrences still to come
    being [es]: the driver settles, its handler resumes the process, and
    the process calls [Wait] on the next occurrence and hands control
    back. *)
Definition waits (proc : Process) (es : list evid) (k : prog) : prog :=
  foldr (fun e acc => seq (Wait proc (AwEvent e)) acc) k es.

Definition settles (es : list evid) (X : prog) : prog :=
  foldr (fun e acc => EvSettle e acc) X es.

Fixpoint rounds (d t : tid) (c : chan) (es : list evid) : list label :=
  match es with
  | [] => [LTau d; LComm d t c true]
  | _ :: es =>
      [LTau d; LComm d t c true; LTau t; LTau t; LTau t; LTau t; LComm t d c true]
      ++ rounds d t c es
  end.

Definition is_processed (σ : Store) (e : evid) : Prop :=
  ∃ E, events σ !! e = Some E ∧ state E = processed.

(** A process that waits for events 0, 2 and 3 in this order, parked on
    event 0, and the driver that processes them. *)
Module Sequence.
Definition store0 : Store :=
  mkStore {[ 0 := mkEvent pending [resume_handler Demo.proc] [abort_handler Demo.proc];
             1 := mkEvent pending [] [];
             2 := mkEvent pending [] [];
             3 := mkEvent pending [] [] ]} false [].

Definition pool0 : gmap tid prog :=
  {[ 0 := EvSettle 0 (settles [2; 3] Return);
     1 := seq (Wait_parked Demo.proc) (waits Demo.proc [2; 3] (Println "End" Return)) ]}.
End Sequence.

(** ** Processes that finish *)

(** Modelled from the spec: a process also yields by finishing.  The code
    that launches a process is not in process.go.  The specification has
    the handler that resumed a process block "until the process yields
    again (by finishing or by waiting on something else)".  So when the
    goroutine of a launched process has ended, by returning from its
    logic or by [runtime.Goexit()], a goroutine that is receiving on the
    channel of that process goes on.  Which token it receives then is not
    specified; the two handlers of [Wait] ignore it, and the step exists
    for either token.  A goroutine that sends on the channel of a process
    that has ended does not get any further by this.

    [launched] says which goroutine runs which process.  [LStep l] is a
    step of the pool as before; [LEnd t r v] is goroutine [r] getting
    control back from the process of goroutine [t], which has ended. *)
Inductive slabel :=
| LStep (l : label)
| LEnd (t r : tid) (v : bool).

Definition ended (p : prog) : bool :=
  match p with
  | Return | Goexit => true
  | _ => false
  end.

Definition sim_step (launched : gmap tid Process) (G : State) (l : slabel)
    : option State :=
  match l with
  | LStep l => do_step G l
  | LEnd t r v =>
      if decide (t = r) then None else
      proc ← launched !! t;
      p ← pool G !! t;
      pr ← pool G !! r;
      if ended p then
        kr ← recv_on (sync proc) pr;
        Some (mkState (store G) (<[r := kr v]> (pool G)))
      else None
  end.

Fixpoint sim_run (launched : gmap tid Process) (G : State) (ls : list slabel)
    : option State :=
  match ls with
  | [] => Some G
  | l :: ls => G' ← sim_step launched G l; sim_run launched G' ls
  end.

(** The tokens that goroutines send each other over channel [c] along a
    schedule. *)
Definition steps_of (ls : list slabel) : list label :=
  omap (fun l => match l with LStep l => Some l | LEnd _ _ _ => None end) ls.

Definition sim_tokens (c : chan) (ls : list slabel) : list bool :=
  tokens c (steps_of ls).

(** ** What stands on an occurrence *)

(** Code that prints the lines [ss] and returns.  It stands for a
    callback, or for statements of a process, that touch neither a
    channel nor an occurrence. *)
Definition says (ss : list string) : prog := foldr Println Return ss.

Definition said (ss : list string) (σ : Store) : Store :=
  mkStore (events σ) (shutdown σ) (output σ ++ ss).

Definition callback (ss : list string) : Handler := fun _ => says ss.

(** *** On-processed handlers *)

(** Statements of the logic of a process: a print, which stands for any
    statement that touches neither a channel nor an occurrence, or a call
    of [Wait].  [stmts proc l k] is the code of process [proc] that does
    the statements [l] and goes on with [k]. *)
Inductive stmt :=
| Say (s : string)
| Await (a : Awaitable).

Definition stmts (proc : Process) (l : list stmt) (k : prog) : prog :=
  foldr (fun st k => match st with
                     | Say s => Println s k
                     | Await a => seq (Wait proc a) k
                     end) k l.

Definition stmts_said (l : list stmt) : list string :=
  l ≫= fun st => match st with Say s => [s] | Await _ => [] end.

(** Every awaitable that the statements [l] wait on is processed
    already. *)
Definition passes (σ : Store) (l : list stmt) : Prop :=
  Forall (fun st => match st with
                    | Say _ => True
                    | Await a => is_processed σ (target a)
                    end) l.

(** Who stands in the list of on-processed handlers of an occurrence: a
    callback; a process parked in [Wait] on the occurrence whose logic,
    once resumed, does the statements [pre] and returns, so that the
    process finishes; or such a process whose logic does the statements
    [pre] and then calls [Wait] on the awaitable [a], with [k] left to do
    after that. *)
Inductive party :=
| Callback (ss : list string)
| Finishing (t : tid) (proc : Process) (pre : list stmt)
| WaitingAgain (t : tid) (proc : Process) (pre : list stmt)
    (a : Awaitable) (k : prog).

Definition on_processed (w : party) : Handler :=
  match w with
  | Callback ss => callback ss
  | Finishing _ proc _ | WaitingAgain _ proc _ _ _ => resume_handler proc
  end.

Definition p_tid (w : party) : option tid :=
  match w with
  | Callback _ => None
  | Finishing t _ _ | WaitingAgain t _ _ _ _ => Some t
  end.

Definition p_chan (w : party) : option chan :=
  match w with
  | Callback _ => None
  | Finishing _ proc _ | WaitingAgain _ proc _ _ _ => Some (sync proc)
  end.

Definition p_tids (ws : list party) : list tid := omap p_tid ws.
Definition p_chans (ws : list party) : list chan := omap p_chan ws.

(** The party is where it has to be: a process is parked in [Wait] with
    its logic left to do, and what the statements [pre] wait on is
    processed, so that they do not yield; a finishing process is a
    launched process; the awaitable on which a process waits again is
    pending. *)
Definition resumable (launched : gmap tid Process) (σ : Store)
    (T : gmap tid prog) (w : party) : Prop :=
  match w with
  | Callback _ => True
  | Finishing t proc pre =>
      launched !! t = Some proc
      ∧ T !! t = Some (seq (Wait_parked proc) (stmts proc pre Return))
      ∧ passes σ pre
  | WaitingAgain t proc pre a k =>
      T !! t = Some (seq (Wait_parked proc) (stmts proc pre (seq (Wait proc a) k)))
      ∧ passes σ pre
      ∧ is_pending σ (target a)
  end.

(** The turn of one party when goroutine [d] invokes its handler: a
    callback prints in [d]; a process is handed the token [true], does
    its statements [pre], one step each, and yields, by finishing or by
    calling [Wait] again (two reads, two registrations, the token handed
    back). *)
Definition resume (d : tid) (w : party) : list slabel :=
  match w with
  | Callback ss => replicate (length ss) (LStep (LTau d))
  | Finishing t proc pre =>
      LStep (LComm d t (sync proc) true)
      :: replicate (length pre) (LStep (LTau t)) ++ [LEnd t d false]
  | WaitingAgain t proc pre a k =>
      LStep (LComm d t (sync proc) true)
      :: replicate (length pre) (LStep (LTau t))
      ++ (LStep <$> [LTau t; LTau t; LTau t; LTau t; LComm t d (sync proc) true])
  end.

Fixpoint resumes (d : tid) (ws : list party) : list slabel :=
  match ws with
  | [] => []
  | w :: ws => resume d w ++ resumes d ws
  end.

Definition resumed_store (σ : Store) (w : party) : Store :=
  match w with
  | Callback ss => said ss σ
  | Finishing _ _ pre => said (stmts_said pre) σ
  | WaitingAgain _ proc pre a _ => register proc (target a) (said (stmts_said pre) σ)
  end.

Definition resumed_pool (T : gmap tid prog) (w : party) : gmap tid prog :=
  match w with
  | Callback _ => T
  | Finishing t _ _ => <[t := Return]> T
  | WaitingAgain t proc _ _ k => <[t := seq (Wait_parked proc) k]> T
  end.

Definition after_resumes_store (σ : Store) (ws : list party) : Store :=
  foldl resumed_store σ ws.

Definition after_resumes_pool (T : gmap tid prog) (ws : list party)
    : gmap tid prog :=
  foldl resumed_pool T ws.

(** What the parties print, in the order of their turns. *)
Definition p_said (ws : list party) : list string :=
  ws ≫= fun w =>
    match w with
    | Callback ss => ss
    | Finishing _ _ pre | WaitingAgain _ _ pre _ _ => stmts_said pre
    end.

(** *** On-abort handlers

    What hangs on an occurrence through its on-abort handlers, in the
    order of registration: callbacks, and processes parked in [Wait] on
    the occurrence, each with what hangs on its own completion
    occurrence in turn ([waiters]).  [rest] is what was registered on the
    same occurrence afterwards.  A chain of processes that wait on each
    other is a forest in which every [waiters] has one process. *)
Inductive forest :=
| f_nil
| f_callback (ss : list string) (rest : forest)
| f_waiter (t : tid) (proc : Process) (k : prog) (waiters : forest) (rest : forest).

Fixpoint on_abort (F : forest) : list Handler :=
  match F with
  | f_nil => []
  | f_callback ss rest => callback ss :: on_abort rest
  | f_waiter _ proc _ _ rest => abort_handler proc :: on_abort rest
  end.

Fixpoint f_app (F F' : forest) : forest :=
  match F with
  | f_nil => F'
  | f_callback ss rest => f_callback ss (f_app rest F')
  | f_waiter t proc k ws rest => f_waiter t proc k ws (f_app rest F')
  end.

(** The goroutines, the completion occurrences and the channels of the
    processes of a forest. *)
Fixpoint f_tids (F : forest) : list tid :=
  match F with
  | f_nil => []
  | f_callback _ rest => f_tids rest
  | f_waiter t _ _ ws rest => t :: f_tids ws ++ f_tids rest
  end.

Fixpoint f_evs (F : forest) : list evid :=
  match F with
  | f_nil => []
  | f_callback _ rest => f_evs rest
  | f_waiter _ proc _ ws rest => ev proc :: f_evs ws ++ f_evs rest
  end.

Fixpoint f_chans (F : forest) : list chan :=
  match F with
  | f_nil => []
  | f_callback _ rest => f_chans rest
  | f_waiter _ proc _ ws rest => sync proc :: f_chans ws ++ f_chans rest
  end.

(** The depth of the deepest chain of processes in a forest. *)
Fixpoint f_depth (F : forest) : nat :=
  match F with
  | f_nil => 0
  | f_callback _ rest => f_depth rest
  | f_waiter _ _ _ ws rest => S (f_depth ws) `max` f_depth rest
  end.

(** The forest is there: every process of it is a launched process
    parked in [Wait], its completion occurrence is pending, and the
    on-abort handlers of that occurrence are those of its waiters. *)
Fixpoint parked (launched : gmap tid Process) (σ : Store) (T : gmap tid prog)
    (F : forest) : Prop :=
  match F with
  | f_nil => True
  | f_callback _ rest => parked launched σ T rest
  | f_waiter t proc k ws rest =>
      launched !! t = Some proc
      ∧ T !! t = Some (seq (Wait_parked proc) k)
      ∧ (∃ E, events σ !! ev proc = Some E ∧ state E = pending
              ∧ abortHandlers E = on_abort ws)
      ∧ parked launched σ T ws
      ∧ parked launched σ T rest
  end.

(** The schedule on which the on-abort handlers of a forest are run by
    goroutine [x]: a callback prints in [x]; a process is handed the token
    [false], aborts its completion occurrence and thereby runs the
    handlers of its own waiters, ends, and [x] gets control back. *)
Fixpoint unwind (x : tid) (F : forest) : list slabel :=
  match F with
  | f_nil => []
  | f_callback ss rest => replicate (length ss) (LStep (LTau x)) ++ unwind x rest
  | f_waiter t proc _ ws rest =>
      LStep (LComm x t (sync proc) false) :: LStep (LTau t)
      :: unwind t ws ++ LEnd t x false :: unwind x rest
  end.

Definition abort_event (e : evid) (σ : Store) : Store :=
  match events σ !! e with
  | Some E => set_event σ e (settle aborted E)
  | None => σ
  end.

Fixpoint unwound_store (σ : Store) (F : forest) : Store :=
  match F with
  | f_nil => σ
  | f_callback ss rest => unwound_store (said ss σ) rest
  | f_waiter _ proc _ ws rest =>
      unwound_store (unwound_store (abort_event (ev proc) σ) ws) rest
  end.

Fixpoint unwound_pool (T : gmap tid prog) (F : forest) : gmap tid prog :=
  match F with
  | f_nil => T
  | f_callback _ rest => unwound_pool T rest
  | f_waiter t _ _ ws rest => unwound_pool (<[t := Goexit]> (unwound_pool T ws)) rest
  end.

(** What the callbacks of a forest print, in the order in which they are
    run. *)
Fixpoint f_said (F : forest) : list string :=
  match F with
  | f_nil => []
  | f_callback ss rest => ss ++ f_said rest
  | f_waiter _ _ _ ws rest => f_said ws ++ f_said rest
  end.

(** Four processes parked in [Wait] on event 0, on which a callback
    stands first: [Q], which once resumed prints, calls [Wait] on event 0
    again and finishes; [R], which once resumed prints and waits for
    event 9; [P], the process of the documentation; and [S'], which
    registered after [P] and finishes once resumed.  Goroutine 0 is the
    driver. *)
Module Shared.
Definition P : Process := mkProcess 1 10.
Definition Q : Process := mkProcess 2 20.
Definition R : Process := mkProcess 3 30.
Definition S' : Process := mkProcess 4 40.

Definition launched : gmap tid Process := {[ 1 := P; 2 := Q; 3 := R; 4 := S' ]}.

Definition earlier : list party :=
  [Callback ["callback"]; Finishing 2 Q [Say "Q on"; Await (AwEvent 0); Say "Q done"];
   WaitingAgain 3 R [Say "R again"] (AwEvent 9) Return].

Definition later : list party := [Finishing 4 S' [Say "S done"]].

Definition event0 : Event :=
  mkEvent pending
    [callback ["callback"]; resume_handler Q; resume_handler R; resume_handler P;
     resume_handler S']
    [abort_handler Q; abort_handler R; abort_handler P; abort_handler S'].

Definition store0 : Store :=
  mkStore {[ 0 := event0;
             1 := mkEvent pending [] []; 2 := mkEvent pending [] [];
             3 := mkEvent pending [] []; 4 := mkEvent pending [] [];
             9 := mkEvent pending [] [] ]} false [].

Definition pool0 (driver : prog) : gmap tid prog :=
  {[ 0 := driver;
     1 := seq (Wait_parked P) (Println "End" Return);
     2 := seq (Wait_parked Q)
            (Println "Q on" (seq (Wait Q (AwEvent 0)) (Println "Q done" Return)));
     3 := seq (Wait_parked R) (Println "R again" (seq (Wait R (AwEvent 9)) Return));
     4 := seq (Wait_parked S') (Println "S done" Return) ]}.
End Shared.

(** A forest of waiting processes on event 0.  A callback stands first on
    event 0, then process [Q], then process [P3]; on the completion of
    [P3] stand a callback, then [P2], on whose completion [P1] waits, and
    then [R].  So [P1] waits on [P2], which waits on [P3], which waits on
    event 0.  Goroutine 0 is the driver; process [Pn] runs on goroutine
    [n], [Q] on 4 and [R] on 5. *)
Module Tree.
Definition P1 : Process := mkProcess 1 10.
Definition P2 : Process := mkProcess 2 20.
Definition P3 : Process := mkProcess 3 30.
Definition Q : Process := mkProcess 4 40.
Definition R : Process := mkProcess 5 50.

Definition launched : gmap tid Process :=
  {[ 1 := P1; 2 := P2; 3 := P3; 4 := Q; 5 := R ]}.

(** What stands on event 0 before [P3] calls [Wait], and on the
    completion occurrence of [P3]. *)
Definition before : forest :=
  f_callback ["cleanup"] (f_waiter 4 Q (Println "Q after Wait" Return) f_nil f_nil).

Definition on_P3 : forest :=
  f_callback ["P3 aborted"]
    (f_waiter 2 P2 (Println "P2 after Wait" Return)
       (f_waiter 1 P1 (Println "P1 after Wait" Return) f_nil f_nil)
       (f_waiter 5 R (Println "R after Wait" Return) f_nil f_nil)).

Definition all : forest :=
  f_app before (f_waiter 3 P3 (Println "P3 after Wait" Return) on_P3 f_nil).

Definition events_with (on0 : Event) : gmap evid Event :=
  {[ 0 := on0;
     3 := mkEvent pending [resume_handler P2; resume_handler R] (on_abort on_P3);
     2 := mkEvent pending [resume_handler P1] [abort_handler P1];
     1 := mkEvent pending [] [];
     4 := mkEvent pending [] [];
     5 := mkEvent pending [] [] ]}.

Definition store_before : Store :=
  mkStore (events_with (mkEvent pending [resume_handler Q] (on_abort before))) false [].

Definition store0 : Store :=
  mkStore (events_with (mkEvent pending [resume_handler Q; resume_handler P3]
                                        (on_abort all))) false [].

Definition pool_with (driver p3 : prog) : gmap tid prog :=
  {[ 0 := driver;
     4 := seq (Wait_parked Q) (Println "Q after Wait" Return);
     3 := p3;
     2 := seq (Wait_parked P2) (Println "P2 after Wait" Return);
     1 := seq (Wait_parked P1) (Println "P1 after Wait" Return);
     5 := seq (Wait_parked R) (Println "R after Wait" Return) ]}.

Definition pool_before : gmap tid prog :=
  pool_with (Recv 30 (fun _ => EvAbort 0 (Println "aborted" Return)))
            (seq (Wait P3 (AwEvent 0)) (Println "P3 after Wait" Return)).

Definition pool0 : gmap tid prog :=
  pool_with (EvAbort 0 (Println "aborted" Return))
            (seq (Wait_parked P3) (Println "P3 after Wait" Return)).

(** Everything is aborted and every process has ended. *)
Definition store_after : Store :=
  mkStore
    {[ 0 := mkEvent aborted [resume_handler Q; resume_handler P3] (on_abort all);
       3 := mkEvent aborted [resume_handler P2; resume_handler R] (on_abort on_P3);
       2 := mkEvent aborted [resume_handler P1] [abort_handler P1];
       1 := mkEvent aborted [] [];
       4 := mkEvent aborted [] [];
       5 := mkEvent aborted [] [] ]} false ["cleanup"; "P3 aborted"].

Definition pool_after (driver : prog) : gmap tid prog :=
  {[ 0 := driver; 4 := Goexit; 3 := Goexit; 2 := Goexit; 1 := Goexit; 5 := Goexit ]}.

(** Event 0 was aborted before [P3] calls [Wait] on it. *)
Definition store_late : Store :=
  mkStore (events_with (mkEvent aborted [] [])) false [].

Definition pool_late : gmap tid prog :=
  {[ 3 := seq (Wait P3 (AwEvent 0)) (Println "P3 after Wait" Return);
     2 := seq (Wait_parked P2) (Println "P2 after Wait" Return);
     1 := seq (Wait_parked P1) (Println "P1 after Wait" Return);
     5 := seq (Wait_parked R) (Println "R after Wait" Return) ]}.
End Tree.

(** * Properties *)

(** ** Running schedules *)

Lemma run_app G ls1 ls2 :
  run G (ls1 ++ ls2) = G' ← run G ls1; run G' ls2.
Proof.
  revert G. induction ls1 as [|l ls1 IH]; intros G; simpl; [done|].
  destruct (do_step G l) as [G1|]; simpl; [apply IH|done].
Qed.

Lemma run_app_Some G ls1 G1 ls2 :
  run G ls1 = Some G1 → run G (ls1 ++ ls2) = run G1 ls2.
Proof. intros H. by rewrite run_app, H. Qed.

Lemma do_tau σ T t p σ' p' :
  T !! t = Some p →
  tstep σ p = Some (σ', p') →
  do_step (mkState σ T) (LTau t) = Some (mkState σ' (<[t := p']> T)).
Proof. intros HT Hp. unfold do_step; simpl. by rewrite HT; simpl; rewrite Hp. Qed.

Lemma do_comm σ T s r c v ps pr ks kr :
  s ≠ r →
  T !! s = Some ps →
  T !! r = Some pr →
  send_on c v ps = Some ks →
  recv_on c pr = Some kr →
  do_step (mkState σ T) (LComm s r c v)
  = Some (mkState σ (<[r := kr v]> (<[s := ks]> T))).
Proof.
  intros Hsr Hs Hr Hks Hkr. unfold do_step; simpl.
  rewrite decide_False by done.
  by rewrite Hs; simpl; rewrite Hr; simpl; rewrite Hks; simpl; rewrite Hkr.
Qed.

Lemma do_shut σ T t p ks :
  T !! t = Some p →
  shut_of p = Some ks →
  shutdown σ = true →
  do_step (mkState σ T) (LShut t) = Some (mkState σ (<[t := ks]> T)).
Proof.
  intros HT Hp Hs. unfold do_step; simpl.
  by rewrite HT; simpl; rewrite Hp; simpl; rewrite Hs.
Qed.

Lemma send_on_Send c v k : send_on c v (Send c v k) = Some k.
Proof. simpl. by rewrite decide_True. Qed.

Lemma recv_on_Recv c k : recv_on c (Recv c k) = Some k.
Proof. simpl. by rewrite decide_True. Qed.

Lemma recv_on_Select c k ks : recv_on c (Select c k ks) = Some k.
Proof. simpl. by rewrite decide_True. Qed.

(** A goroutine whose next action is internal takes part in no
    rendezvous and in no shutdown exit. *)
Lemma tau_only G t p l G' :
  pool G !! t = Some p →
  send_on_any p = false →
  recv_on_any p = false →
  involves t l = true →
  do_step G l = Some G' →
  l = LTau t.
Proof.
  intros Ht Hs Hr Hinv Hstep. destruct l as [t'|s r c v|t']; simpl in *.
  - apply bool_decide_eq_true in Hinv. by subst.
  - exfalso. unfold do_step in Hstep.
    destruct (decide (s = r)); [done|].
    destruct (pool G !! s) as [ps|] eqn:Es; simpl in Hstep; [|done].
    destruct (pool G !! r) as [pr|] eqn:Er; simpl in Hstep; [|done].
    destruct (send_on c v ps) as [ks|] eqn:Eks; simpl in Hstep; [|done].
    destruct (recv_on c pr) as [kr|] eqn:Ekr; simpl in Hstep; [|done].
    apply orb_true_iff in Hinv as [H|H]; apply bool_decide_eq_true in H; subst.
    + rewrite Ht in Es. simplify_eq. destruct ps; simpl in *; congruence.
    + rewrite Ht in Er. simplify_eq. destruct pr; simpl in *; congruence.
  - exfalso. apply bool_decide_eq_true in Hinv. subst.
    unfold do_step in Hstep. rewrite Ht in Hstep. simpl in Hstep.
    destruct p; simpl in *; congruence.
Qed.

(** ** Handlers, the store and single actions *)

Lemma fire_cons h hs e k : fire (h :: hs) e k = seq (h e) (fire hs e k).
Proof. done. Qed.

Lemma fire_app hs1 hs2 e k : fire (hs1 ++ hs2) e k = fire hs1 e (fire hs2 e k).
Proof. unfold fire. by rewrite foldr_app. Qed.

Lemma set_event_lookup σ e E : events (set_event σ e E) !! e = Some E.
Proof. apply lookup_insert_eq. Qed.

Lemma set_event_lookup_ne σ e e' E :
  e ≠ e' → events (set_event σ e E) !! e' = events σ !! e'.
Proof. intros. by apply lookup_insert_ne. Qed.

Lemma run_cons_Some G l G1 ls :
  do_step G l = Some G1 → run G (l :: ls) = run G1 ls.
Proof. intros H. simpl. by rewrite H. Qed.

Lemma Wait_eq proc a : Wait proc a = Wait_on proc (target a).
Proof. by destruct a. Qed.

Lemma tstep_query σ q e k E :
  events σ !! e = Some E →
  tstep σ (EvQuery q e k) = Some (σ, k (answer q (state E))).
Proof. intros H. simpl. by rewrite H. Qed.

Lemma tstep_add_handler σ e h k E :
  events σ !! e = Some E →
  tstep σ (EvAddHandler e h k)
  = Some (set_event σ e (mkEvent (state E) (handlers E ++ [h]) (abortHandlers E)), k).
Proof. intros H. simpl. by rewrite H. Qed.

Lemma tstep_add_abort_handler σ e h k E :
  events σ !! e = Some E →
  tstep σ (EvAddAbortHandler e h k)
  = Some (set_event σ e (mkEvent (state E) (handlers E) (abortHandlers E ++ [h])), k).
Proof. intros H. simpl. by rewrite H. Qed.

Lemma tstep_abort_pending σ e k E :
  events σ !! e = Some E →
  state E = pending →
  tstep σ (EvAbort e k)
  = Some (set_event σ e (settle aborted E), fire (abortHandlers E) e k).
Proof. intros H Hs. simpl. rewrite H; simpl. by rewrite decide_True. Qed.

Lemma tstep_settle_pending σ e k E :
  events σ !! e = Some E →
  state E = pending →
  tstep σ (EvSettle e k)
  = Some (set_event σ e (settle processed E), fire (handlers E) e k).
Proof. intros H Hs. simpl. rewrite H; simpl. by rewrite decide_True. Qed.

(** What a process reports once its completion occurrence is aborted. *)
Lemma reports_aborted σ proc Ep kb :
  events σ !! ev proc = Some Ep →
  state Ep = aborted →
  tstep σ (Aborted proc kb) = Some (σ, kb true)
  ∧ tstep σ (Processed proc kb) = Some (σ, kb false).
Proof.
  intros HE Hst. split.
  - etrans; [exact (tstep_query σ QAborted (ev proc) kb Ep HE)|].
    cbn [answer]. by rewrite Hst.
  - etrans; [exact (tstep_query σ QProcessed (ev proc) kb Ep HE)|].
    cbn [answer]. by rewrite Hst.
Qed.

(** *** One step at each program point of [Wait] *)

Lemma Wait_on_step σ proc e k E :
  events σ !! e = Some E →
  tstep σ (seq (Wait_on proc e) k)
  = Some (σ, if bool_decide (state E = processed) then k
             else seq (Wait_unprocessed proc e) k).
Proof.
  intros H. cbn [Wait_on seq]. rewrite (tstep_query _ _ _ _ _ H).
  cbn [answer]. by destruct (bool_decide (state E = processed)).
Qed.

Lemma Wait_unprocessed_step σ proc e k E :
  events σ !! e = Some E →
  tstep σ (seq (Wait_unprocessed proc e) k)
  = Some (σ, if bool_decide (state E = aborted) then Wait_abort proc
             else seq (Wait_register proc e) k).
Proof.
  intros H. cbn [Wait_unprocessed seq]. rewrite (tstep_query _ _ _ _ _ H).
  cbn [answer]. by destruct (bool_decide (state E = aborted)).
Qed.

Lemma Wait_abort_step σ proc Ep :
  events σ !! ev proc = Some Ep →
  state Ep = pending →
  tstep σ (Wait_abort proc)
  = Some (set_event σ (ev proc) (settle aborted Ep),
          fire (abortHandlers Ep) (ev proc) Goexit).
Proof. intros. by apply tstep_abort_pending. Qed.

Ltac run_tau lem :=
  erewrite run_cons_Some
    by (eapply do_tau; [apply lookup_insert_eq|lem]);
  rewrite insert_insert_eq.

(** ** Settled occurrences stay settled *)

Lemma tstep_events_mono σ p σ' p' e E :
  tstep σ p = Some (σ', p') →
  events σ !! e = Some E →
  ∃ E', events σ' !! e = Some E' ∧ (state E' = state E ∨ state E = pending).
Proof.
  intros Hstep HE.
  destruct p; simpl in Hstep; try done;
    try (destruct (events σ !! e0) as [E0|] eqn:HE0; simpl in Hstep; [|done]);
    try (destruct (decide (state E0 = pending)));
    simplify_eq/=; try (by eauto);
    (destruct (decide (e0 = e)) as [->|Hne];
     [rewrite HE in HE0; simplify_eq; rewrite lookup_insert_eq; eauto
     |rewrite lookup_insert_ne by done; eauto]).
Qed.

Lemma do_step_events_mono G l G' e E :
  do_step G l = Some G' →
  events (store G) !! e = Some E →
  ∃ E', events (store G') !! e = Some E' ∧ (state E' = state E ∨ state E = pending).
Proof.
  intros Hstep HE. destruct l as [t|s r c v|t]; unfold do_step in Hstep.
  - destruct (pool G !! t) as [p|]; simpl in Hstep; [|done].
    destruct (tstep (store G) p) as [[σ' p']|] eqn:Hts; simplify_eq/=.
    by eapply tstep_events_mono.
  - destruct (decide (s = r)); [done|].
    destruct (pool G !! s); simpl in Hstep; [|done].
    destruct (pool G !! r); simpl in Hstep; [|done].
    destruct (send_on c v p); simpl in Hstep; [|done].
    destruct (recv_on c p0); simplify_eq/=. eauto.
  - destruct (pool G !! t); simpl in Hstep; [|done].
    destruct (shut_of p); simpl in Hstep; [|done].
    destruct (shutdown (store G)); simplify_eq/=. eauto.
Qed.

(** Along any schedule, an occurrence that has settled keeps its
    state. *)
Lemma run_settled_stable G ls G' e E :
  run G ls = Some G' →
  events (store G) !! e = Some E →
  state E ≠ pending →
  ∃ E', events (store G') !! e = Some E' ∧ state E' = state E.
Proof.
  revert G E. induction ls as [|l ls IH]; intros G E Hrun HE Hs; simpl in Hrun.
  - simplify_eq. eauto.
  - destruct (do_step G l) as [G1|] eqn:Hstep; simpl in Hrun; [|done].
    destruct (do_step_events_mono _ _ _ _ _ Hstep HE) as (E1 & HE1 & [Hst|Hst]); [|done].
    destruct (IH G1 E1 Hrun HE1) as (E' & HE' & Hst'); [congruence|].
    exists E'. split; [done|congruence].
Qed.

Lemma tokens_app c ls1 ls2 : tokens c (ls1 ++ ls2) = tokens c ls1 ++ tokens c ls2.
Proof.
  induction ls1 as [|[t|s r c' v|t] ls1 IH]; simpl; try done.
  destruct (decide (c' = c)); simpl; by rewrite IH.
Qed.

(** ** A goroutine that is not involved in a step *)

(** A step in which goroutine [t] takes no part does not look at the
    program of [t]: with another program for [t] the same step is taken,
    to the same store and the same programs of the other goroutines. *)
Lemma step_frame_thread σ T t p1 p2 l G1 :
  involves t l = false →
  do_step (mkState σ (<[t := p1]> T)) l = Some G1 →
  ∃ T', G1 = mkState (store G1) (<[t := p1]> T')
        ∧ do_step (mkState σ (<[t := p2]> T)) l
          = Some (mkState (store G1) (<[t := p2]> T')).
Proof.
  intros Hinv Hstep. destruct l as [t'|s r c v|t']; simpl in Hinv;
    unfold do_step in *; simpl in *.
  - apply bool_decide_eq_false in Hinv.
    rewrite lookup_insert_ne in Hstep by done. rewrite lookup_insert_ne by done.
    destruct (T !! t') as [p|]; simpl in *; [|done].
    destruct (tstep σ p) as [[σ' p']|]; simplify_eq/=.
    exists (<[t' := p']> T). split; f_equal; by rewrite insert_insert_ne.
  - apply orb_false_iff in Hinv as [Hs Hr].
    apply bool_decide_eq_false in Hs, Hr.
    destruct (decide (s = r)); [done|].
    rewrite !lookup_insert_ne in Hstep by done. rewrite !lookup_insert_ne by done.
    destruct (T !! s) as [ps|]; simpl in *; [|done].
    destruct (T !! r) as [pr|]; simpl in *; [|done].
    destruct (send_on c v ps) as [ks|]; simpl in *; [|done].
    destruct (recv_on c pr) as [kr|]; simplify_eq/=.
    exists (<[r := kr v]> (<[s := ks]> T)). split; f_equal.
    + by rewrite (insert_insert_ne _ s t), (insert_insert_ne _ r t).
    + by rewrite (insert_insert_ne _ s t), (insert_insert_ne _ r t).
  - apply bool_decide_eq_false in Hinv.
    rewrite lookup_insert_ne in Hstep by done. rewrite lookup_insert_ne by done.
    destruct (T !! t') as [p|]; simpl in *; [|done].
    destruct (shut_of p) as [ks|]; simpl in *; [|done].
    destruct (shutdown σ); simplify_eq/=.
    exists (<[t' := ks]> T). split; f_equal; by rewrite insert_insert_ne.
Qed.

Lemma Wait_reads_tau_only G t proc e w k l G' :
  w = Wait_on proc e ∨ w = Wait_unprocessed proc e →
  pool G !! t = Some (seq w k) →
  involves t l = true →
  do_step G l = Some G' →
  l = LTau t.
Proof.
  intros Hw Ht Hinv Hstep.
  eapply tau_only; [exact Ht| | |exact Hinv|exact Hstep]; by destruct Hw as [->| ->].
Qed.

(** While [Wait] is reading the status of an aborted awaitable, and ever
    after, the caller's continuation has no part in what happens: along
    any schedule, with any other continuation in its place, the same
    steps are taken, to the same store (the same events, the same
    output) and the same programs of all other goroutines. *)
Lemma Wait_aborted_ignores_continuation proc e t k1 k2 ls :
  ∀ σ T w E G1,
  w = Wait_on proc e ∨ w = Wait_unprocessed proc e →
  events σ !! e = Some E →
  state E = aborted →
  run (mkState σ (<[t := seq w k1]> T)) ls = Some G1 →
  ∃ G2, run (mkState σ (<[t := seq w k2]> T)) ls = Some G2
        ∧ store G2 = store G1
        ∧ ∀ t', t' ≠ t → pool G2 !! t' = pool G1 !! t'.
Proof.
  induction ls as [|l ls IH]; intros σ T w E G1 Hw HE Hst Hrun; simpl in Hrun.
  - simplify_eq. eexists. split; [done|]. split; [done|].
    intros t' Hne. simpl. by rewrite !lookup_insert_ne.
  - destruct (do_step (mkState σ (<[t := seq w k1]> T)) l) as [G1'|] eqn:Hstep;
      simpl in Hrun; [|done].
    destruct (involves t l) eqn:Hinv.
    + assert (l = LTau t) as ->.
      { eapply (Wait_reads_tau_only (mkState σ (<[t := seq w k1]> T)));
          [exact Hw|apply lookup_insert_eq|exact Hinv|exact Hstep]. }
      destruct Hw as [-> | ->].
      * erewrite do_tau in Hstep;
          [|apply lookup_insert_eq|by apply Wait_on_step].
        rewrite insert_insert_eq, Hst in Hstep. cbn [bool_decide decide_rel] in Hstep.
        simplify_eq.
        destruct (IH σ T (Wait_unprocessed proc e) E G1) as (G2 & HG2 & Hs & Hp);
          [by right|done|done|done|].
        exists G2. split; [|done]. cbn [run].
        erewrite do_tau; [|apply lookup_insert_eq|by apply Wait_on_step].
        rewrite insert_insert_eq, Hst. cbn [bool_decide decide_rel]. exact HG2.
      * erewrite do_tau in Hstep;
          [|apply lookup_insert_eq|by apply Wait_unprocessed_step].
        rewrite insert_insert_eq, Hst in Hstep. cbn [bool_decide decide_rel] in Hstep.
        simplify_eq.
        exists G1. split; [|done]. cbn [run].
        erewrite do_tau; [|apply lookup_insert_eq|by apply Wait_unprocessed_step].
        rewrite insert_insert_eq, Hst. cbn [bool_decide decide_rel]. exact Hrun.
    + destruct (step_frame_thread _ _ _ _ (seq w k2) _ _ Hinv Hstep)
        as (T' & HG1' & Hstep2).
      destruct (do_step_events_mono _ _ _ e E Hstep HE) as (E' & HE' & [HstE|HstE]);
        [|congruence].
      rewrite HG1' in Hrun.
      destruct (IH (store G1') T' w E' G1) as (G2 & HG2 & Hs & Hp);
        [done|done|congruence|done|].
      exists G2. split; [|done]. cbn [run]. rewrite Hstep2. exact HG2.
Qed.

(** ** The fast path *)

(** C4. When the awaitable is already processed, the only step the
    calling goroutine can take is one internal step, after which [Wait]
    has returned to its caller (the goroutine continues with [k]) and the
    store is what it was: no handler was registered, no token was passed
    on any channel and the goroutine was never parked. *)
Theorem Wait_processed_fast_path σ T t proc a E k :
  events σ !! target a = Some E →
  state E = processed →
  T !! t = Some (seq (Wait proc a) k) →
  do_step (mkState σ T) (LTau t) = Some (mkState σ (<[t := k]> T))
  ∧ ∀ l G', involves t l = true →
            do_step (mkState σ T) l = Some G' →
            l = LTau t ∧ G' = mkState σ (<[t := k]> T).
Proof.
  intros HE Hst HT.
  assert (Hstep : do_step (mkState σ T) (LTau t) = Some (mkState σ (<[t := k]> T))).
  { apply do_tau with (p := seq (Wait proc a) k); [done|].
    destruct a as [e|p]; simpl in *; rewrite HE; simpl; by rewrite Hst. }
  split; [done|]. intros l G' Hinv Hl.
  assert (l = LTau t) as ->.
  { eapply (tau_only (mkState σ T)); [exact HT| | |exact Hinv|exact Hl]; by destruct a. }
  split; [done|]. congruence.
Qed.

Lemma Wait_processed_fast_path_witness :
  do_step (mkState (Demo.store_with processed) (Demo.pool_with Return)) (LTau 1)
  = Some (mkState (Demo.store_with processed)
            (<[1 := Println "End" Return]> (Demo.pool_with Return)))
  ∧ ∀ l G', involves 1 l = true →
            do_step (mkState (Demo.store_with processed) (Demo.pool_with Return)) l = Some G' →
            l = LTau 1
            ∧ G' = mkState (Demo.store_with processed)
                     (<[1 := Println "End" Return]> (Demo.pool_with Return)).
Proof.
  apply (Wait_processed_fast_path (Demo.store_with processed) (Demo.pool_with Return)
           1 Demo.proc (AwEvent 0) (mkEvent processed [] []) (Println "End" Return));
    reflexivity.
Defined.

(** ** An awaitable that is already aborted *)

(** C2. The awaitable is already aborted and the calling process's own
    completion occurrence is still pending.  (1) Three internal steps of
    the calling goroutine (the two status reads and the abort) leave the
    completion occurrence aborted and the goroutine with the abort
    handlers of its completion occurrence followed by [Goexit]; nothing
    is handed back to the caller.  (2) From then on the process reports
    aborted and not processed.  (3) The code after the call of [Wait]
    never runs: along any schedule whatsoever, with any other code [k']
    in the place of [k] the same steps are taken, to the same store (the
    same events, the same output) and the same programs of all other
    goroutines. *)
Theorem Wait_aborted_aborts_process σ T t proc a E Ep k :
  events σ !! target a = Some E →
  state E = aborted →
  events σ !! ev proc = Some Ep →
  state Ep = pending →
  run (mkState σ (<[t := seq (Wait proc a) k]> T)) [LTau t; LTau t; LTau t]
  = Some (mkState (set_event σ (ev proc) (settle aborted Ep))
            (<[t := fire (abortHandlers Ep) (ev proc) Goexit]> T))
  ∧ (∀ kb,
       tstep (set_event σ (ev proc) (settle aborted Ep)) (Aborted proc kb)
       = Some (set_event σ (ev proc) (settle aborted Ep), kb true)
       ∧ tstep (set_event σ (ev proc) (settle aborted Ep)) (Processed proc kb)
         = Some (set_event σ (ev proc) (settle aborted Ep), kb false))
  ∧ (∀ k' ls G1,
       run (mkState σ (<[t := seq (Wait proc a) k]> T)) ls = Some G1 →
       ∃ G2, run (mkState σ (<[t := seq (Wait proc a) k']> T)) ls = Some G2
             ∧ store G2 = store G1
             ∧ ∀ t', t' ≠ t → pool G2 !! t' = pool G1 !! t').
Proof.
  intros HE Hst HEp Hstp. split; [|split].
  - rewrite Wait_eq.
    run_tau ltac:(by apply Wait_on_step).
    rewrite Hst; cbn [bool_decide decide_rel].
    run_tau ltac:(by apply Wait_unprocessed_step).
    rewrite Hst; cbn [bool_decide decide_rel].
    run_tau ltac:(by apply Wait_abort_step).
    done.
  - intros kb. eapply reports_aborted; [apply set_event_lookup|done].
  - intros k' ls G1. rewrite !Wait_eq.
    eapply Wait_aborted_ignores_continuation; [by left|exact HE|exact Hst].
Qed.

Lemma Wait_aborted_aborts_process_witness :
  events (Demo.store_with aborted) !! target (AwEvent 0) = Some (mkEvent aborted [] [])
  ∧ run (mkState (Demo.store_with aborted) (<[1 := Demo.logic]> (Demo.pool_with Return)))
        [LTau 1; LTau 1; LTau 1]
    = Some (mkState
              (mkStore {[ 0 := mkEvent aborted [] []; 1 := mkEvent aborted [] [] ]}
                 false [])
              {[ 0 := Return; 1 := Goexit ]}).
Proof.
  split; [reflexivity|].
  eapply eq_trans;
    [apply (Wait_aborted_aborts_process (Demo.store_with aborted) (Demo.pool_with Return)
              1 Demo.proc (AwEvent 0) (mkEvent aborted [] []) (mkEvent pending [] [])
              (Println "End" Return) eq_refl eq_refl eq_refl eq_refl)
    |reflexivity].
Defined.

(** ** Shutdown while parked *)

(** A goroutine that has ended takes part in no step. *)
Lemma ended_blocked G t :
  pool G !! t = Some Goexit → blocked G t.
Proof.
  intros Ht [t'|s r c v|t'] Hinv; simpl in Hinv; unfold do_step.
  - apply bool_decide_eq_true in Hinv as ->. by rewrite Ht.
  - destruct (decide (s = r)); [done|].
    destruct (pool G !! s) as [ps|] eqn:Hs; simpl; [|done].
    destruct (pool G !! r) as [pr|] eqn:Hr; simpl; [|done].
    apply orb_true_iff in Hinv as [H|H]; apply bool_decide_eq_true in H; subst.
    + rewrite Ht in Hs. by simplify_eq.
    + rewrite Ht in Hr. simplify_eq. simpl. by destruct (send_on c v ps).
  - apply bool_decide_eq_true in Hinv as ->. by rewrite Ht.
Qed.

(** C6. A process parked in [Wait] that takes the shutdown case of its
    [select] becomes [Goexit] at once: the caller's continuation [k] is
    dropped, the goroutine takes part in no further step, and the store
    is the same afterwards, so neither the awaited occurrence nor the
    process's own completion occurrence has changed state (or anything
    else). *)
Theorem Wait_shutdown_hard_kill σ T t proc k :
  T !! t = Some (seq (Wait_parked proc) k) →
  shutdown σ = true →
  do_step (mkState σ T) (LShut t) = Some (mkState σ (<[t := Goexit]> T))
  ∧ blocked (mkState σ (<[t := Goexit]> T)) t.
Proof.
  intros HT Hs. split; [by eapply do_shut|].
  apply ended_blocked. apply lookup_insert_eq.
Qed.

Lemma Wait_shutdown_hard_kill_witness :
  do_step (mkState (Demo.parked_store true) (Demo.parked_pool Return)) (LShut 1)
  = Some (mkState (Demo.parked_store true) (<[1 := Goexit]> (Demo.parked_pool Return)))
  ∧ blocked (mkState (Demo.parked_store true) (<[1 := Goexit]> (Demo.parked_pool Return))) 1.
Proof.
  apply (Wait_shutdown_hard_kill (Demo.parked_store true) (Demo.parked_pool Return)
           1 Demo.proc (Println "End" Return)); reflexivity.
Defined.

(** ** What [Wait] may touch *)

Lemma Wait_frame_refl proc a σ : Wait_frame proc a σ σ.
Proof.
  split; [done|]. split; [done|]. intros e E HE. exists E.
  split; [done|]. split; [done|]. split; [auto|]. split; [auto|]. done.
Qed.

Lemma Wait_frame_add_handler proc a σ E h :
  events σ !! target a = Some E →
  Wait_frame proc a σ
    (set_event σ (target a) (mkEvent (state E) (handlers E ++ [h]) (abortHandlers E))).
Proof.
  intros HE. split; [done|]. split; [done|]. intros e E0 HE0.
  destruct (decide (e = target a)) as [->|Hne].
  - rewrite HE in HE0. simplify_eq. eexists. split; [apply set_event_lookup|].
    cbn. split; [done|]. split; [auto|]. split; [done|].
    split; [by apply prefix_app_r|done].
  - exists E0. split; [by rewrite set_event_lookup_ne|].
    split; [done|]. split; [auto|]. done.
Qed.

Lemma Wait_frame_add_abort_handler proc a σ E h :
  events σ !! target a = Some E →
  Wait_frame proc a σ
    (set_event σ (target a) (mkEvent (state E) (handlers E) (abortHandlers E ++ [h]))).
Proof.
  intros HE. split; [done|]. split; [done|]. intros e E0 HE0.
  destruct (decide (e = target a)) as [->|Hne].
  - rewrite HE in HE0. simplify_eq. eexists. split; [apply set_event_lookup|].
    cbn. split; [done|]. split; [auto|]. split; [done|].
    split; [done|by apply prefix_app_r].
  - exists E0. split; [by rewrite set_event_lookup_ne|].
    split; [done|]. split; [auto|]. done.
Qed.

Lemma Wait_frame_abort proc a σ Ep :
  events σ !! ev proc = Some Ep →
  state Ep = pending →
  Wait_frame proc a σ (set_event σ (ev proc) (settle aborted Ep)).
Proof.
  intros HE Hp. split; [done|]. split; [done|]. intros e E0 HE0.
  destruct (decide (e = ev proc)) as [->|Hne].
  - rewrite HE in HE0. simplify_eq. eexists. split; [apply set_event_lookup|].
    cbn. split; [done|]. split; [auto|]. done.
  - exists E0. split; [by rewrite set_event_lookup_ne|].
    split; [done|]. split; [done|]. done.
Qed.

(** The program points of [Wait]. *)
Lemma Wait_points proc a w :
  w ∈ residuals (Wait proc a) →
  w = Return ∨ w = Goexit
  ∨ w = Wait_on proc (target a)
  ∨ w = Wait_unprocessed proc (target a)
  ∨ w = Wait_abort proc
  ∨ w = Wait_register proc (target a)
  ∨ w = EvAddAbortHandler (target a) (abort_handler proc)
          (Send (sync proc) true (Wait_parked proc))
  ∨ w = Send (sync proc) true (Wait_parked proc)
  ∨ w = Wait_parked proc.
Proof.
  rewrite Wait_eq. generalize (target a). intros e Hw. cbn in Hw.
  repeat (apply elem_of_cons in Hw as [->|Hw]; [tauto|]).
  by apply elem_of_nil in Hw.
Qed.

(** An internal step at a program point of [Wait] stays within the
    frame. *)
Lemma Wait_points_tstep proc a w k σ σ' p' :
  w ∈ residuals (Wait proc a) →
  w ≠ Return →
  tstep σ (seq w k) = Some (σ', p') →
  Wait_frame proc a σ σ'.
Proof.
  intros Hw Hret Hstep.
  apply Wait_points in Hw
    as [->|[->|[->|[->|[->|[->|[->|[->| ->]]]]]]]]; cbn in Hstep; try done.
  - destruct (events σ !! target a) as [E|]; simplify_eq/=. apply Wait_frame_refl.
  - destruct (events σ !! target a) as [E|]; simplify_eq/=. apply Wait_frame_refl.
  - destruct (events σ !! ev proc) as [Ep|] eqn:HEp; simplify_eq/=.
    destruct (decide (state Ep = pending)); simplify_eq/=.
    + by apply Wait_frame_abort.
    + apply Wait_frame_refl.
  - destruct (events σ !! target a) as [E|] eqn:HE; simplify_eq/=.
    by apply Wait_frame_add_handler.
  - destruct (events σ !! target a) as [E|] eqn:HE; simplify_eq/=.
    by apply Wait_frame_add_abort_handler.
Qed.

(** C10. Whatever step a goroutine takes while it is at a program point
    of [Wait proc a] (any point on any path, before [Wait] has returned),
    the store changes only within [Wait_frame]: the state of every event
    other than the process's own completion occurrence is unchanged, in
    particular that of the awaitable; the own completion occurrence
    either keeps its state or goes from pending to aborted; handler
    lists only grow at their end, and only those of the awaitable; the
    shutdown signal and the output are unchanged. *)
Theorem Wait_frame_on_every_path proc a w k G t l G' :
  w ∈ residuals (Wait proc a) →
  w ≠ Return →
  pool G !! t = Some (seq w k) →
  involves t l = true →
  do_step G l = Some G' →
  Wait_frame proc a (store G) (store G').
Proof.
  intros Hw Hret Ht Hinv Hstep. destruct l as [t'|s r c v|t']; simpl in Hinv.
  - apply bool_decide_eq_true in Hinv as ->. unfold do_step in Hstep.
    rewrite Ht in Hstep. simpl in Hstep.
    destruct (tstep (store G) (seq w k)) as [[σ' p']|] eqn:Hts; simplify_eq/=.
    by eapply Wait_points_tstep.
  - unfold do_step in Hstep. destruct (decide (s = r)); [done|].
    destruct (pool G !! s); simpl in Hstep; [|done].
    destruct (pool G !! r); simpl in Hstep; [|done].
    destruct (send_on c v p); simpl in Hstep; [|done].
    destruct (recv_on c p0); simplify_eq/=. apply Wait_frame_refl.
  - unfold do_step in Hstep.
    destruct (pool G !! t'); simpl in Hstep; [|done].
    destruct (shut_of p); simpl in Hstep; [|done].
    destruct (shutdown (store G)); simplify_eq/=. apply Wait_frame_refl.
Qed.

Lemma Wait_frame_on_every_path_witness :
  Wait Demo.proc (AwEvent 0) ∈ residuals (Wait Demo.proc (AwEvent 0))
  ∧ Wait_frame Demo.proc (AwEvent 0) (Demo.store_with pending) (Demo.store_with pending).
Proof.
  split; [apply list_elem_of_here|].
  apply (Wait_frame_on_every_path Demo.proc (AwEvent 0) (Wait Demo.proc (AwEvent 0))
           (Println "End" Return)
           (mkState (Demo.store_with pending) (Demo.pool_with Return)) 1 (LTau 1)
           (mkState (Demo.store_with pending)
              (<[1 := seq (Wait_unprocessed Demo.proc 0) (Println "End" Return)]>
                 (Demo.pool_with Return))));
    [apply list_elem_of_here|discriminate|reflexivity|reflexivity|reflexivity].
Defined.

(** ** Delegation to the completion occurrence *)

(** C9. The four status methods of a process are one internal step that
    leaves the store as it is and answers from the state of the process's
    own completion occurrence [ev proc] alone; [AddHandler] and
    [AddAbortHandler] append the callback to the on-processed and to the
    on-abort handlers of that same occurrence, so that settling it as
    processed, respectively aborting it, invokes the callback after the
    handlers registered before it. *)
Theorem Process_delegates_to_completion σ proc Ep kb h k :
  events σ !! ev proc = Some Ep →
  tstep σ (Pending proc kb) = Some (σ, kb (bool_decide (state Ep = pending)))
  ∧ tstep σ (Triggered proc kb) = Some (σ, kb (bool_decide (state Ep ≠ pending)))
  ∧ tstep σ (Processed proc kb) = Some (σ, kb (bool_decide (state Ep = processed)))
  ∧ tstep σ (Aborted proc kb) = Some (σ, kb (bool_decide (state Ep = aborted)))
  ∧ (∃ σ1, tstep σ (AddHandler proc h k) = Some (σ1, k)
      ∧ σ1 = set_event σ (ev proc)
               (mkEvent (state Ep) (handlers Ep ++ [h]) (abortHandlers Ep))
      ∧ (state Ep = pending →
         ∃ σ2, tstep σ1 (EvSettle (ev proc) k)
               = Some (σ2, fire (handlers Ep) (ev proc) (seq (h (ev proc)) k))
               ∧ tstep σ1 (EvAbort (ev proc) k)
                 = Some (set_event σ1 (ev proc) (settle aborted
                           (mkEvent (state Ep) (handlers Ep ++ [h]) (abortHandlers Ep))),
                         fire (abortHandlers Ep) (ev proc) k)))
  ∧ (∃ σ1, tstep σ (AddAbortHandler proc h k) = Some (σ1, k)
      ∧ σ1 = set_event σ (ev proc)
               (mkEvent (state Ep) (handlers Ep) (abortHandlers Ep ++ [h]))
      ∧ (state Ep = pending →
         ∃ σ2, tstep σ1 (EvAbort (ev proc) k)
               = Some (σ2, fire (abortHandlers Ep) (ev proc) (seq (h (ev proc)) k))
               ∧ tstep σ1 (EvSettle (ev proc) k)
                 = Some (set_event σ1 (ev proc) (settle processed
                           (mkEvent (state Ep) (handlers Ep) (abortHandlers Ep ++ [h]))),
                         fire (handlers Ep) (ev proc) k))).
Proof.
  intros HEp.
  split; [exact (tstep_query σ QPending (ev proc) kb Ep HEp)|].
  split; [exact (tstep_query σ QTriggered (ev proc) kb Ep HEp)|].
  split; [exact (tstep_query σ QProcessed (ev proc) kb Ep HEp)|].
  split; [exact (tstep_query σ QAborted (ev proc) kb Ep HEp)|].
  split.
  - eexists. split; [exact (tstep_add_handler σ (ev proc) h k Ep HEp)|]. split; [done|].
    intros Hp. eexists. split.
    + erewrite tstep_settle_pending; [|apply set_event_lookup|done].
      cbn [handlers]. by rewrite fire_app.
    + erewrite tstep_abort_pending; [|apply set_event_lookup|done]. done.
  - eexists. split; [exact (tstep_add_abort_handler σ (ev proc) h k Ep HEp)|]. split; [done|].
    intros Hp. eexists. split.
    + erewrite tstep_abort_pending; [|apply set_event_lookup|done].
      cbn [abortHandlers]. by rewrite fire_app.
    + erewrite tstep_settle_pending; [|apply set_event_lookup|done]. done.
Qed.

Lemma Process_delegates_to_completion_witness :
  events (Demo.store_with pending) !! ev Demo.proc = Some (mkEvent pending [] [])
  ∧ tstep (Demo.store_with pending) (Aborted Demo.proc (fun b => if b then Goexit else Return))
    = Some (Demo.store_with pending, Return).
Proof.
  split; [reflexivity|].
  exact (proj1 (proj2 (proj2 (proj2
    (Process_delegates_to_completion (Demo.store_with pending) Demo.proc
       (mkEvent pending [] []) (fun b => if b then Goexit else Return)
       (fun _ => Return) Return eq_refl))))).
Defined.

(** ** Parking and resuming *)

Lemma set_event_twice σ e E1 E2 :
  set_event (set_event σ e E1) e E2 = set_event σ e E2.
Proof. unfold set_event; simpl. by rewrite insert_insert_eq. Qed.

Ltac run_comm :=
  erewrite run_cons_Some
    by (eapply do_comm;
        [done
        |first [apply lookup_insert_eq
               |rewrite lookup_insert_ne by done; first [eassumption|apply lookup_insert_eq]]
        |first [apply lookup_insert_eq
               |rewrite lookup_insert_ne by done; first [eassumption|apply lookup_insert_eq]]
        |first [apply send_on_Send|eassumption]
        |first [apply recv_on_Recv|apply recv_on_Select|eassumption]]).

(** A process that calls [Wait] on a pending occurrence registers its
    two handlers, hands a token to whoever receives on its channel and
    is parked. *)
Lemma Wait_pending_parks σ T t d proc e E k pd kd :
  t ≠ d →
  events σ !! e = Some E →
  state E = pending →
  T !! d = Some pd →
  recv_on (sync proc) pd = Some kd →
  run (mkState σ (<[t := seq (Wait_on proc e) k]> T))
      [LTau t; LTau t; LTau t; LTau t; LComm t d (sync proc) true]
  = Some (mkState
            (set_event σ e
               (mkEvent pending (handlers E ++ [resume_handler proc])
                                (abortHandlers E ++ [abort_handler proc])))
            (<[d := kd true]> (<[t := seq (Wait_parked proc) k]> T))).
Proof.
  intros Htd HE Hst Hd Hkd.
  run_tau ltac:(by apply Wait_on_step).
  rewrite Hst; cbn [bool_decide decide_rel].
  run_tau ltac:(by apply Wait_unprocessed_step).
  rewrite Hst; cbn [bool_decide decide_rel].
  run_tau ltac:(by apply tstep_add_handler).
  run_tau ltac:(apply tstep_add_abort_handler, set_event_lookup).
  rewrite set_event_twice. cbn [state handlers abortHandlers].
  run_comm. rewrite insert_insert_eq. by rewrite Hst.
Qed.

Lemma tstep_settled_noop σ e E X :
  events σ !! e = Some E →
  state E ≠ pending →
  tstep σ (EvSettle e X) = Some (σ, X) ∧ tstep σ (EvAbort e X) = Some (σ, X).
Proof. intros H Hs. simpl. rewrite H; simpl. by rewrite !decide_False. Qed.

(** When the occurrence is settled as processed and the handlers
    registered before the process's own have returned, the process's
    handler hands it the resume token and [Wait] returns. *)
Lemma register_lookup proc e σ E :
  events σ !! e = Some E →
  state E = pending →
  register proc e σ
  = set_event σ e
      (mkEvent pending (handlers E ++ [resume_handler proc])
                       (abortHandlers E ++ [abort_handler proc])).
Proof. intros HE Hst. unfold register. by rewrite HE, Hst. Qed.

Lemma register_pending proc e σ e' :
  is_pending σ e' → is_pending (register proc e σ) e'.
Proof.
  intros (E' & HE' & Hst'). unfold register.
  destruct (events σ !! e) as [E|] eqn:HE; [|by exists E'].
  destruct (decide (e = e')) as [->|Hne].
  - rewrite HE in HE'. simplify_eq. eexists. split; [apply set_event_lookup|done].
  - exists E'. split; [|done]. by rewrite set_event_lookup_ne.
Qed.

(** ** Processes that finish *)

Lemma sim_run_app launched G ls1 ls2 :
  sim_run launched G (ls1 ++ ls2)
  = G' ← sim_run launched G ls1; sim_run launched G' ls2.
Proof.
  revert G. induction ls1 as [|l ls1 IH]; intros G; simpl; [done|].
  destruct (sim_step launched G l) as [G1|]; simpl; [apply IH|done].
Qed.

Lemma sim_run_app_Some launched G ls1 G1 ls2 :
  sim_run launched G ls1 = Some G1 →
  sim_run launched G (ls1 ++ ls2) = sim_run launched G1 ls2.
Proof. intros H. by rewrite sim_run_app, H. Qed.

Lemma sim_run_cons_Some launched G l G1 ls :
  sim_step launched G l = Some G1 →
  sim_run launched G (l :: ls) = sim_run launched G1 ls.
Proof. intros H. simpl. by rewrite H. Qed.

(** A schedule of the pool is a schedule of the simulation. *)
Lemma sim_run_steps launched G ls : sim_run launched G (LStep <$> ls) = run G ls.
Proof.
  revert G. induction ls as [|l ls IH]; intros G; simpl; [done|].
  destruct (do_step G l) as [G1|]; simpl; [apply IH|done].
Qed.

Lemma sim_end launched σ T t r v proc p pr kr :
  t ≠ r →
  launched !! t = Some proc →
  T !! t = Some p →
  ended p = true →
  T !! r = Some pr →
  recv_on (sync proc) pr = Some kr →
  sim_step launched (mkState σ T) (LEnd t r v) = Some (mkState σ (<[r := kr v]> T)).
Proof.
  intros Htr HP Ht Hp Hr Hkr. unfold sim_step; simpl.
  rewrite decide_False by done.
  by rewrite HP; simpl; rewrite Ht; simpl; rewrite Hr; simpl; rewrite Hp, Hkr.
Qed.

Lemma sim_tokens_app c ls1 ls2 :
  sim_tokens c (ls1 ++ ls2) = sim_tokens c ls1 ++ sim_tokens c ls2.
Proof. unfold sim_tokens, steps_of. by rewrite omap_app, tokens_app. Qed.

Lemma sim_tokens_steps c ls : sim_tokens c (LStep <$> ls) = tokens c ls.
Proof.
  unfold sim_tokens, steps_of. f_equal.
  induction ls as [|l ls IH]; [done|]. cbn. by rewrite IH.
Qed.

Lemma sim_tokens_taus c t n : sim_tokens c (replicate n (LStep (LTau t))) = [].
Proof. induction n as [|n IH]; [done|]. exact IH. Qed.

Lemma sim_tokens_cons_end c t r v ls :
  sim_tokens c (LEnd t r v :: ls) = sim_tokens c ls.
Proof. done. Qed.

Lemma sim_tokens_cons_tau c t ls :
  sim_tokens c (LStep (LTau t) :: ls) = sim_tokens c ls.
Proof. done. Qed.

Lemma sim_tokens_cons_comm c s r c' v ls :
  sim_tokens c (LStep (LComm s r c' v) :: ls)
  = if decide (c' = c) then v :: sim_tokens c ls else sim_tokens c ls.
Proof. done. Qed.

(** The simulation, too, leaves a settled occurrence as it is. *)
Lemma sim_run_settled_stable launched G ls G' e E :
  sim_run launched G ls = Some G' →
  events (store G) !! e = Some E →
  state E ≠ pending →
  ∃ E', events (store G') !! e = Some E' ∧ state E' = state E.
Proof.
  revert G E. induction ls as [|l ls IH]; intros G E Hrun HE Hs; simpl in Hrun.
  - simplify_eq. eauto.
  - destruct (sim_step launched G l) as [G1|] eqn:Hstep; simpl in Hrun; [|done].
    assert (∃ E1, events (store G1) !! e = Some E1 ∧ state E1 = state E)
      as (E1 & HE1 & Hst).
    { destruct l as [l|t r v]; simpl in Hstep.
      - destruct (do_step_events_mono _ _ _ _ _ Hstep HE) as (E1 & HE1 & [Hst|Hst]);
          [eauto|done].
      - destruct (decide (t = r)); [done|].
        destruct (launched !! t) as [proc|]; simpl in Hstep; [|done].
        destruct (pool G !! t) as [p|]; simpl in Hstep; [|done].
        destruct (pool G !! r) as [pr|]; simpl in Hstep; [|done].
        destruct (ended p); [|done].
        destruct (recv_on (sync proc) pr); simplify_eq/=. eauto. }
    destruct (IH G1 E1 Hrun HE1) as (E' & HE' & Hst'); [congruence|].
    exists E'. split; [done|congruence].
Qed.

(** ** Callbacks *)

Lemma says_cons s ss : says (s :: ss) = Println s (says ss).
Proof. done. Qed.

Lemma seq_says_Return ss : seq (says ss) Return = says ss.
Proof. induction ss as [|s ss IH]; [done|]. rewrite says_cons. cbn [seq]. by rewrite IH. Qed.

Lemma said_nil σ : said [] σ = σ.
Proof. unfold said. rewrite app_nil_r. by destruct σ. Qed.

Lemma said_cons s ss σ : said ss (printed s σ) = said (s :: ss) σ.
Proof. unfold said, printed; cbn. by rewrite <- app_assoc. Qed.

Lemma said_pending ss σ e : is_pending σ e → is_pending (said ss σ) e.
Proof. done. Qed.

(** The lines of [says ss] are printed by as many internal steps. *)
Lemma says_run launched ss : ∀ σ T x X,
  sim_run launched (mkState σ (<[x := seq (says ss) X]> T))
    (replicate (length ss) (LStep (LTau x)))
  = Some (mkState (said ss σ) (<[x := X]> T)).
Proof.
  induction ss as [|s ss IH]; intros σ T x X.
  - cbn. by rewrite said_nil.
  - rewrite says_cons. cbn [seq length replicate].
    erewrite sim_run_cons_Some
      by (cbn [sim_step]; eapply do_tau; [apply lookup_insert_eq|reflexivity]).
    rewrite insert_insert_eq.
    change (mkStore (events σ) (shutdown σ) (output σ ++ [s])) with (printed s σ).
    by rewrite IH, said_cons.
Qed.

Lemma NoDup_cons_app {A} (x : A) (l k : list A) :
  NoDup (x :: l ++ k) →
  (x ∉ l) ∧ (x ∉ k) ∧ NoDup l ∧ NoDup k ∧ (∀ y, y ∈ l → y ∉ k).
Proof.
  intros [Hx Hnd]%NoDup_cons. apply not_elem_of_app in Hx as [Hl Hk].
  apply NoDup_app in Hnd as (Hl' & Hd & Hk'). done.
Qed.

Ltac pool_eq :=
  apply map_eq; intros ?; rewrite ?lookup_insert;
  repeat case_decide; subst; try done; congruence.

(** ** The turns of the parties on a processed occurrence *)

Lemma said_processed ss σ e : is_processed σ e → is_processed (said ss σ) e.
Proof. done. Qed.

Lemma register_processed proc e σ e' :
  is_processed σ e' → is_processed (register proc e σ) e'.
Proof.
  intros (E' & HE' & Hst'). unfold register.
  destruct (events σ !! e) as [E|] eqn:HE; [|by exists E'].
  destruct (decide (e = e')) as [->|Hne].
  - rewrite HE in HE'. simplify_eq. eexists. split; [apply set_event_lookup|done].
  - exists E'. split; [|done]. by rewrite set_event_lookup_ne.
Qed.

Lemma passes_mono σ σ' l :
  (∀ e, is_processed σ e → is_processed σ' e) → passes σ l → passes σ' l.
Proof.
  intros Hσ Hl. unfold passes in *. eapply Forall_impl; [exact Hl|].
  intros [s|a]; [done|apply Hσ].
Qed.

(** Statements that wait on processed awaitables only take one internal
    step each and yield nowhere. *)
Lemma stmts_run launched proc l : ∀ σ T x X,
  passes σ l →
  sim_run launched (mkState σ (<[x := stmts proc l X]> T))
    (replicate (length l) (LStep (LTau x)))
  = Some (mkState (said (stmts_said l) σ) (<[x := X]> T)).
Proof.
  induction l as [|[s|a] l IH]; intros σ T x X Hl.
  - cbn. by rewrite said_nil.
  - apply Forall_cons in Hl as [_ Hl]. cbn [stmts foldr length replicate].
    erewrite sim_run_cons_Some
      by (cbn [sim_step]; eapply do_tau; [apply lookup_insert_eq|reflexivity]).
    rewrite insert_insert_eq.
    change (mkStore (events σ) (shutdown σ) (output σ ++ [s])) with (printed s σ).
    fold (stmts proc l X). rewrite IH by done.
    unfold stmts_said. cbn. by rewrite said_cons.
  - apply Forall_cons in Hl as [(E & HE & Hst) Hl]. cbn [stmts foldr length replicate].
    fold (stmts proc l X). rewrite Wait_eq.
    erewrite sim_run_cons_Some
      by (cbn [sim_step]; eapply do_tau;
          [apply lookup_insert_eq|by apply Wait_on_step]).
    rewrite insert_insert_eq, Hst, bool_decide_eq_true_2 by done.
    by rewrite IH.
Qed.

Lemma resumable_frame launched σ T σ' T' w :
  (∀ e, is_pending σ e → is_pending σ' e) →
  (∀ e, is_processed σ e → is_processed σ' e) →
  (∀ t, p_tid w = Some t → T' !! t = T !! t) →
  resumable launched σ T w → resumable launched σ' T' w.
Proof.
  destruct w as [ss|t proc pre|t proc pre a k]; simpl; intros Hσ Hσ' HT; [done| |].
  - rewrite (HT t eq_refl). intros (? & ? & ?). eauto using passes_mono.
  - rewrite (HT t eq_refl). intros (? & ? & ?). eauto using passes_mono.
Qed.

Lemma resumed_store_pending σ w e :
  is_pending σ e → is_pending (resumed_store σ w) e.
Proof.
  destruct w as [ss|t proc pre|t proc pre a k]; simpl; intros H;
    [done|done|]. by apply register_pending.
Qed.

Lemma resumed_store_processed σ w e :
  is_processed σ e → is_processed (resumed_store σ w) e.
Proof.
  destruct w as [ss|t proc pre|t proc pre a k]; simpl; intros H;
    [done|done|]. by apply register_processed.
Qed.

Lemma resumed_pool_lookup_ne T w t :
  p_tid w ≠ Some t → resumed_pool T w !! t = T !! t.
Proof.
  destruct w as [ss|t' proc pre|t' proc pre a k]; simpl; intros H; [done| |];
    apply lookup_insert_ne; congruence.
Qed.

Lemma p_tids_cons w ws :
  p_tids (w :: ws) = match p_tid w with Some t => t :: p_tids ws | None => p_tids ws end.
Proof. done. Qed.

Lemma p_chans_cons w ws :
  p_chans (w :: ws)
  = match p_chan w with Some c => c :: p_chans ws | None => p_chans ws end.
Proof. done. Qed.

Lemma after_resumes_pool_lookup_ne ws : ∀ T t,
  t ∉ p_tids ws → after_resumes_pool T ws !! t = T !! t.
Proof.
  induction ws as [|w ws IH]; intros T t Hnotin; [done|].
  cbn [after_resumes_pool foldl]. fold (after_resumes_pool (resumed_pool T w) ws).
  rewrite p_tids_cons in Hnotin. rewrite IH.
  - apply resumed_pool_lookup_ne. intros Heq. rewrite Heq in Hnotin.
    apply Hnotin, list_elem_of_here.
  - destruct (p_tid w); [|done]. intros Hin. by apply Hnotin, list_elem_of_further.
Qed.

Lemma resumed_store_output σ w :
  output (resumed_store σ w) = output σ ++ p_said [w].
Proof.
  unfold p_said. cbn. rewrite app_nil_r.
  destruct w as [ss|t proc pre|t proc pre a k]; cbn; [done|done|].
  unfold register. by destruct (events (said (stmts_said pre) σ) !! target a).
Qed.

Lemma after_resumes_store_output ws : ∀ σ,
  output (after_resumes_store σ ws) = output σ ++ p_said ws.
Proof.
  induction ws as [|w ws IH]; intros σ.
  - cbn. by rewrite app_nil_r.
  - cbn [after_resumes_store foldl]. fold (after_resumes_store (resumed_store σ w) ws).
    rewrite IH, resumed_store_output. unfold p_said. cbn. rewrite app_nil_r.
    by rewrite <- app_assoc.
Qed.

(** The turn of one party: its handler returns. *)
Lemma resume_returns launched w σ T d e X :
  (∀ t, p_tid w = Some t → t ≠ d) →
  resumable launched σ T w →
  sim_run launched (mkState σ (<[d := seq (on_processed w e) X]> T)) (resume d w)
  = Some (mkState (resumed_store σ w) (<[d := X]> (resumed_pool T w))).
Proof.
  destruct w as [ss|t proc pre|t proc pre a k]; intros Hd Hw.
  - apply says_run.
  - destruct Hw as (HP & Ht & Hpre). pose proof (Hd t eq_refl) as Htd.
    cbn [on_processed resume_handler seq resume resumed_store resumed_pool].
    erewrite sim_run_cons_Some
      by (cbn [sim_step]; eapply do_comm;
          [by apply not_eq_sym|apply lookup_insert_eq
          |rewrite lookup_insert_ne by (by apply not_eq_sym); exact Ht
          |apply send_on_Send|apply recv_on_Select]).
    rewrite insert_insert_eq. cbn [negb]. change (seq Return ?p) with p.
    erewrite sim_run_app_Some by (by apply stmts_run).
    erewrite sim_run_cons_Some
      by (eapply sim_end;
          [exact Htd|exact HP|apply lookup_insert_eq|done
          |rewrite lookup_insert_ne by done; apply lookup_insert_eq
          |apply recv_on_Recv]).
    cbn [sim_run]. do 2 f_equal. pool_eq.
  - destruct Hw as (Ht & Hpre & (E & HE & Hst)). pose proof (Hd t eq_refl) as Htd.
    cbn [on_processed resume_handler seq resume resumed_store resumed_pool].
    erewrite sim_run_cons_Some
      by (cbn [sim_step]; eapply do_comm;
          [by apply not_eq_sym|apply lookup_insert_eq
          |rewrite lookup_insert_ne by (by apply not_eq_sym); exact Ht
          |apply send_on_Send|apply recv_on_Select]).
    rewrite insert_insert_eq. cbn [negb]. change (seq Return ?p) with p.
    erewrite sim_run_app_Some by (by apply stmts_run).
    rewrite sim_run_steps, Wait_eq.
    erewrite Wait_pending_parks;
      [|exact Htd|exact HE|exact Hst|apply lookup_insert_eq|apply recv_on_Recv].
    rewrite (register_lookup proc (target a) (said (stmts_said pre) σ) E HE Hst).
    do 2 f_equal. pool_eq.
Qed.

(** All the parties take their turns, in the order of their handlers:
    the handlers all return. *)
Lemma resumes_return launched ws : ∀ σ T d e X,
  NoDup (d :: p_tids ws) →
  Forall (resumable launched σ T) ws →
  sim_run launched (mkState σ (<[d := fire (on_processed <$> ws) e X]> T))
    (resumes d ws)
  = Some (mkState (after_resumes_store σ ws) (<[d := X]> (after_resumes_pool T ws))).
Proof.
  induction ws as [|w ws IH]; intros σ T d e X Hnd Hws; [done|].
  apply Forall_cons in Hws as [Hw Hws].
  apply NoDup_cons in Hnd as [Hd Hnd]. rewrite p_tids_cons in Hd, Hnd.
  rewrite fmap_cons, fire_cons. cbn [resumes after_resumes_store after_resumes_pool foldl].
  erewrite sim_run_app_Some; cycle 1.
  { apply resume_returns; [|exact Hw]. intros t Ht ->. rewrite Ht in Hd.
    apply Hd, list_elem_of_here. }
  apply IH.
  - apply NoDup_cons. destruct (p_tid w) as [t|]; [|done].
    apply NoDup_cons in Hnd as [_ Hnd]. split; [|done].
    intros Hin. by apply Hd, list_elem_of_further.
  - apply Forall_forall. intros w0 Hin.
    apply (resumable_frame launched σ T);
      [| | |exact (proj1 (Forall_forall _ _) Hws w0 Hin)].
    + intros e0. apply resumed_store_pending.
    + intros e0. apply resumed_store_processed.
    + intros t0 Ht0. apply resumed_pool_lookup_ne. intros Heq.
      rewrite Heq in Hnd. apply NoDup_cons in Hnd as [Hn _]. apply Hn.
      unfold p_tids. apply list_elem_of_omap. eauto.
Qed.

Lemma sim_tokens_resumes c d ws :
  c ∉ p_chans ws → sim_tokens c (resumes d ws) = [].
Proof.
  induction ws as [|w ws IH]; intros Hnotin; [done|].
  rewrite p_chans_cons in Hnotin. cbn [resumes]. rewrite sim_tokens_app.
  destruct w as [ss|t proc pre|t proc pre a k]; cbn [p_chan resume] in *.
  - rewrite sim_tokens_taus. by apply IH.
  - apply not_elem_of_cons in Hnotin as [Hc Hnotin].
    rewrite sim_tokens_cons_comm, decide_False by done.
    rewrite sim_tokens_app, sim_tokens_taus. cbn. by apply IH.
  - apply not_elem_of_cons in Hnotin as [Hc Hnotin].
    rewrite sim_tokens_cons_comm, decide_False by done.
    rewrite sim_tokens_app, sim_tokens_taus, sim_tokens_steps. cbn [tokens app].
    rewrite decide_False by done. by apply IH.
Qed.

(** ** Resuming *)

(** C1. (1) A process that calls [Wait] on a pending awaitable appends
    exactly one handler to the awaitable's on-processed handlers and
    exactly one to its on-abort handlers, hands the token [true] to the
    goroutine receiving on its channel, and is parked in the [select].
    (2) What the two handlers do: invoked on any occurrence by code that
    goes on with [X], the first sends [true] and the second sends [false]
    on the process's channel; each then receives on that channel,
    whatever the token, and only then returns to [X].
    (3) The occurrence is processed while the process is parked.  Before
    the process's own handler stand the handlers of any number of other
    parties [ws]: callbacks, and other parked processes, each of which,
    once resumed, does any statements that do not yield (prints, and
    calls of [Wait] on awaitables that are processed, such as the
    occurrence itself) and then yields by finishing or by calling [Wait]
    on a pending awaitable.  After it stand any handlers [hs2].  The other parties take their turns in the order of
    registration, and then the process's handler passes it one token,
    [true]: that is the only token on the process's channel during the
    settlement; [Wait] has returned (the goroutine continues with [k])
    while the settling goroutine waits for the process to yield.  The
    occurrence is processed from then on, so that settling or aborting
    it again invokes no handler a second time.
    (4) The rest of the settlement, once the process has yielded: the
    handlers of any number of parties registered after the process
    return, too, no token is passed on the process's channel, and the
    process's goroutine is not touched. *)
Theorem Wait_pending_resumes_once launched :
  (∀ σ T t d proc a E k pd kd,
     t ≠ d →
     events σ !! target a = Some E →
     state E = pending →
     T !! d = Some pd →
     recv_on (sync proc) pd = Some kd →
     run (mkState σ (<[t := seq (Wait proc a) k]> T))
         [LTau t; LTau t; LTau t; LTau t; LComm t d (sync proc) true]
     = Some (mkState
               (set_event σ (target a)
                  (mkEvent pending (handlers E ++ [resume_handler proc])
                                   (abortHandlers E ++ [abort_handler proc])))
               (<[d := kd true]> (<[t := seq (Wait_parked proc) k]> T))))
  ∧ (∀ proc e X,
     seq (resume_handler proc e) X
     = Send (sync proc) true (Recv (sync proc) (fun _ => X))
     ∧ seq (abort_handler proc e) X
       = Send (sync proc) false (Recv (sync proc) (fun _ => X)))
  ∧ (∀ ws σ T t d proc e E hs2 k kd,
     NoDup (d :: t :: p_tids ws) →
     sync proc ∉ p_chans ws →
     T !! t = Some (seq (Wait_parked proc) k) →
     T !! d = Some (EvSettle e kd) →
     events σ !! e = Some E →
     state E = pending →
     handlers E = (on_processed <$> ws) ++ resume_handler proc :: hs2 →
     Forall (resumable launched (set_event σ e (settle processed E)) T) ws →
     sim_run launched (mkState σ T)
       (LStep (LTau d) :: resumes d ws ++ [LStep (LComm d t (sync proc) true)])
     = Some (mkState (after_resumes_store (set_event σ e (settle processed E)) ws)
               (<[t := k]> (<[d := Recv (sync proc) (fun _ => fire hs2 e kd)]>
                              (after_resumes_pool T ws))))
     ∧ sim_tokens (sync proc)
         (LStep (LTau d) :: resumes d ws ++ [LStep (LComm d t (sync proc) true)])
       = [true]
     ∧ ∀ X, tstep (after_resumes_store (set_event σ e (settle processed E)) ws)
                  (EvSettle e X)
            = Some (after_resumes_store (set_event σ e (settle processed E)) ws, X)
            ∧ tstep (after_resumes_store (set_event σ e (settle processed E)) ws)
                    (EvAbort e X)
              = Some (after_resumes_store (set_event σ e (settle processed E)) ws, X))
  ∧ (∀ ws σ T t d proc e kd,
     NoDup (d :: t :: p_tids ws) →
     sync proc ∉ p_chans ws →
     Forall (resumable launched σ T) ws →
     sim_run launched (mkState σ (<[d := fire (on_processed <$> ws) e kd]> T))
       (resumes d ws)
     = Some (mkState (after_resumes_store σ ws) (<[d := kd]> (after_resumes_pool T ws)))
     ∧ sim_tokens (sync proc) (resumes d ws) = []
     ∧ after_resumes_pool T ws !! t = T !! t).
Proof.
  split; [|split; [|split]].
  - intros σ T t d proc a E k pd kd Htd HE Hst Hd Hkd.
    rewrite Wait_eq. by eapply Wait_pending_parks.
  - done.
  - intros ws σ T t d proc e E hs2 k kd Hnd Hc Ht Hd HE Hst Hhs Hws.
    apply NoDup_cons in Hnd as [Hd_notin Hnd].
    apply not_elem_of_cons in Hd_notin as [Hdt Hd_notin].
    apply NoDup_cons in Hnd as [Ht_notin Hnd].
    assert (Hret : sim_run launched
                     (mkState (set_event σ e (settle processed E))
                        (<[d := fire (handlers E) e kd]> T)) (resumes d ws)
                   = Some (mkState
                             (after_resumes_store (set_event σ e (settle processed E)) ws)
                             (<[d := Send (sync proc) true
                                       (Recv (sync proc) (fun _ => fire hs2 e kd))]>
                                (after_resumes_pool T ws)))).
    { rewrite Hhs, fire_app, fire_cons.
      by rewrite (resumes_return launched ws) by (by try apply NoDup_cons). }
    assert (Hrun : sim_run launched (mkState σ T) (LStep (LTau d) :: resumes d ws)
                   = Some (mkState
                             (after_resumes_store (set_event σ e (settle processed E)) ws)
                             (<[d := Send (sync proc) true
                                       (Recv (sync proc) (fun _ => fire hs2 e kd))]>
                                (after_resumes_pool T ws)))).
    { erewrite sim_run_cons_Some
        by (cbn [sim_step]; eapply do_tau;
            [exact Hd|eapply tstep_settle_pending; eassumption]).
      exact Hret. }
    split; [|split].
    + change (LStep (LTau d) :: resumes d ws ++ [LStep (LComm d t (sync proc) true)])
        with ((LStep (LTau d) :: resumes d ws) ++ [LStep (LComm d t (sync proc) true)]).
      erewrite sim_run_app_Some by exact Hrun.
      erewrite sim_run_cons_Some
        by (cbn [sim_step]; eapply do_comm;
            [exact Hdt|apply lookup_insert_eq
            |rewrite lookup_insert_ne by done;
             rewrite after_resumes_pool_lookup_ne by done; exact Ht
            |apply send_on_Send|apply recv_on_Select]).
      by rewrite insert_insert_eq.
    + rewrite sim_tokens_cons_tau, sim_tokens_app, sim_tokens_resumes by done.
      cbn. by rewrite decide_True.
    + intros X.
      destruct (sim_run_settled_stable _ _ _ _ e (settle processed E) Hret)
        as (E' & HE' & Hst'); [apply set_event_lookup|done|].
      apply (tstep_settled_noop _ e E' X HE'). by rewrite Hst'.
  - intros ws σ T t d proc e kd Hnd Hc Hws.
    apply NoDup_cons in Hnd as [Hd_notin Hnd].
    apply not_elem_of_cons in Hd_notin as [Hdt Hd_notin].
    apply NoDup_cons in Hnd as [Ht_notin Hnd].
    split; [|split].
    + apply resumes_return; [by apply NoDup_cons|done].
    + by apply sim_tokens_resumes.
    + by apply after_resumes_pool_lookup_ne.
Qed.

Lemma Wait_pending_resumes_once_witness :
  run (mkState (Demo.store_with pending)
         (<[1 := Demo.logic]> (Demo.pool_with (Recv 10 (fun _ => EvSettle 0 Return)))))
      [LTau 1; LTau 1; LTau 1; LTau 1; LComm 1 0 10 true]
  = Some (mkState (Demo.parked_store false) (Demo.parked_pool (EvSettle 0 Return)))
  ∧ (∃ σ' T',
       sim_run Shared.launched (mkState Shared.store0 (Shared.pool0 (EvSettle 0 Return)))
         (LStep (LTau 0) :: resumes 0 Shared.earlier ++ [LStep (LComm 0 1 10 true)])
       = Some (mkState σ' T')
       ∧ T' !! 1 = Some (Println "End" Return)
       ∧ T' !! 2 = Some Return
       ∧ T' !! 3 = Some (seq (Wait_parked Shared.R) Return)
       ∧ T' !! 0 = Some (Recv 10 (fun _ => fire [resume_handler Shared.S'] 0 Return))
       ∧ output σ' = ["callback"; "Q on"; "Q done"; "R again"])
  ∧ sim_tokens 10
      (LStep (LTau 0) :: resumes 0 Shared.earlier ++ [LStep (LComm 0 1 10 true)])
    = [true]
  ∧ sim_run Shared.launched
      (mkState Shared.store0
         (<[0 := fire (on_processed <$> Shared.later) 0 Return]> (Shared.pool0 Return)))
      (resumes 0 Shared.later)
    = Some (mkState (after_resumes_store Shared.store0 Shared.later)
              (<[0 := Return]> (after_resumes_pool (Shared.pool0 Return) Shared.later))).
Proof.
  destruct (Wait_pending_resumes_once Shared.launched) as (H1 & _ & H3 & H4).
  split; [|split; [|split]].
  - eapply eq_trans;
      [apply (H1 (Demo.store_with pending)
                (Demo.pool_with (Recv 10 (fun _ => EvSettle 0 Return))) 1 0 Demo.proc
                (AwEvent 0) (mkEvent pending [] []) (Println "End" Return)
                (Recv 10 (fun _ => EvSettle 0 Return)) (fun _ => EvSettle 0 Return));
       first [reflexivity|discriminate]
      |reflexivity].
  - destruct (H3 Shared.earlier Shared.store0 (Shared.pool0 (EvSettle 0 Return)) 1 0
                Shared.P 0 Shared.event0 [resume_handler Shared.S']
                (Println "End" Return) Return) as (Hrun & _ & _).
    + by apply (bool_decide_eq_true_1 (NoDup [0; 1; 2; 3])).
    + by apply (bool_decide_eq_true_1 (10 ∉ [20; 30])).
    + reflexivity.
    + reflexivity.
    + reflexivity.
    + reflexivity.
    + reflexivity.
    + repeat constructor; by eexists.
    + eexists _, _. split; [exact Hrun|]. repeat split; reflexivity.
  - apply (H3 Shared.earlier Shared.store0 (Shared.pool0 (EvSettle 0 Return)) 1 0
             Shared.P 0 Shared.event0 [resume_handler Shared.S']
             (Println "End" Return) Return).
    + by apply (bool_decide_eq_true_1 (NoDup [0; 1; 2; 3])).
    + by apply (bool_decide_eq_true_1 (10 ∉ [20; 30])).
    + reflexivity.
    + reflexivity.
    + reflexivity.
    + reflexivity.
    + reflexivity.
    + repeat constructor; by eexists.
  - apply (H4 Shared.later Shared.store0 (Shared.pool0 Return) 1 0 Shared.P 0 Return).
    + by apply (bool_decide_eq_true_1 (NoDup [0; 1; 4])).
    + by apply (bool_decide_eq_true_1 (10 ∉ [40])).
    + repeat constructor.
Defined.

(** ** Unwinding a forest of waiting processes *)

Lemma on_abort_app F F' : on_abort (f_app F F') = on_abort F ++ on_abort F'.
Proof.
  induction F as [|ss rest IH|t proc k ws _ rest IH]; cbn; [done|by rewrite IH..].
Qed.

Lemma parked_app launched σ T F F' :
  parked launched σ T (f_app F F') ↔ parked launched σ T F ∧ parked launched σ T F'.
Proof.
  induction F as [|ss rest IH|t proc k ws _ rest IH]; cbn; [tauto|done|].
  rewrite IH. tauto.
Qed.

Lemma parked_frame launched σ T σ' T' F :
  (∀ t, t ∈ f_tids F → T' !! t = T !! t) →
  (∀ e, e ∈ f_evs F → events σ' !! e = events σ !! e) →
  parked launched σ T F → parked launched σ' T' F.
Proof.
  induction F as [|ss rest IH|t proc k ws IHws rest IHrest]; cbn [parked f_tids f_evs];
    intros HT Hσ; [done|by apply IH|].
  intros (HP & Ht & (E & HE & Hst & Hhs) & Hws & Hrest).
  split; [done|]. split; [by rewrite HT by apply list_elem_of_here|].
  split; [exists E; by rewrite Hσ by apply list_elem_of_here|]. split.
  - apply IHws; [| |done].
    + intros t' Hin. apply HT, list_elem_of_further, elem_of_app. by left.
    + intros e' Hin. apply Hσ, list_elem_of_further, elem_of_app. by left.
  - apply IHrest; [| |done].
    + intros t' Hin. apply HT, list_elem_of_further, elem_of_app. by right.
    + intros e' Hin. apply Hσ, list_elem_of_further, elem_of_app. by right.
Qed.

Lemma abort_event_lookup e σ e' :
  events (abort_event e σ) !! e'
  = if decide (e' = e) then settle aborted <$> events σ !! e' else events σ !! e'.
Proof.
  unfold abort_event. destruct (decide (e' = e)) as [->|Hne].
  - destruct (events σ !! e) as [E|] eqn:HE; [|by rewrite HE].
    by rewrite set_event_lookup.
  - destruct (events σ !! e) as [E|]; [|done].
    by rewrite set_event_lookup_ne by done.
Qed.

Lemma settle_aborted_twice (o : option Event) :
  settle aborted <$> (settle aborted <$> o) = settle aborted <$> o.
Proof. by destruct o. Qed.

(** What unwinding does to the store: the completion occurrences of the
    forest are aborted, nothing else changes but the output. *)
Lemma unwound_store_lookup F : ∀ σ e',
  events (unwound_store σ F) !! e'
  = if decide (e' ∈ f_evs F) then settle aborted <$> events σ !! e'
    else events σ !! e'.
Proof.
  induction F as [|ss rest IH|t proc k ws IHws rest IHrest]; intros σ e';
    cbn [unwound_store f_evs].
  - rewrite decide_False; [done|apply not_elem_of_nil].
  - by rewrite IH.
  - rewrite IHrest, IHws, abort_event_lookup.
    destruct (decide (e' ∈ f_evs rest)) as [Hr|Hr],
             (decide (e' ∈ f_evs ws)) as [Hw|Hw],
             (decide (e' = ev proc)) as [He|He];
      rewrite ?settle_aborted_twice;
      first [rewrite decide_True; [done|]|rewrite decide_False; [done|]];
      rewrite ?not_elem_of_cons, ?not_elem_of_app, ?elem_of_cons, ?elem_of_app; tauto.
Qed.

Lemma unwound_store_lookup_ne F σ e' :
  e' ∉ f_evs F → events (unwound_store σ F) !! e' = events σ !! e'.
Proof. intros H. by rewrite unwound_store_lookup, decide_False. Qed.

Lemma unwound_store_aborted F σ e' E :
  e' ∈ f_evs F → events σ !! e' = Some E → is_aborted (unwound_store σ F) e'.
Proof.
  intros Hin HE. exists (settle aborted E).
  by rewrite unwound_store_lookup, decide_True, HE.
Qed.

Lemma abort_event_output e σ : output (abort_event e σ) = output σ.
Proof. unfold abort_event. by destruct (events σ !! e). Qed.

Lemma unwound_store_output F : ∀ σ, output (unwound_store σ F) = output σ ++ f_said F.
Proof.
  induction F as [|ss rest IH|t proc k ws IHws rest IHrest]; intros σ;
    cbn [unwound_store f_said].
  - by rewrite app_nil_r.
  - rewrite IH. cbn. by rewrite <- app_assoc.
  - rewrite IHrest, IHws, abort_event_output. by rewrite <- app_assoc.
Qed.

Lemma abort_event_shutdown e σ : shutdown (abort_event e σ) = shutdown σ.
Proof. unfold abort_event. by destruct (events σ !! e). Qed.

Lemma unwound_pool_lookup F : ∀ T i,
  unwound_pool T F !! i = if decide (i ∈ f_tids F) then Some Goexit else T !! i.
Proof.
  induction F as [|ss rest IH|t proc k ws IHws rest IHrest]; intros T i;
    cbn [unwound_pool f_tids].
  - rewrite decide_False; [done|apply not_elem_of_nil].
  - by rewrite IH.
  - rewrite IHrest, lookup_insert, IHws.
    destruct (decide (i ∈ f_tids rest)) as [Hr|Hr],
             (decide (i ∈ f_tids ws)) as [Hw|Hw],
             (decide (t = i)) as [He|He];
      first [rewrite decide_True; [done|]|rewrite decide_False; [done|]];
      rewrite ?not_elem_of_cons, ?not_elem_of_app, ?elem_of_cons, ?elem_of_app;
      intuition congruence.
Qed.

Lemma unwound_pool_lookup_ne F T i :
  i ∉ f_tids F → unwound_pool T F !! i = T !! i.
Proof. intros H. by rewrite unwound_pool_lookup, decide_False. Qed.

Lemma unwound_pool_ended F T i :
  i ∈ f_tids F → unwound_pool T F !! i = Some Goexit.
Proof. intros H. by rewrite unwound_pool_lookup, decide_True. Qed.

Lemma unwound_pool_insert F T x p :
  x ∉ f_tids F → unwound_pool (<[x := p]> T) F = <[x := p]> (unwound_pool T F).
Proof.
  intros Hx. apply map_eq. intros i.
  rewrite lookup_insert, !unwound_pool_lookup, lookup_insert.
  destruct (decide (x = i)) as [->|]; [by rewrite decide_False|done].
Qed.

Lemma sim_tokens_unwind c F : ∀ x,
  c ∉ f_chans F → sim_tokens c (unwind x F) = [].
Proof.
  induction F as [|ss rest IH|t proc k ws IHws rest IHrest]; intros x Hc;
    cbn [unwind f_chans] in *.
  - done.
  - rewrite sim_tokens_app, sim_tokens_taus. by apply IH.
  - apply not_elem_of_cons in Hc as [Hc Hc']. apply not_elem_of_app in Hc' as [Hw Hr].
    rewrite sim_tokens_cons_comm, decide_False by done.
    rewrite sim_tokens_cons_tau, sim_tokens_app, sim_tokens_cons_end.
    by rewrite IHws, IHrest.
Qed.

(** The on-abort handlers of a forest all return: every process of the
    forest is handed the abort token, aborts its completion occurrence,
    runs the handlers of its own waiters and ends, after which the
    goroutine that invoked its handler goes on. *)
Lemma unwind_returns launched F : ∀ σ T x e X,
  NoDup (x :: f_tids F) →
  NoDup (f_evs F) →
  parked launched σ T F →
  sim_run launched (mkState σ (<[x := fire (on_abort F) e X]> T)) (unwind x F)
  = Some (mkState (unwound_store σ F) (<[x := X]> (unwound_pool T F))).
Proof.
  induction F as [|ss rest IH|t proc k ws IHws rest IHrest]; intros σ T x e X Hts Hes HF.
  - done.
  - cbn [on_abort unwind unwound_store unwound_pool]. rewrite fire_cons.
    erewrite sim_run_app_Some by apply says_run.
    apply IH; [done|done|]. by apply (parked_frame launched σ T).
  - cbn [f_tids f_evs parked] in *.
    destruct HF as (HP & Ht & (E & HE & Hst & Hhs) & Hws & Hrest).
    apply NoDup_cons in Hts as [Hx Hts].
    apply not_elem_of_cons in Hx as [Hxt Hx]. apply not_elem_of_app in Hx as [Hxw Hxr].
    apply NoDup_cons_app in Hts as (Htw & Htr & Hndw & Hndr & Hwr).
    apply NoDup_cons_app in Hes as (Hew & Her & Hnew & Hner & Hewr).
    cbn [on_abort unwind unwound_store unwound_pool]. rewrite fire_cons.
    cbn [abort_handler seq].
    erewrite sim_run_cons_Some
      by (cbn [sim_step]; eapply do_comm;
          [exact Hxt|apply lookup_insert_eq
          |rewrite lookup_insert_ne by done; exact Ht
          |apply send_on_Send|apply recv_on_Select]).
    rewrite insert_insert_eq. cbn [negb].
    erewrite sim_run_cons_Some
      by (cbn [sim_step]; eapply do_tau;
          [apply lookup_insert_eq|eapply tstep_abort_pending; eassumption]).
    rewrite insert_insert_eq, Hhs. cbn [seq].
    erewrite sim_run_app_Some; cycle 1.
    { apply IHws; [by apply NoDup_cons|done|].
      eapply parked_frame; [| |exact Hws].
      - intros t' Hin. apply lookup_insert_ne. by intros <-.
      - intros e' Hin. apply set_event_lookup_ne. by intros <-. }
    erewrite sim_run_cons_Some; cycle 1.
    { eapply sim_end;
        [by apply not_eq_sym|exact HP|apply lookup_insert_eq|done| |apply recv_on_Recv].
      rewrite lookup_insert_ne by (by apply not_eq_sym).
      rewrite unwound_pool_lookup_ne by done. apply lookup_insert_eq. }
    replace (abort_event (ev proc) σ) with (set_event σ (ev proc) (settle aborted E))
      by (unfold abort_event; by rewrite HE).
    set (σ1 := unwound_store (set_event σ (ev proc) (settle aborted E)) ws).
    set (T1 := <[t := Goexit]> (unwound_pool T ws)).
    match goal with
    | |- sim_run _ (mkState _ ?T0) _ = _ =>
        replace T0 with (<[x := fire (on_abort rest) e X]> T1)
    end.
    + apply IHrest; [by apply NoDup_cons|done|].
      eapply parked_frame; [| |exact Hrest].
      * intros t' Hin. subst T1. rewrite lookup_insert_ne by (by intros <-).
        apply unwound_pool_lookup_ne. intros Hin'. by apply (Hwr t').
      * intros e' Hin. subst σ1. rewrite unwound_store_lookup_ne.
        -- apply set_event_lookup_ne. by intros <-.
        -- intros Hin'. by apply (Hewr e').
    + subst T1. rewrite unwound_pool_insert by done. pool_eq.
Qed.

Lemma f_tids_app F F' : f_tids (f_app F F') = f_tids F ++ f_tids F'.
Proof.
  induction F as [|ss rest IH|t proc k ws _ rest IH]; cbn; [done|done|].
  by rewrite IH, app_assoc.
Qed.

Lemma f_evs_app F F' : f_evs (f_app F F') = f_evs F ++ f_evs F'.
Proof.
  induction F as [|ss rest IH|t proc k ws _ rest IH]; cbn; [done|done|].
  by rewrite IH, app_assoc.
Qed.

Lemma f_said_app F F' : f_said (f_app F F') = f_said F ++ f_said F'.
Proof.
  induction F as [|ss rest IH|t proc k ws _ rest IH]; cbn; [done|..];
    by rewrite IH, app_assoc.
Qed.

Lemma unwind_app x F F' : unwind x (f_app F F') = unwind x F ++ unwind x F'.
Proof.
  induction F as [|ss rest IH|t proc k ws _ rest IH]; cbn; [done|..].
  - by rewrite IH, app_assoc.
  - rewrite IH. do 2 f_equal. by rewrite <- !app_assoc.
Qed.

Lemma parked_events launched σ T F e' :
  parked launched σ T F → e' ∈ f_evs F → is_pending σ e'.
Proof.
  induction F as [|ss rest IH|t proc k ws IHws rest IHrest]; cbn [parked f_evs].
  - by intros _ ?%elem_of_nil.
  - done.
  - intros (_ & _ & (E & HE & Hst & _) & Hws & Hrest) Hin.
    apply elem_of_cons in Hin as [->|Hin]; [by exists E|].
    apply elem_of_app in Hin as [Hin|Hin]; auto.
Qed.

Lemma unwound_all_aborted launched σ T F σ0 :
  parked launched σ T F →
  (∀ e', e' ∈ f_evs F → events σ0 !! e' = events σ !! e') →
  Forall (is_aborted (unwound_store σ0 F)) (f_evs F).
Proof.
  intros HF Hσ. apply Forall_forall. intros e' Hin.
  destruct (parked_events _ _ _ _ _ HF Hin) as (E & HE & _).
  eapply unwound_store_aborted; [done|]. by rewrite Hσ.
Qed.

Lemma unwound_all_ended T F :
  Forall (fun t => unwound_pool T F !! t = Some Goexit) (f_tids F).
Proof. apply Forall_forall. intros t Hin. by apply unwound_pool_ended. Qed.

(** Goroutine [d] aborts a pending occurrence on which a forest hangs:
    the forest is unwound. *)
Lemma abort_unwinds launched σ T d e E F hs2 kd :
  NoDup (d :: f_tids F) →
  NoDup (e :: f_evs F) →
  T !! d = Some (EvAbort e kd) →
  events σ !! e = Some E →
  state E = pending →
  abortHandlers E = on_abort F ++ hs2 →
  parked launched σ T F →
  sim_run launched (mkState σ T) (LStep (LTau d) :: unwind d F)
  = Some (mkState (unwound_store (set_event σ e (settle aborted E)) F)
            (<[d := fire hs2 e kd]> (unwound_pool T F))).
Proof.
  intros Hts Hes Hd HE Hst Hhs HF.
  apply NoDup_cons in Hes as [He Hes].
  erewrite sim_run_cons_Some
    by (cbn [sim_step]; eapply do_tau;
        [exact Hd|eapply tstep_abort_pending; eassumption]).
  rewrite Hhs, fire_app. apply unwind_returns; [done|done|].
  eapply parked_frame; [done| |exact HF].
  intros e' Hin. apply set_event_lookup_ne. by intros <-.
Qed.

(** A process that calls [Wait] on a pending awaitable joins the forest
    on it, as the last one there, together with the forest on its own
    completion occurrence. *)
Lemma Wait_joins launched σ T t d proc a E Ep F Fown k pd kd :
  NoDup (d :: f_tids (f_app F (f_waiter t proc k Fown f_nil))) →
  target a ∉ f_evs (f_app F (f_waiter t proc k Fown f_nil)) →
  launched !! t = Some proc →
  events σ !! target a = Some E →
  state E = pending →
  abortHandlers E = on_abort F →
  events σ !! ev proc = Some Ep →
  state Ep = pending →
  abortHandlers Ep = on_abort Fown →
  parked launched σ T F →
  parked launched σ T Fown →
  T !! d = Some pd →
  recv_on (sync proc) pd = Some kd →
  run (mkState σ (<[t := seq (Wait proc a) k]> T))
      [LTau t; LTau t; LTau t; LTau t; LComm t d (sync proc) true]
  = Some (mkState (register proc (target a) σ)
            (<[d := kd true]> (<[t := seq (Wait_parked proc) k]> T)))
  ∧ (∃ E', events (register proc (target a) σ) !! target a = Some E'
           ∧ state E' = pending
           ∧ handlers E' = handlers E ++ [resume_handler proc]
           ∧ abortHandlers E'
             = on_abort (f_app F (f_waiter t proc k Fown f_nil)))
  ∧ parked launched (register proc (target a) σ)
      (<[d := kd true]> (<[t := seq (Wait_parked proc) k]> T))
      (f_app F (f_waiter t proc k Fown f_nil)).
Proof.
  intros Hts He_notin HP HE Hst Hhs HEp Hstp Hhsp HF HFown Hd Hkd.
  apply NoDup_cons in Hts as [Hd_notin Hts].
  rewrite f_tids_app in Hd_notin, Hts. rewrite f_evs_app in He_notin.
  cbn [f_tids f_evs] in Hd_notin, Hts, He_notin.
  apply not_elem_of_app in Hd_notin as [Hd1 Hd2].
  apply not_elem_of_cons in Hd2 as [Hdt Hd2]. apply not_elem_of_app in Hd2 as [Hd2 _].
  apply not_elem_of_app in He_notin as [He1 He2].
  apply not_elem_of_cons in He2 as [Hae He2]. apply not_elem_of_app in He2 as [He2 _].
  apply NoDup_app in Hts as (_ & Ht1 & Hts).
  apply NoDup_cons in Hts as [Ht2 _]. apply not_elem_of_app in Ht2 as [Ht2 _].
  rewrite (register_lookup proc (target a) σ E HE Hst).
  split; [|split].
  - rewrite Wait_eq. eapply Wait_pending_parks; [by apply not_eq_sym|done..].
  - eexists. split; [apply set_event_lookup|]. split; [done|]. split; [done|].
    cbn [abortHandlers]. rewrite Hhs, on_abort_app. done.
  - apply parked_app. split; [|cbn [parked]; repeat split].
    + eapply parked_frame; [| |exact HF].
      * intros t' Hin. rewrite !lookup_insert_ne; [done| |by intros <-].
        intros <-. apply (Ht1 t Hin), list_elem_of_here.
      * intros e' Hin. apply set_event_lookup_ne. by intros <-.
    + done.
    + rewrite lookup_insert_ne by done. apply lookup_insert_eq.
    + exists Ep. split; [|done]. by rewrite set_event_lookup_ne.
    + eapply parked_frame; [| |exact HFown].
      * intros t' Hin. rewrite !lookup_insert_ne; [done| |by intros <-].
        by intros <-.
      * intros e' Hin. apply set_event_lookup_ne. by intros <-.
Qed.

(** ** Abort while parked *)

Lemma unwound_store_app F F' : ∀ σ,
  unwound_store σ (f_app F F') = unwound_store (unwound_store σ F) F'.
Proof.
  induction F as [|ss rest IH|t proc k ws _ rest IH]; intros σ; cbn; [done|..];
    by rewrite IH.
Qed.

(** The code after the call of [Wait] of a process that is unwound is
    in no part of the result. *)
Lemma unwound_store_cont σ F1 t proc k k' F2 :
  unwound_store σ (f_app F1 (f_waiter t proc k F2 f_nil))
  = unwound_store σ (f_app F1 (f_waiter t proc k' F2 f_nil)).
Proof. by rewrite !unwound_store_app. Qed.

Lemma unwound_pool_cont T d t proc k k' p p' Y X F1 F2 :
  <[d := X]> (unwound_pool (<[d := Y]> (<[t := p]> T))
                (f_app F1 (f_waiter t proc k F2 f_nil)))
  = <[d := X]> (unwound_pool (<[d := Y]> (<[t := p']> T))
                  (f_app F1 (f_waiter t proc k' F2 f_nil))).
Proof.
  apply map_eq. intros i.
  rewrite !lookup_insert, !unwound_pool_lookup, !f_tids_app. cbn [f_tids].
  destruct (decide (d = i)); [done|].
  destruct (decide (i ∈ f_tids F1 ++ t :: f_tids F2 ++ [])) as [|Hi]; [done|].
  rewrite !lookup_insert. destruct (decide (d = i)); [done|].
  destruct (decide (t = i)) as [->|]; [|done].
  exfalso. apply Hi, elem_of_app. right. apply list_elem_of_here.
Qed.

(** Goroutine [d] aborts the occurrence on which a process is parked,
    after the forest [F1] and before the handlers [hs2]: the state at
    which the process has ended and [d] has control back. *)
Lemma abort_token_run launched σ T t d proc e E F1 F2 hs2 k kd :
  NoDup (d :: f_tids (f_app F1 (f_waiter t proc k F2 f_nil))) →
  NoDup (e :: f_evs (f_app F1 (f_waiter t proc k F2 f_nil))) →
  T !! d = Some (EvAbort e kd) →
  events σ !! e = Some E →
  state E = pending →
  abortHandlers E = on_abort (f_app F1 (f_waiter t proc k F2 f_nil)) ++ hs2 →
  parked launched σ T (f_app F1 (f_waiter t proc k F2 f_nil)) →
  sim_run launched (mkState σ T)
    (LStep (LTau d) :: unwind d F1
     ++ LStep (LComm d t (sync proc) false) :: LStep (LTau t)
        :: unwind t F2 ++ [LEnd t d false])
  = Some (mkState
            (unwound_store (set_event σ e (settle aborted E))
               (f_app F1 (f_waiter t proc k F2 f_nil)))
            (<[d := fire hs2 e kd]>
               (unwound_pool T (f_app F1 (f_waiter t proc k F2 f_nil))))).
Proof.
  intros Hts Hes Hd HE Hst Hhs HF.
  rewrite <- (abort_unwinds launched σ T d e E _ hs2 kd Hts Hes Hd HE Hst Hhs HF).
  by rewrite unwind_app.
Qed.

(** What holds of that state. *)
Lemma abort_token_state launched σ T t d proc e E F1 F2 hs2 k kd σ' T' :
  NoDup (d :: f_tids (f_app F1 (f_waiter t proc k F2 f_nil))) →
  NoDup (e :: f_evs (f_app F1 (f_waiter t proc k F2 f_nil))) →
  events σ !! e = Some E →
  parked launched σ T (f_app F1 (f_waiter t proc k F2 f_nil)) →
  σ' = unwound_store (set_event σ e (settle aborted E))
         (f_app F1 (f_waiter t proc k F2 f_nil)) →
  T' = <[d := fire hs2 e kd]>
         (unwound_pool T (f_app F1 (f_waiter t proc k F2 f_nil))) →
  T' !! t = Some Goexit
  ∧ T' !! d = Some (fire hs2 e kd)
  ∧ is_aborted σ' e
  ∧ is_aborted σ' (ev proc)
  ∧ (∀ kb, tstep σ' (Aborted proc kb) = Some (σ', kb true)
           ∧ tstep σ' (Processed proc kb) = Some (σ', kb false))
  ∧ Forall (is_aborted σ') (f_evs (f_app F1 (f_waiter t proc k F2 f_nil)))
  ∧ Forall (fun t' => T' !! t' = Some Goexit)
      (f_tids (f_app F1 (f_waiter t proc k F2 f_nil)))
  ∧ output σ' = output σ ++ f_said F1 ++ f_said F2.
Proof.
  set (F := f_app F1 (f_waiter t proc k F2 f_nil)).
  intros Hts Hes HE HF -> ->.
  assert (Htin : t ∈ f_tids F).
  { subst F. rewrite f_tids_app. apply elem_of_app. right. apply list_elem_of_here. }
  assert (Hein : ev proc ∈ f_evs F).
  { subst F. rewrite f_evs_app. apply elem_of_app. right. apply list_elem_of_here. }
  pose proof Hts as [Hd_notin _]%NoDup_cons.
  pose proof Hes as [He_notin _]%NoDup_cons.
  assert (Hall : Forall (is_aborted (unwound_store (set_event σ e (settle aborted E)) F))
                   (f_evs F)).
  { eapply unwound_all_aborted; [exact HF|].
    intros e' Hin. apply set_event_lookup_ne. by intros <-. }
  pose proof (proj1 (Forall_forall _ _) Hall _ Hein) as Hab.
  split.
  { rewrite lookup_insert_ne by (by intros ->). by apply unwound_pool_ended. }
  split; [apply lookup_insert_eq|].
  split.
  { exists (settle aborted E). split; [|done].
    rewrite unwound_store_lookup_ne by done. apply set_event_lookup. }
  split; [exact Hab|].
  split.
  { intros kb. destruct Hab as (Ep' & HEp' & Hst'). by eapply reports_aborted. }
  split; [exact Hall|].
  split.
  { apply Forall_forall. intros t' Hin.
    rewrite lookup_insert_ne by (by intros ->). by apply unwound_pool_ended. }
  rewrite unwound_store_output. subst F. rewrite f_said_app. cbn.
  by rewrite !app_nil_r.
Qed.

Lemma abort_token_tokens d t proc F1 F2 :
  sync proc ∉ f_chans F1 ++ f_chans F2 →
  sim_tokens (sync proc)
    (LStep (LTau d) :: unwind d F1
     ++ LStep (LComm d t (sync proc) false) :: LStep (LTau t)
        :: unwind t F2 ++ [LEnd t d false])
  = [false].
Proof.
  intros [Hc1 Hc2]%not_elem_of_app.
  rewrite sim_tokens_cons_tau, sim_tokens_app, sim_tokens_unwind by done.
  rewrite sim_tokens_cons_comm, decide_True by done.
  rewrite sim_tokens_cons_tau, sim_tokens_app, sim_tokens_unwind by done.
  done.
Qed.

(** The schedule of a process that calls [Wait] on a pending awaitable
    which the goroutine that takes its token then aborts. *)
Lemma Wait_then_abort_run launched σ T t d proc a E Ep F1 F2 k kd :
  NoDup (d :: f_tids (f_app F1 (f_waiter t proc k F2 f_nil))) →
  NoDup (target a :: f_evs (f_app F1 (f_waiter t proc k F2 f_nil))) →
  launched !! t = Some proc →
  T !! d = Some (Recv (sync proc) (fun _ => EvAbort (target a) kd)) →
  events σ !! target a = Some E →
  state E = pending →
  abortHandlers E = on_abort F1 →
  events σ !! ev proc = Some Ep →
  state Ep = pending →
  abortHandlers Ep = on_abort F2 →
  parked launched σ T F1 →
  parked launched σ T F2 →
  ∃ E1,
    events (register proc (target a) σ) !! target a = Some E1
    ∧ parked launched (register proc (target a) σ)
        (<[d := EvAbort (target a) kd]> (<[t := seq (Wait_parked proc) k]> T))
        (f_app F1 (f_waiter t proc k F2 f_nil))
    ∧ sim_run launched (mkState σ (<[t := seq (Wait proc a) k]> T))
        ((LStep <$> [LTau t; LTau t; LTau t; LTau t;
                     LComm t d (sync proc) true; LTau d])
         ++ unwind d F1
         ++ LStep (LComm d t (sync proc) false) :: LStep (LTau t)
            :: unwind t F2 ++ [LEnd t d false])
      = Some (mkState
                (unwound_store
                   (set_event (register proc (target a) σ) (target a)
                      (settle aborted
                         (mkEvent pending (handlers E ++ [resume_handler proc])
                            (abortHandlers E ++ [abort_handler proc]))))
                   (f_app F1 (f_waiter t proc k F2 f_nil)))
                (<[d := kd]>
                   (unwound_pool
                      (<[d := EvAbort (target a) kd]>
                         (<[t := seq (Wait_parked proc) k]> T))
                      (f_app F1 (f_waiter t proc k F2 f_nil))))).
Proof.
  intros Hts Hes HP Hd HE Hst Hhs HEp Hstp Hhsp HF1 HF2.
  pose proof Hes as [He_notin _]%NoDup_cons.
  destruct (Wait_joins launched σ T t d proc a E Ep F1 F2 k _
              (fun _ => EvAbort (target a) kd) Hts He_notin HP HE Hst Hhs HEp Hstp Hhsp
              HF1 HF2 Hd (recv_on_Recv _ _))
    as (Hpark & (E1 & HE1 & Hst1 & Hhs1 & Hhs1') & HF).
  exists E1. split; [exact HE1|]. split; [exact HF|].
  change (LStep <$> [LTau t; LTau t; LTau t; LTau t; LComm t d (sync proc) true; LTau d])
    with ((LStep <$> [LTau t; LTau t; LTau t; LTau t; LComm t d (sync proc) true])
          ++ [LStep (LTau d)]).
  rewrite <- app_assoc.
  erewrite sim_run_app_Some by (rewrite sim_run_steps; exact Hpark).
  cbn [app].
  rewrite (abort_token_run launched _ _ t d proc (target a) E1 F1 F2 [] k kd);
    [|done|done|apply lookup_insert_eq|exact HE1|done|by rewrite app_nil_r|exact HF].
  do 3 f_equal.
  rewrite (register_lookup proc (target a) σ E HE Hst) in HE1.
  rewrite set_event_lookup in HE1. by simplify_eq.
Qed.

(** C3. (1) A process calls [Wait] on a pending awaitable on which a
    forest [F1] of callbacks and other waiting processes already stands,
    while a forest [F2] stands on its own completion occurrence; the
    goroutine that takes its token aborts the awaitable.  The schedule
    is: the call of [Wait] up to the [select]; the abort; the forest [F1]
    unwinds; the process is handed the token [false] and aborts its
    completion occurrence; the forest [F2] unwinds; the process ends and
    the aborting goroutine goes on.  At the end the process's goroutine
    has ended by [Goexit] without [Wait] having returned, its completion
    occurrence is aborted and reports aborted and not processed, the
    tokens on its channel were [true] (its yield) and [false], and
    nothing was printed but what the callbacks of the two forests print.
    The code [k] after the call of [Wait] has no part in this: with any
    other code [k'] in its place the same schedule leads to the same
    state.
    (2) The same from the parked state, when further handlers [hs2] were
    registered on the awaitable after the process's own: they are what
    the aborting goroutine goes on with. *)
Theorem Wait_abort_token_aborts_process launched :
  (∀ σ T t d proc a E Ep F1 F2 k kd,
     let F := f_app F1 (f_waiter t proc k F2 f_nil) in
     NoDup (d :: f_tids F) →
     NoDup (target a :: f_evs F) →
     sync proc ∉ f_chans F1 ++ f_chans F2 →
     launched !! t = Some proc →
     T !! d = Some (Recv (sync proc) (fun _ => EvAbort (target a) kd)) →
     events σ !! target a = Some E →
     state E = pending →
     abortHandlers E = on_abort F1 →
     events σ !! ev proc = Some Ep →
     state Ep = pending →
     abortHandlers Ep = on_abort F2 →
     parked launched σ T F1 →
     parked launched σ T F2 →
     let ls := (LStep <$> [LTau t; LTau t; LTau t; LTau t;
                           LComm t d (sync proc) true; LTau d])
               ++ unwind d F1
               ++ LStep (LComm d t (sync proc) false) :: LStep (LTau t)
                  :: unwind t F2 ++ [LEnd t d false] in
     ∃ σ' T',
       sim_run launched (mkState σ (<[t := seq (Wait proc a) k]> T)) ls
       = Some (mkState σ' T')
       ∧ T' !! t = Some Goexit
       ∧ T' !! d = Some kd
       ∧ is_aborted σ' (target a)
       ∧ is_aborted σ' (ev proc)
       ∧ (∀ kb, tstep σ' (Aborted proc kb) = Some (σ', kb true)
                ∧ tstep σ' (Processed proc kb) = Some (σ', kb false))
       ∧ Forall (is_aborted σ') (f_evs F)
       ∧ Forall (fun t' => T' !! t' = Some Goexit) (f_tids F)
       ∧ sim_tokens (sync proc) ls = [true; false]
       ∧ output σ' = output σ ++ f_said F1 ++ f_said F2
       ∧ ∀ k', sim_run launched (mkState σ (<[t := seq (Wait proc a) k']> T)) ls
               = Some (mkState σ' T'))
  ∧ (∀ σ T t d proc e E F1 F2 hs2 k kd,
     let F := f_app F1 (f_waiter t proc k F2 f_nil) in
     NoDup (d :: f_tids F) →
     NoDup (e :: f_evs F) →
     sync proc ∉ f_chans F1 ++ f_chans F2 →
     T !! d = Some (EvAbort e kd) →
     events σ !! e = Some E →
     state E = pending →
     abortHandlers E = on_abort F ++ hs2 →
     parked launched σ T F →
     let ls := LStep (LTau d) :: unwind d F1
               ++ LStep (LComm d t (sync proc) false) :: LStep (LTau t)
                  :: unwind t F2 ++ [LEnd t d false] in
     ∃ σ' T',
       sim_run launched (mkState σ T) ls = Some (mkState σ' T')
       ∧ T' !! t = Some Goexit
       ∧ T' !! d = Some (fire hs2 e kd)
       ∧ is_aborted σ' e
       ∧ is_aborted σ' (ev proc)
       ∧ (∀ kb, tstep σ' (Aborted proc kb) = Some (σ', kb true)
                ∧ tstep σ' (Processed proc kb) = Some (σ', kb false))
       ∧ Forall (is_aborted σ') (f_evs F)
       ∧ Forall (fun t' => T' !! t' = Some Goexit) (f_tids F)
       ∧ sim_tokens (sync proc) ls = [false]
       ∧ output σ' = output σ ++ f_said F1 ++ f_said F2).
Proof.
  split.
  - intros σ T t d proc a E Ep F1 F2 k kd F Hts Hes Hc HP Hd HE Hst Hhs HEp Hstp Hhsp
      HF1 HF2 ls.
    destruct (Wait_then_abort_run launched σ T t d proc a E Ep F1 F2 k kd)
      as (E1 & HE1 & HF & Hrun); try done.
    eexists _, _. split; [exact Hrun|].
    destruct (abort_token_state launched (register proc (target a) σ)
                (<[d := EvAbort (target a) kd]> (<[t := seq (Wait_parked proc) k]> T))
                t d proc (target a) E1 F1 F2 [] k kd _ _ Hts Hes HE1 HF eq_refl eq_refl)
      as (Ht & Hd' & Hae & Hpe & Hrep & Hall & Hend & Hout).
    assert (HE1' : E1 = mkEvent pending (handlers E ++ [resume_handler proc])
                          (abortHandlers E ++ [abort_handler proc])).
    { rewrite (register_lookup proc (target a) σ E HE Hst), set_event_lookup in HE1.
      by simplify_eq. }
    rewrite HE1' in *.
    split; [exact Ht|]. split; [exact Hd'|]. split; [exact Hae|]. split; [exact Hpe|].
    split; [exact Hrep|]. split; [exact Hall|]. split; [exact Hend|].
    split; [|split].
    + subst ls.
      change (LStep <$> [LTau t; LTau t; LTau t; LTau t; LComm t d (sync proc) true; LTau d])
        with ((LStep <$> [LTau t; LTau t; LTau t; LTau t; LComm t d (sync proc) true])
              ++ [LStep (LTau d)]).
      rewrite <- app_assoc, sim_tokens_app, sim_tokens_steps. cbn [app].
      rewrite abort_token_tokens by done. cbn. by rewrite decide_True.
    + rewrite Hout. f_equal. unfold register. by destruct (events σ !! target a).
    + intros k'.
      destruct (Wait_then_abort_run launched σ T t d proc a E Ep F1 F2 k' kd)
        as (_ & _ & _ & Hrun'); try done.
      { unfold F in Hts. rewrite f_tids_app in Hts |- *. exact Hts. }
      { unfold F in Hes. rewrite f_evs_app in Hes |- *. exact Hes. }
      subst ls. rewrite Hrun'. do 2 f_equal.
      * apply unwound_store_cont.
      * apply unwound_pool_cont.
  - intros σ T t d proc e E F1 F2 hs2 k kd F Hts Hes Hc Hd HE Hst Hhs HF ls.
    eexists _, _. split; [by apply abort_token_run|].
    destruct (abort_token_state launched σ T t d proc e E F1 F2 hs2 k kd _ _
                Hts Hes HE HF eq_refl eq_refl)
      as (Ht & Hd' & Hae & Hpe & Hrep & Hall & Hend & Hout).
    repeat (split; [done|]). split; [|done]. by apply abort_token_tokens.
Qed.

Lemma Wait_abort_token_aborts_process_witness :
  (∃ σ' T',
     sim_run Tree.launched
       (mkState Tree.store_before
          (<[3 := seq (Wait Tree.P3 (AwEvent 0)) (Println "P3 after Wait" Return)]>
             Tree.pool_before))
       ((LStep <$> [LTau 3; LTau 3; LTau 3; LTau 3; LComm 3 0 30 true; LTau 0])
        ++ unwind 0 Tree.before
        ++ LStep (LComm 0 3 30 false) :: LStep (LTau 3)
           :: unwind 3 Tree.on_P3 ++ [LEnd 3 0 false])
     = Some (mkState σ' T')
     ∧ T' !! 3 = Some Goexit
     ∧ T' !! 0 = Some (Println "aborted" Return)
     ∧ is_aborted σ' 3
     ∧ output σ' = ["cleanup"; "P3 aborted"]
     ∧ sim_run Tree.launched
         (mkState Tree.store_before
            (<[3 := seq (Wait Tree.P3 (AwEvent 0)) Return]> Tree.pool_before))
         ((LStep <$> [LTau 3; LTau 3; LTau 3; LTau 3; LComm 3 0 30 true; LTau 0])
          ++ unwind 0 Tree.before
          ++ LStep (LComm 0 3 30 false) :: LStep (LTau 3)
             :: unwind 3 Tree.on_P3 ++ [LEnd 3 0 false])
       = Some (mkState σ' T'))
  ∧ sim_run Tree.launched (mkState Tree.store_before Tree.pool_before)
      ((LStep <$> [LTau 3; LTau 3; LTau 3; LTau 3; LComm 3 0 30 true; LTau 0])
       ++ unwind 0 Tree.before
       ++ LStep (LComm 0 3 30 false) :: LStep (LTau 3)
          :: unwind 3 Tree.on_P3 ++ [LEnd 3 0 false])
    = Some (mkState Tree.store_after (Tree.pool_after (Println "aborted" Return)))
  ∧ ∃ σ' T',
      sim_run Tree.launched (mkState Tree.store0 Tree.pool0)
        (LStep (LTau 0) :: unwind 0 Tree.before
         ++ LStep (LComm 0 3 30 false) :: LStep (LTau 3)
            :: unwind 3 Tree.on_P3 ++ [LEnd 3 0 false])
      = Some (mkState σ' T')
      ∧ T' !! 3 = Some Goexit
      ∧ is_aborted σ' 3.
Proof.
  destruct (Wait_abort_token_aborts_process Tree.launched) as [H1 H2].
  split; [|split; [reflexivity|]].
  - destruct (H1 Tree.store_before Tree.pool_before 3 0 Tree.P3 (AwEvent 0)
                (mkEvent pending [resume_handler Tree.Q] (on_abort Tree.before))
                (mkEvent pending [resume_handler Tree.P2; resume_handler Tree.R]
                   (on_abort Tree.on_P3))
                Tree.before Tree.on_P3 (Println "P3 after Wait" Return)
                (Println "aborted" Return))
      as (σ' & T' & Hrun & Ht & Hd & _ & Hab & _ & _ & _ & _ & Hout & Hk).
    + by apply (bool_decide_eq_true_1 (NoDup [0; 4; 3; 2; 1; 5])).
    + by apply (bool_decide_eq_true_1 (NoDup [0; 4; 3; 2; 1; 5])).
    + by apply (bool_decide_eq_true_1 (30 ∉ [40; 20; 10; 50])).
    + reflexivity.
    + reflexivity.
    + reflexivity.
    + reflexivity.
    + reflexivity.
    + reflexivity.
    + reflexivity.
    + reflexivity.
    + cbn [Tree.before parked]. repeat split; try reflexivity.
      eexists; repeat split; reflexivity.
    + cbn [Tree.on_P3 parked]. repeat split; try reflexivity;
        eexists; repeat split; reflexivity.
    + exists σ', T'. split; [exact Hrun|]. split; [exact Ht|]. split; [exact Hd|].
      split; [exact Hab|]. split; [exact Hout|exact (Hk Return)].
  - destruct (H2 Tree.store0 Tree.pool0 3 0 Tree.P3 0
                (mkEvent pending [resume_handler Tree.Q; resume_handler Tree.P3]
                   (on_abort Tree.all))
                Tree.before Tree.on_P3 [] (Println "P3 after Wait" Return)
                (Println "aborted" Return))
      as (σ' & T' & Hrun & Ht & _ & _ & Hab & _).
    + by apply (bool_decide_eq_true_1 (NoDup [0; 4; 3; 2; 1; 5])).
    + by apply (bool_decide_eq_true_1 (NoDup [0; 4; 3; 2; 1; 5])).
    + by apply (bool_decide_eq_true_1 (30 ∉ [40; 20; 10; 50])).
    + reflexivity.
    + reflexivity.
    + reflexivity.
    + reflexivity.
    + cbn [Tree.all Tree.before Tree.on_P3 f_app parked].
      repeat split; try reflexivity; eexists; repeat split; reflexivity.
    + exists σ', T'. split; [exact Hrun|]. split; [exact Ht|exact Hab].
Defined.

(** ** Cascading abort *)

(** C5. (1) How a process comes to wait: by calling [Wait] on a pending
    awaitable it joins the forest [F] that stands on the awaitable, as
    the last one there, and brings along the forest [Fown] that stands
    on its own completion occurrence.  Waiting on a process is waiting on
    that process's completion occurrence, so this is how chains grow.
    (2) Goroutine [d] aborts a pending occurrence [e] on which a forest
    of waiting processes and callbacks hangs, of any shape and any depth:
    processes wait on [e], other processes wait on their completion
    occurrences, and so on, with any number of processes and callbacks on
    each occurrence.  Unwinding the forest, in which each process
    receives the abort token from the goroutine that aborted what it
    waits on, aborts its own completion occurrence and ends, leaves [e]
    and the completion occurrence of every process of the forest
    aborted, and every process ended; [d] goes on after the abort.
    (3) The same when a process with a forest on its completion
    occurrence aborts because it calls [Wait] on an awaitable that is
    already aborted. *)
Theorem abort_cascades launched :
  (∀ σ T t d proc a E Ep F Fown k pd kd,
     NoDup (d :: f_tids (f_app F (f_waiter t proc k Fown f_nil))) →
     target a ∉ f_evs (f_app F (f_waiter t proc k Fown f_nil)) →
     launched !! t = Some proc →
     events σ !! target a = Some E →
     state E = pending →
     abortHandlers E = on_abort F →
     events σ !! ev proc = Some Ep →
     state Ep = pending →
     abortHandlers Ep = on_abort Fown →
     parked launched σ T F →
     parked launched σ T Fown →
     T !! d = Some pd →
     recv_on (sync proc) pd = Some kd →
     ∃ σ' T',
       run (mkState σ (<[t := seq (Wait proc a) k]> T))
           [LTau t; LTau t; LTau t; LTau t; LComm t d (sync proc) true]
       = Some (mkState σ' T')
       ∧ T' !! d = Some (kd true)
       ∧ (∃ E', events σ' !! target a = Some E' ∧ state E' = pending
                ∧ abortHandlers E'
                  = on_abort (f_app F (f_waiter t proc k Fown f_nil)))
       ∧ parked launched σ' T' (f_app F (f_waiter t proc k Fown f_nil)))
  ∧ (∀ σ T d e E F hs2 kd,
     NoDup (d :: f_tids F) →
     NoDup (e :: f_evs F) →
     T !! d = Some (EvAbort e kd) →
     events σ !! e = Some E →
     state E = pending →
     abortHandlers E = on_abort F ++ hs2 →
     parked launched σ T F →
     ∃ σ' T',
       sim_run launched (mkState σ T) (LStep (LTau d) :: unwind d F)
       = Some (mkState σ' T')
       ∧ T' !! d = Some (fire hs2 e kd)
       ∧ is_aborted σ' e
       ∧ Forall (is_aborted σ') (f_evs F)
       ∧ Forall (fun t => T' !! t = Some Goexit) (f_tids F)
       ∧ output σ' = output σ ++ f_said F)
  ∧ (∀ σ T t proc a E Ep Fown k,
     NoDup (t :: f_tids Fown) →
     NoDup (ev proc :: f_evs Fown) →
     events σ !! target a = Some E →
     state E = aborted →
     events σ !! ev proc = Some Ep →
     state Ep = pending →
     abortHandlers Ep = on_abort Fown →
     parked launched σ T Fown →
     ∃ σ' T',
       sim_run launched (mkState σ (<[t := seq (Wait proc a) k]> T))
         ((LStep <$> [LTau t; LTau t; LTau t]) ++ unwind t Fown)
       = Some (mkState σ' T')
       ∧ T' !! t = Some Goexit
       ∧ is_aborted σ' (ev proc)
       ∧ Forall (is_aborted σ') (f_evs Fown)
       ∧ Forall (fun t' => T' !! t' = Some Goexit) (f_tids Fown)
       ∧ output σ' = output σ ++ f_said Fown).
Proof.
  split; [|split].
  - intros σ T t d proc a E Ep F Fown k pd kd Hts He HP HE Hst Hhs HEp Hstp Hhsp
      HF HFown Hd Hkd.
    destruct (Wait_joins launched σ T t d proc a E Ep F Fown k pd kd)
      as (Hrun & (E' & HE' & Hst' & _ & Hhs') & HF'); try done.
    eexists _, _. split; [exact Hrun|]. split; [apply lookup_insert_eq|].
    split; [by exists E'|done].
  - intros σ T d e E F hs2 kd Hts Hes Hd HE Hst Hhs HF.
    pose proof Hts as [Hd_notin _]%NoDup_cons.
    pose proof Hes as [He_notin _]%NoDup_cons.
    eexists _, _. split; [by eapply abort_unwinds|].
    split; [apply lookup_insert_eq|]. split; [|split; [|split]].
    + exists (settle aborted E). split; [|done].
      rewrite unwound_store_lookup_ne by done. apply set_event_lookup.
    + eapply unwound_all_aborted; [exact HF|].
      intros e' Hin. apply set_event_lookup_ne. by intros <-.
    + apply Forall_forall. intros t' Hin.
      rewrite lookup_insert_ne by (by intros ->). by apply unwound_pool_ended.
    + by rewrite unwound_store_output.
  - intros σ T t proc a E Ep Fown k Hts Hes HE Hst HEp Hstp Hhsp HF.
    pose proof Hts as [Ht_notin _]%NoDup_cons.
    pose proof Hes as [He_notin Hes']%NoDup_cons.
    assert (Hrun : run (mkState σ (<[t := seq (Wait proc a) k]> T))
                     [LTau t; LTau t; LTau t]
                   = Some (mkState (set_event σ (ev proc) (settle aborted Ep))
                             (<[t := fire (on_abort Fown) (ev proc) Goexit]> T))).
    { rewrite Wait_eq.
      run_tau ltac:(by apply Wait_on_step).
      rewrite Hst; cbn [bool_decide decide_rel].
      run_tau ltac:(by apply Wait_unprocessed_step).
      rewrite Hst; cbn [bool_decide decide_rel].
      run_tau ltac:(by apply Wait_abort_step).
      by rewrite Hhsp. }
    eexists _, _. split.
    { erewrite sim_run_app_Some by (rewrite sim_run_steps; exact Hrun).
      apply unwind_returns; [done|done|].
      eapply parked_frame; [done| |exact HF].
      intros e' Hin. apply set_event_lookup_ne. by intros <-. }
    split; [apply lookup_insert_eq|]. split; [|split; [|split]].
    + exists (settle aborted Ep). split; [|done].
      rewrite unwound_store_lookup_ne by done. apply set_event_lookup.
    + eapply unwound_all_aborted; [exact HF|].
      intros e' Hin. apply set_event_lookup_ne. by intros <-.
    + apply Forall_forall. intros t' Hin.
      rewrite lookup_insert_ne by (by intros ->). by apply unwound_pool_ended.
    + by rewrite unwound_store_output.
Qed.

Lemma abort_cascades_witness :
  f_depth Tree.all = 3
  ∧ (∃ σ' T',
       run (mkState Tree.store_before
              (<[3 := seq (Wait Tree.P3 (AwEvent 0)) (Println "P3 after Wait" Return)]>
                 Tree.pool_before))
           [LTau 3; LTau 3; LTau 3; LTau 3; LComm 3 0 30 true]
       = Some (mkState σ' T')
       ∧ parked Tree.launched σ' T' Tree.all)
  ∧ run (mkState Tree.store_before Tree.pool_before)
        [LTau 3; LTau 3; LTau 3; LTau 3; LComm 3 0 30 true]
    = Some (mkState Tree.store0 Tree.pool0)
  ∧ (∃ σ' T',
       sim_run Tree.launched (mkState Tree.store0 Tree.pool0)
         (LStep (LTau 0) :: unwind 0 Tree.all)
       = Some (mkState σ' T')
       ∧ is_aborted σ' 0
       ∧ Forall (is_aborted σ') [4; 3; 2; 1; 5]
       ∧ Forall (fun t => T' !! t = Some Goexit) [4; 3; 2; 1; 5])
  ∧ sim_run Tree.launched (mkState Tree.store0 Tree.pool0)
      (LStep (LTau 0) :: unwind 0 Tree.all)
    = Some (mkState Tree.store_after (Tree.pool_after (Println "aborted" Return)))
  ∧ ∃ σ' T',
      sim_run Tree.launched
        (mkState Tree.store_late
           (<[3 := seq (Wait Tree.P3 (AwEvent 0)) (Println "P3 after Wait" Return)]>
              Tree.pool_late))
        ((LStep <$> [LTau 3; LTau 3; LTau 3]) ++ unwind 3 Tree.on_P3)
      = Some (mkState σ' T')
      ∧ Forall (is_aborted σ') [3; 2; 1; 5].
Proof.
  destruct (abort_cascades Tree.launched) as (H1 & H2 & H3).
  split; [reflexivity|]. split; [|split; [reflexivity|split; [|split; [reflexivity|]]]].
  - destruct (H1 Tree.store_before Tree.pool_before 3 0 Tree.P3 (AwEvent 0)
                (mkEvent pending [resume_handler Tree.Q] (on_abort Tree.before))
                (mkEvent pending [resume_handler Tree.P2; resume_handler Tree.R]
                   (on_abort Tree.on_P3))
                Tree.before Tree.on_P3 (Println "P3 after Wait" Return)
                (Recv 30 (fun _ => EvAbort 0 (Println "aborted" Return)))
                (fun _ => EvAbort 0 (Println "aborted" Return)))
      as (σ' & T' & Hrun & _ & _ & HF).
    + by apply (bool_decide_eq_true_1 (NoDup [0; 4; 3; 2; 1; 5])).
    + by apply (bool_decide_eq_true_1 (0 ∉ [4; 3; 2; 1; 5])).
    + reflexivity.
    + reflexivity.
    + reflexivity.
    + reflexivity.
    + reflexivity.
    + reflexivity.
    + reflexivity.
    + cbn [Tree.before parked]. repeat split; try reflexivity.
      eexists; repeat split; reflexivity.
    + cbn [Tree.on_P3 parked]. repeat split; try reflexivity;
        eexists; repeat split; reflexivity.
    + reflexivity.
    + reflexivity.
    + exists σ', T'. split; [exact Hrun|exact HF].
  - destruct (H2 Tree.store0 Tree.pool0 0 0
                (mkEvent pending [resume_handler Tree.Q; resume_handler Tree.P3]
                   (on_abort Tree.all))
                Tree.all [] (Println "aborted" Return))
      as (σ' & T' & Hrun & _ & Hab & Hall & Hend & _).
    + by apply (bool_decide_eq_true_1 (NoDup [0; 4; 3; 2; 1; 5])).
    + by apply (bool_decide_eq_true_1 (NoDup [0; 4; 3; 2; 1; 5])).
    + reflexivity.
    + reflexivity.
    + reflexivity.
    + reflexivity.
    + cbn [Tree.all Tree.before Tree.on_P3 f_app parked].
      repeat split; try reflexivity; eexists; repeat split; reflexivity.
    + exists σ', T'. split; [exact Hrun|]. split; [exact Hab|].
      split; [exact Hall|exact Hend].
  - destruct (H3 Tree.store_late Tree.pool_late 3 Tree.P3 (AwEvent 0)
                (mkEvent aborted [] [])
                (mkEvent pending [resume_handler Tree.P2; resume_handler Tree.R]
                   (on_abort Tree.on_P3))
                Tree.on_P3 (Println "P3 after Wait" Return))
      as (σ' & T' & Hrun & _ & Hab & Hall & _).
    + by apply (bool_decide_eq_true_1 (NoDup [3; 2; 1; 5])).
    + by apply (bool_decide_eq_true_1 (NoDup [3; 2; 1; 5])).
    + reflexivity.
    + reflexivity.
    + reflexivity.
    + reflexivity.
    + reflexivity.
    + cbn [Tree.on_P3 parked]. repeat split; try reflexivity;
        eexists; repeat split; reflexivity.
    + exists σ', T'. split; [exact Hrun|]. constructor; [exact Hab|exact Hall].
Defined.

(** ** Handlers left behind by a shutdown *)

Lemma stuck_pool G :
  (∀ t p, pool G !! t = Some p →
          tstep (store G) p = None ∧ recv_on_any p = false) →
  stuck G.
Proof.
  intros H [t|s r c v|t]; unfold do_step.
  - destruct (pool G !! t) as [p|] eqn:Hp; simpl; [|done].
    by destruct (H t p Hp) as [-> _].
  - destruct (decide (s = r)); [done|].
    destruct (pool G !! s) as [ps|]; simpl; [|done].
    destruct (pool G !! r) as [pr|] eqn:Hr; simpl; [|done].
    destruct (send_on c v ps); simpl; [|done].
    destruct (H r pr Hr) as [_ Hrecv]. by destruct pr.
  - destruct (pool G !! t) as [p|] eqn:Hp; simpl; [|done].
    destruct (H t p Hp) as [_ Hrecv]. by destruct p.
Qed.

Lemma run_stuck G ls G' : stuck G → run G ls = Some G' → ls = [] ∧ G' = G.
Proof.
  intros Hs. destruct ls as [|l ls]; simpl.
  - intros. by simplify_eq.
  - by rewrite Hs.
Qed.

(** A goroutine about to send on a channel on which no other goroutine
    is ready to receive is blocked. *)
Lemma send_blocked G d c v k :
  pool G !! d = Some (Send c v k) →
  (∀ r pr, r ≠ d → pool G !! r = Some pr → recv_on c pr = None) →
  blocked G d.
Proof.
  intros Hd Hnone [t|s r c' v'|t] Hinv; simpl in Hinv; unfold do_step.
  - apply bool_decide_eq_true in Hinv as ->. by rewrite Hd.
  - destruct (decide (s = r)) as [|Hsr]; [done|].
    destruct (pool G !! s) as [ps|] eqn:Hs; simpl; [|done].
    destruct (pool G !! r) as [pr|] eqn:Hr; simpl; [|done].
    apply orb_true_iff in Hinv as [H|H]; apply bool_decide_eq_true in H; subst.
    + rewrite Hd in Hs. simplify_eq. simpl.
      destruct (decide (c = c' ∧ v = v')) as [[-> ->]|]; simpl; [|done].
      by rewrite (Hnone r pr).
    + rewrite Hd in Hr. simplify_eq. simpl. by destruct (send_on c' v' ps).
  - apply bool_decide_eq_true in Hinv as ->. by rewrite Hd.
Qed.

Lemma after_teardown_stuck : stuck Demo.after_teardown.
Proof.
  apply stuck_pool. intros t p Hp. unfold Demo.after_teardown in Hp; simpl in Hp.
  apply lookup_insert_Some in Hp as [[<- <-]|[_ Hp]]; [done|].
  apply lookup_singleton_Some in Hp as [<- <-]. done.
Qed.

(** C7 as stated fails.  The process of the package documentation waits
    on event 0; the driver raises the shutdown signal, the process takes
    the shutdown case, and the driver then settles event 0.  The handler
    that [Wait] had registered is invoked and sends on the channel of the
    process, which is gone: no goroutine can take any step any more, and
    the driver never gets to the statement after the settlement. *)
Lemma shutdown_handlers_not_ignorable_counterexample :
  run (mkState (Demo.store_with pending) (Demo.pool_with Demo.teardown_driver))
      Demo.teardown
  = Some Demo.after_teardown
  ∧ pool Demo.after_teardown !! 1 = Some Goexit
  ∧ stuck Demo.after_teardown
  ∧ ¬ ∃ ls G',
      run (mkState (Demo.store_with pending) (Demo.pool_with Demo.teardown_driver))
          (Demo.teardown ++ ls) = Some G'
      ∧ pool G' !! 0 = Some (Println "settled" Return).
Proof.
  assert (Hrun : run (mkState (Demo.store_with pending)
                        (Demo.pool_with Demo.teardown_driver)) Demo.teardown
                 = Some Demo.after_teardown) by reflexivity.
  split; [exact Hrun|]. split; [reflexivity|].
  split; [exact after_teardown_stuck|].
  intros (ls & G' & Hls & Hd).
  rewrite (run_app_Some _ _ _ _ Hrun) in Hls.
  apply (run_stuck _ _ _ after_teardown_stuck) in Hls as [_ ->].
  discriminate Hd.
Qed.

(** C7, amended.  A process is parked in [Wait] on the pending
    occurrence [e]; the shutdown signal has been raised and the process
    takes the shutdown case.  The store is the same afterwards: both
    handlers that [Wait] registered are still on [e].  When [e] is then
    settled (processed or aborted) and the handlers registered before the
    process's own have returned, the process's handler is invoked and
    sends its token on the process's channel; as long as no other
    goroutine is ready to receive on that channel, the settling goroutine
    cannot take a step. *)
Theorem shutdown_leaves_handlers_live
    (abort : bool) σ T t d proc e E hs1 hs2 k kd ls1 σ' T' :
  t ≠ d →
  T !! t = Some (seq (Wait_parked proc) k) →
  shutdown σ = true →
  T !! d = Some (settle_op abort e kd) →
  events σ !! e = Some E →
  state E = pending →
  handlers_for abort E = hs1 ++ Wait_handler abort proc :: hs2 →
  handlers_return
    (set_event σ e (settle (if abort then aborted else processed) E))
    (<[t := Goexit]> T) d hs1 e ls1 σ' T' →
  (∀ r pr, r ≠ d → T' !! r = Some pr → recv_on (sync proc) pr = None) →
  do_step (mkState σ T) (LShut t) = Some (mkState σ (<[t := Goexit]> T))
  ∧ ∃ G', run (mkState σ T) (LShut t :: LTau d :: ls1) = Some G'
          ∧ pool G' !! d
            = Some (Send (sync proc) (negb abort)
                      (Recv (sync proc) (fun _ => fire hs2 e kd)))
          ∧ blocked G' d.
Proof.
  intros Htd Ht Hsd Hd HE Hst Hhs Hret Hnone.
  assert (Hshut : do_step (mkState σ T) (LShut t)
                  = Some (mkState σ (<[t := Goexit]> T))) by by eapply do_shut.
  split; [exact Hshut|].
  exists (mkState σ'
            (<[d := Send (sync proc) (negb abort)
                      (Recv (sync proc) (fun _ => fire hs2 e kd))]> T')).
  split; [|split].
  - erewrite run_cons_Some by exact Hshut.
    assert (Hd' : <[t := Goexit]> T !! d = Some (settle_op abort e kd))
      by by rewrite lookup_insert_ne.
    destruct abort; cbn [settle_op handlers_for Wait_handler negb] in *.
    + erewrite run_cons_Some
        by (eapply do_tau; [exact Hd'|eapply tstep_abort_pending; eassumption]).
      rewrite Hhs, fire_app, fire_cons. apply Hret.
    + erewrite run_cons_Some
        by (eapply do_tau; [exact Hd'|eapply tstep_settle_pending; eassumption]).
      rewrite Hhs, fire_app, fire_cons. apply Hret.
  - apply lookup_insert_eq.
  - eapply send_blocked; [apply lookup_insert_eq|].
    intros r pr Hr Hpr. simpl in Hpr. rewrite lookup_insert_ne in Hpr by done.
    by eapply Hnone.
Qed.

Lemma shutdown_leaves_handlers_live_witness :
  handlers_return
    (set_event (Demo.parked_store true) 0
       (settle processed
          (mkEvent pending [resume_handler Demo.proc] [abort_handler Demo.proc])))
    (<[1 := Goexit]> (Demo.parked_pool (EvSettle 0 (Println "settled" Return))))
    0 [] 0 []
    (store Demo.after_teardown)
    (<[1 := Goexit]> (Demo.parked_pool (EvSettle 0 (Println "settled" Return))))
  ∧ ∃ G', run (mkState (Demo.parked_store true)
                 (Demo.parked_pool (EvSettle 0 (Println "settled" Return))))
              [LShut 1; LTau 0] = Some G'
          ∧ pool G' !! 0
            = Some (Send 10 true (Recv 10 (fun _ => Println "settled" Return)))
          ∧ blocked G' 0.
Proof.
  assert (Hret : handlers_return
    (set_event (Demo.parked_store true) 0
       (settle processed
          (mkEvent pending [resume_handler Demo.proc] [abort_handler Demo.proc])))
    (<[1 := Goexit]> (Demo.parked_pool (EvSettle 0 (Println "settled" Return))))
    0 [] 0 []
    (store Demo.after_teardown)
    (<[1 := Goexit]> (Demo.parked_pool (EvSettle 0 (Println "settled" Return))))).
  { intros X. reflexivity. }
  split; [exact Hret|].
  apply (shutdown_leaves_handlers_live false (Demo.parked_store true)
           (Demo.parked_pool (EvSettle 0 (Println "settled" Return)))
           1 0 Demo.proc 0
           (mkEvent pending [resume_handler Demo.proc] [abort_handler Demo.proc])
           [] [] (Println "End" Return) (Println "settled" Return) []
           (store Demo.after_teardown)
           (<[1 := Goexit]> (Demo.parked_pool (EvSettle 0 (Println "settled" Return))))
           ltac:(discriminate) eq_refl eq_refl eq_refl eq_refl eq_refl eq_refl Hret).
  intros r pr Hr Hpr.
  apply lookup_insert_Some in Hpr as [[<- <-]|[Hr1 Hpr]]; [reflexivity|].
  unfold Demo.parked_pool in Hpr.
  apply lookup_insert_Some in Hpr as [[<- <-]|[_ Hpr]]; [by destruct Hr|].
  apply lookup_singleton_Some in Hpr as [<- _]. by destruct Hr1.
Defined.

(** ** Strict alternation *)

Lemma seq_handoff p k : handoff_code p → handoff_code k → handoff_code (seq p k).
Proof.
  intros Hp Hk. induction Hp; cbn [seq]; [done|constructor..]; auto.
Qed.

Lemma fire_handoff hs e k :
  Forall handoff_handler hs → handoff_code k → handoff_code (fire hs e k).
Proof.
  intros Hhs Hk. induction Hhs as [|h hs Hh _ IH]; [done|].
  rewrite fire_cons. by apply seq_handoff.
Qed.

Lemma resume_handler_handoff proc : handoff_handler (resume_handler proc).
Proof. intros e. apply hc_call. intros _. constructor. Qed.

Lemma abort_handler_handoff proc : handoff_handler (abort_handler proc).
Proof. intros e. apply hc_call. intros _. constructor. Qed.

(** [Wait], followed by code that keeps to the discipline, keeps to the
    discipline. *)
Lemma Wait_handoff proc a k : handoff_code k → handoff_code (seq (Wait proc a) k).
Proof.
  intros Hk. rewrite Wait_eq. cbn.
  apply hc_query. intros [|]; [done|].
  apply hc_query. intros [|]; [repeat constructor|].
  apply hc_add; [apply resume_handler_handoff|].
  apply hc_add_abort; [apply abort_handler_handoff|].
  apply hc_yield. intros [|]; cbn; [done|repeat constructor].
Qed.

Lemma handoff_not_receiving p c : handoff_code p → recv_on c p = None.
Proof. by destruct 1. Qed.

Lemma waiting_not_running p : waiting p → running p = false.
Proof. by destruct p. Qed.

Lemma handoff_send c v p ks :
  handoff_code p → send_on c v p = Some ks → waiting ks ∧ is_Some (recv_on c ks).
Proof.
  intros Hp Hs. destruct Hp; simpl in Hs; try done;
    destruct (decide (c0 = c ∧ v0 = v)) as [[-> ->]|]; simplify_eq;
    (split; [done|]); simpl; rewrite decide_True by done; eauto.
Qed.

Lemma waiting_recv c p kr b :
  handoff_code p ∨ waiting p → recv_on c p = Some kr → handoff_code (kr b).
Proof.
  intros [Hp|Hp] Hr.
  - by rewrite handoff_not_receiving in Hr.
  - destruct p; simpl in *; try done; destruct (decide (c0 = c)); simplify_eq.
    + done.
    + by destruct Hp.
Qed.

Lemma recv_on_same_chan c c' p :
  is_Some (recv_on c p) → is_Some (recv_on c' p) → c = c'.
Proof.
  destruct p; simpl; try (by intros [? ?]);
    destruct (decide (c0 = c)), (decide (c0 = c')); subst;
    by (done || intros [? ?] || intros ? [? ?]).
Qed.

Lemma tstep_running σ p σ' p' : tstep σ p = Some (σ', p') → running p = true.
Proof. by destruct p. Qed.

Lemma tstep_handoff σ p σ' p' :
  handoff_code p →
  (∀ e E, events σ !! e = Some E →
     Forall handoff_handler (handlers E) ∧ Forall handoff_handler (abortHandlers E)) →
  tstep σ p = Some (σ', p') →
  handoff_code p'
  ∧ ∀ e E, events σ' !! e = Some E →
      Forall handoff_handler (handlers E) ∧ Forall handoff_handler (abortHandlers E).
Proof.
  intros Hp Hσ Hstep.
  destruct Hp as [| |c v k Hk|c v k Hk|q e k Hk|e h k Hh Hk|e h k Hh Hk
                 |e k Hk|e k Hk|k Hk|s k Hk]; simpl in Hstep; try done;
    try (destruct (events σ !! e) as [E0|] eqn:HE0; simpl in Hstep; [|done]);
    try (destruct (decide (state E0 = pending)));
    simplify_eq; try (by split; [auto|exact Hσ]).
  1,2: split; [done|]; intros e' E' HE'; simpl in HE';
    apply lookup_insert_Some in HE' as [[<- <-]|[_ HE']]; [|by eapply Hσ];
    destruct (Hσ _ _ HE0) as [H1 H2]; cbn; split; [|done];
    apply Forall_app; split; [done|]; by constructor.
  1,2: split; [done|]; intros e' E' HE'; simpl in HE';
    apply lookup_insert_Some in HE' as [[<- <-]|[_ HE']]; [|by eapply Hσ];
    destruct (Hσ _ _ HE0) as [H1 H2]; cbn; split; [done|];
    apply Forall_app; split; [done|]; by constructor.
  1,2: destruct (Hσ _ _ HE0) as [H1 H2]; split; [by apply fire_handoff|];
    intros e' E' HE'; simpl in HE';
    apply lookup_insert_Some in HE' as [[<- <-]|[_ HE']]; [done|by eapply Hσ].
Qed.

Lemma alternation_tau G t p σ' p' :
  alternation G →
  pool G !! t = Some p →
  tstep (store G) p = Some (σ', p') →
  alternation (mkState σ' (<[t := p']> (pool G))).
Proof.
  intros [Hcode Hhs Hrun Hrecv] Ht Hstep.
  assert (Hr : running p = true) by by eapply tstep_running.
  assert (Hp : handoff_code p).
  { destruct (Hcode _ _ Ht) as [|Hw]; [done|].
    apply waiting_not_running in Hw. congruence. }
  destruct (tstep_handoff _ _ _ _ Hp Hhs Hstep) as [Hp' Hhs'].
  split; simpl.
  - intros t0 p0 H0. apply lookup_insert_Some in H0 as [[<- <-]|[_ H0]]; eauto.
  - exact Hhs'.
  - intros t1 t2 p1 p2 H1 H2 R1 R2.
    apply lookup_insert_Some in H1 as [[<- <-]|[N1 H1]];
      apply lookup_insert_Some in H2 as [[<- <-]|[N2 H2]]; try done.
    + destruct N2. by eapply (Hrun t t2).
    + destruct N1. by eapply (Hrun t t1).
    + by eapply Hrun.
  - intros c t1 t2 p1 p2 H1 H2 R1 R2.
    apply lookup_insert_Some in H1 as [[<- <-]|[N1 H1]].
    { rewrite handoff_not_receiving in R1 by done. by destruct R1. }
    apply lookup_insert_Some in H2 as [[<- <-]|[N2 H2]].
    { rewrite handoff_not_receiving in R2 by done. by destruct R2. }
    by eapply Hrecv.
Qed.

Lemma alternation_comm G s r c v ps pr ks kr :
  alternation G →
  s ≠ r →
  pool G !! s = Some ps →
  pool G !! r = Some pr →
  send_on c v ps = Some ks →
  recv_on c pr = Some kr →
  alternation (mkState (store G) (<[r := kr v]> (<[s := ks]> (pool G)))).
Proof.
  intros [Hcode Hhs Hrun Hrecv] Hsr Hs Hr Hks Hkr.
  assert (Hps : handoff_code ps).
  { destruct (Hcode _ _ Hs) as [|Hw]; [done|]. by destruct ps. }
  assert (Rps : running ps = true) by by destruct ps.
  destruct (handoff_send _ _ _ _ Hps Hks) as [Hwks Hrks].
  assert (Hkrv : handoff_code (kr v))
    by exact (waiting_recv c pr kr v (Hcode _ _ Hr) Hkr).
  split; simpl.
  - intros t0 p0 H0.
    apply lookup_insert_Some in H0 as [[<- <-]|[_ H0]]; [by left|].
    apply lookup_insert_Some in H0 as [[<- <-]|[_ H0]]; [by right|eauto].
  - exact Hhs.
  - assert (Honly : ∀ t p, <[r := kr v]> (<[s := ks]> (pool G)) !! t = Some p →
                           running p = true → t = r).
    { intros t p H R.
      apply lookup_insert_Some in H as [[<- <-]|[N1 H]]; [done|].
      apply lookup_insert_Some in H as [[<- <-]|[N2 H]].
      - apply waiting_not_running in Hwks. congruence.
      - destruct N2. by eapply (Hrun s t). }
    intros t1 t2 p1 p2 H1 H2 R1 R2.
    rewrite (Honly _ _ H1 R1), (Honly _ _ H2 R2). done.
  - assert (Hcase : ∀ c' t p, <[r := kr v]> (<[s := ks]> (pool G)) !! t = Some p →
                      is_Some (recv_on c' p) →
                      (t = s ∧ c' = c)
                      ∨ (t ≠ s ∧ t ≠ r ∧ pool G !! t = Some p)).
    { intros c' t p H R.
      apply lookup_insert_Some in H as [[<- <-]|[N1 H]].
      { rewrite handoff_not_receiving in R by done. by destruct R. }
      apply lookup_insert_Some in H as [[<- <-]|[N2 H]].
      - left. split; [done|]. by eapply recv_on_same_chan.
      - right. auto. }
    assert (Hrr : is_Some (recv_on c pr)) by (rewrite Hkr; eauto).
    intros c' t1 t2 p1 p2 H1 H2 R1 R2.
    destruct (Hcase _ _ _ H1 R1) as [[-> ->]|(N1 & M1 & O1)];
      destruct (Hcase _ _ _ H2 R2) as [[-> E2]|(N2 & M2 & O2)]; subst; try done.
    + destruct M2. by eapply (Hrecv c t2 r).
    + destruct M1. by eapply (Hrecv c t1 r).
    + by eapply Hrecv.
Qed.

Lemma alternation_shut G t p ks :
  alternation G →
  pool G !! t = Some p →
  shut_of p = Some ks →
  alternation (mkState (store G) (<[t := ks]> (pool G))).
Proof.
  intros [Hcode Hhs Hrun Hrecv] Ht Hks.
  assert (ks = Goexit) as ->.
  { destruct (Hcode _ _ Ht) as [Hp|Hw].
    - by destruct Hp.
    - destruct p; simpl in *; try done. destruct Hw. congruence. }
  split; simpl.
  - intros t0 p0 H0.
    apply lookup_insert_Some in H0 as [[<- <-]|[_ H0]]; [left; constructor|eauto].
  - exact Hhs.
  - intros t1 t2 p1 p2 H1 H2 R1 R2.
    apply lookup_insert_Some in H1 as [[<- <-]|[N1 H1]]; [done|].
    apply lookup_insert_Some in H2 as [[<- <-]|[N2 H2]]; [done|].
    by eapply Hrun.
  - intros c t1 t2 p1 p2 H1 H2 R1 R2.
    apply lookup_insert_Some in H1 as [[<- <-]|[N1 H1]]; [by destruct R1|].
    apply lookup_insert_Some in H2 as [[<- <-]|[N2 H2]]; [by destruct R2|].
    by eapply Hrecv.
Qed.

(** Every step keeps strict alternation. *)
Lemma alternation_step G l G' :
  alternation G → do_step G l = Some G' → alternation G'.
Proof.
  intros HG Hstep. destruct l as [t|s r c v|t]; unfold do_step in Hstep.
  - destruct (pool G !! t) as [p|] eqn:Hp; simpl in Hstep; [|done].
    destruct (tstep (store G) p) as [[σ' p']|] eqn:Hts; simplify_eq/=.
    by eapply alternation_tau.
  - destruct (decide (s = r)); [done|].
    destruct (pool G !! s) as [ps|] eqn:Hs; simpl in Hstep; [|done].
    destruct (pool G !! r) as [pr|] eqn:Hr; simpl in Hstep; [|done].
    destruct (send_on c v ps) as [ks|] eqn:Hks; simpl in Hstep; [|done].
    destruct (recv_on c pr) as [kr|] eqn:Hkr; simplify_eq/=.
    by eapply alternation_comm.
  - destruct (pool G !! t) as [p|] eqn:Hp; simpl in Hstep; [|done].
    destruct (shut_of p) as [ks|] eqn:Hks; simpl in Hstep; [|done].
    destruct (shutdown (store G)); simplify_eq/=.
    by eapply alternation_shut.
Qed.

Lemma alternation_run G ls G' :
  alternation G → run G ls = Some G' → alternation G'.
Proof.
  revert G. induction ls as [|l ls IH]; intros G HG Hrun; simpl in Hrun.
  - by simplify_eq.
  - destruct (do_step G l) as [G1|] eqn:Hstep; simpl in Hrun; [|done].
    eapply IH; [|done]. by eapply alternation_step.
Qed.

Lemma send_on_inv c v p ks :
  send_on c v p = Some ks → p = Send c v ks.
Proof.
  destruct p; simpl; try done.
  destruct (decide (c0 = c ∧ v0 = v)) as [[-> ->]|]; [|done]. by intros [= ->].
Qed.

(** In strict alternation any two rendezvous that are possible are the
    same one. *)
Lemma alternation_one_rendezvous G s r c v s' r' c' v' :
  alternation G →
  is_Some (do_step G (LComm s r c v)) →
  is_Some (do_step G (LComm s' r' c' v')) →
  s = s' ∧ r = r' ∧ c = c' ∧ v = v'.
Proof.
  intros HG [G1 H1] [G2 H2]. unfold do_step in H1, H2.
  destruct (decide (s = r)); [done|]. destruct (decide (s' = r')); [done|].
  destruct (pool G !! s) as [ps|] eqn:Hs; simpl in H1; [|done].
  destruct (pool G !! r) as [pr|] eqn:Hr; simpl in H1; [|done].
  destruct (send_on c v ps) as [ks|] eqn:Hks; simpl in H1; [|done].
  destruct (recv_on c pr) as [kr|] eqn:Hkr; simpl in H1; [|done].
  destruct (pool G !! s') as [ps'|] eqn:Hs'; simpl in H2; [|done].
  destruct (pool G !! r') as [pr'|] eqn:Hr'; simpl in H2; [|done].
  destruct (send_on c' v' ps') as [ks'|] eqn:Hks'; simpl in H2; [|done].
  destruct (recv_on c' pr') as [kr'|] eqn:Hkr'; simpl in H2; [|done].
  apply send_on_inv in Hks as ->. apply send_on_inv in Hks' as ->.
  assert (s = s') as <- by by eapply (alt_running _ HG).
  rewrite Hs in Hs'. simplify_eq.
  assert (r = r') as <-.
  { eapply (alt_receiver _ HG c'); [exact Hr|exact Hr'| |];
      [rewrite Hkr|rewrite Hkr']; eauto. }
  done.
Qed.

(** In strict alternation, and as long as the shutdown signal has not
    been raised, at most one step is possible. *)
Lemma alternation_deterministic G l1 l2 :
  alternation G →
  shutdown (store G) = false →
  is_Some (do_step G l1) →
  is_Some (do_step G l2) →
  l1 = l2.
Proof.
  intros HG Hsd H1 H2.
  assert (Hshut : ∀ t, ¬ is_Some (do_step G (LShut t))).
  { intros t [G' H]. unfold do_step in H. rewrite Hsd in H.
    destruct (pool G !! t) as [p|]; simpl in H; [|done].
    by destruct (shut_of p). }
  assert (Htau : ∀ t, is_Some (do_step G (LTau t)) →
                      ∃ p, pool G !! t = Some p ∧ running p = true
                           ∧ ∀ c v, send_on c v p = None).
  { intros t [G' H]. unfold do_step in H.
    destruct (pool G !! t) as [p|]; simpl in H; [|done].
    destruct (tstep (store G) p) as [[σ' p']|] eqn:Hts; [|done].
    exists p. split; [done|]. split; [by eapply tstep_running|].
    intros c v. by destruct p. }
  assert (Hcomm : ∀ s r c v, is_Some (do_step G (LComm s r c v)) →
                    ∃ ks, pool G !! s = Some (Send c v ks)).
  { intros s r c v [G' H]. unfold do_step in H.
    destruct (decide (s = r)); [done|].
    destruct (pool G !! s) as [ps|]; simpl in H; [|done].
    destruct (pool G !! r) as [pr|]; simpl in H; [|done].
    destruct (send_on c v ps) as [ks|] eqn:Hks; simpl in H; [|done].
    apply send_on_inv in Hks as ->. eauto. }
  destruct l1 as [t1|s1 r1 c1 v1|t1]; [| |by destruct (Hshut t1)];
    (destruct l2 as [t2|s2 r2 c2 v2|t2]; [| |by destruct (Hshut t2)]).
  - destruct (Htau _ H1) as (p1 & Hp1 & R1 & _).
    destruct (Htau _ H2) as (p2 & Hp2 & R2 & _).
    f_equal. by eapply (alt_running _ HG).
  - destruct (Htau _ H1) as (p1 & Hp1 & R1 & N1).
    destruct (Hcomm _ _ _ _ H2) as (ks & Hs).
    assert (t1 = s2) as -> by by eapply (alt_running _ HG).
    rewrite Hp1 in Hs. simplify_eq. specialize (N1 c2 v2).
    by rewrite send_on_Send in N1.
  - destruct (Htau _ H2) as (p2 & Hp2 & R2 & N2).
    destruct (Hcomm _ _ _ _ H1) as (ks & Hs).
    assert (t2 = s1) as -> by by eapply (alt_running _ HG).
    rewrite Hp2 in Hs. simplify_eq. specialize (N2 c1 v1).
    by rewrite send_on_Send in N2.
  - destruct (alternation_one_rendezvous _ _ _ _ _ _ _ _ _ HG H1 H2)
      as (-> & -> & -> & ->). done.
Qed.

(** C8. Start from a state in strict alternation: every goroutine and
    every registered handler keeps to the handoff discipline of
    process.go, at most one goroutine is running, and on every channel at
    most one goroutine waits to receive.  Then along any schedule
    (1) strict alternation holds in every state reached;
    (2) at most one sender and receiver can meet: any two rendezvous
        that are possible, on a process's channel or any other, are the
        same one;
    (3) right after a rendezvous, such as the one that hands a parked
        process its token and lets [Wait] return, no goroutine other than
        the receiver is running: each of the others has ended or waits in
        a receive;
    (4) as long as the shutdown signal has not been raised, at most one
        step is possible at all. *)
Theorem handoff_strict_alternation G ls G' :
  alternation G →
  run G ls = Some G' →
  alternation G'
  ∧ (∀ s r c v s' r' c' v',
       is_Some (do_step G' (LComm s r c v)) →
       is_Some (do_step G' (LComm s' r' c' v')) →
       s = s' ∧ r = r' ∧ c = c' ∧ v = v')
  ∧ (∀ s r c v G'',
       do_step G' (LComm s r c v) = Some G'' →
       ∀ t p, t ≠ r → pool G'' !! t = Some p → running p = false)
  ∧ (shutdown (store G') = false →
     ∀ l1 l2, is_Some (do_step G' l1) → is_Some (do_step G' l2) → l1 = l2).
Proof.
  intros HG Hrun.
  assert (HG' : alternation G') by by eapply alternation_run.
  split; [done|]. split; [|split].
  - intros s r c v s' r' c' v'. by apply alternation_one_rendezvous.
  - intros s r c v G'' Hstep t p Htr Ht. unfold do_step in Hstep.
    destruct (decide (s = r)); [done|].
    destruct (pool G' !! s) as [ps|] eqn:Hs; simpl in Hstep; [|done].
    destruct (pool G' !! r) as [pr|] eqn:Hr; simpl in Hstep; [|done].
    destruct (send_on c v ps) as [ks|] eqn:Hks; simpl in Hstep; [|done].
    destruct (recv_on c pr) as [kr|] eqn:Hkr; simplify_eq/=.
    rewrite lookup_insert_ne in Ht by done.
    assert (Hps : handoff_code ps).
    { destruct (alt_code _ HG' _ _ Hs) as [|Hw]; [done|]. by destruct ps. }
    apply lookup_insert_Some in Ht as [[<- <-]|[Hst Ht]].
    + apply waiting_not_running. by eapply handoff_send.
    + destruct (running p) eqn:Rp; [|done]. destruct Hst.
      eapply (alt_running _ HG'); [exact Hs|exact Ht|by destruct ps|done].
  - intros Hsd l1 l2. by apply alternation_deterministic.
Qed.

Lemma Demo_alternation :
  alternation (mkState (Demo.store_with pending)
                 (Demo.pool_with (Recv 10 (fun _ => EvSettle 0 Return)))).
Proof.
  assert (Hpool : ∀ t p,
    Demo.pool_with (Recv 10 (fun _ => EvSettle 0 Return)) !! t = Some p →
    (t = 0 ∧ p = Recv 10 (fun _ => EvSettle 0 Return)) ∨ (t = 1 ∧ p = Demo.logic)).
  { intros t p H. unfold Demo.pool_with in H.
    apply lookup_insert_Some in H as [[<- <-]|[_ H]]; [by left|].
    apply lookup_singleton_Some in H as [<- <-]. by right. }
  split; simpl.
  - intros t p H. destruct (Hpool _ _ H) as [[-> ->]|[-> ->]].
    + right. simpl. intros _. repeat constructor.
    + left. apply Wait_handoff. repeat constructor.
  - intros e E H. unfold Demo.store_with in H; simpl in H.
    apply lookup_insert_Some in H as [[<- <-]|[_ H]]; [by split; constructor|].
    apply lookup_singleton_Some in H as [<- <-]. by split; constructor.
  - intros t1 t2 p1 p2 H1 H2 R1 R2.
    destruct (Hpool _ _ H1) as [[-> ->]|[-> ->]]; [done|].
    by destruct (Hpool _ _ H2) as [[-> ->]|[-> ->]].
  - intros c t1 t2 p1 p2 H1 H2 R1 R2.
    destruct (Hpool _ _ H1) as [[-> ->]|[-> ->]]; [|by destruct R1].
    destruct (Hpool _ _ H2) as [[-> ->]|[-> ->]]; [done|by destruct R2].
Defined.

Lemma handoff_strict_alternation_witness :
  alternation (mkState (Demo.store_with pending)
                 (Demo.pool_with (Recv 10 (fun _ => EvSettle 0 Return))))
  ∧ alternation
      (mkState
         (mkStore {[ 0 := mkEvent processed [resume_handler Demo.proc]
                                            [abort_handler Demo.proc];
                     1 := mkEvent pending [] [] ]} false [])
         {[ 0 := Recv 10 (fun _ => Return); 1 := Println "End" Return ]}).
Proof.
  split; [exact Demo_alternation|].
  apply (handoff_strict_alternation
           (mkState (Demo.store_with pending)
              (Demo.pool_with (Recv 10 (fun _ => EvSettle 0 Return))))
           [LTau 1; LTau 1; LTau 1; LTau 1; LComm 1 0 10 true; LTau 0; LComm 0 1 10 true]
           _ Demo_alternation).
  reflexivity.
Defined.

(** * Further properties of process.go *)

(** ** Leaving the [select] *)

(** X1. A process parked in the [select] of [Wait] takes part in a step
    in two ways only, and the store is the same after either: it takes
    the shutdown case and ends, which needs the shutdown signal raised;
    or it receives a token [v] that another goroutine sends on its own
    channel, and then [Wait] returns if [v] is [true] and the process
    goes on to abort if [v] is [false].  Both are possible exactly when
    their condition holds, so that once the shutdown signal is raised a
    process to which a token is offered may go either way. *)
Theorem parked_leaves_by_token_or_shutdown G t proc k :
  pool G !! t = Some (seq (Wait_parked proc) k) →
  (∀ l G', involves t l = true → do_step G l = Some G' →
     (l = LShut t ∧ shutdown (store G) = true
      ∧ G' = mkState (store G) (<[t := Goexit]> (pool G)))
     ∨ (∃ s v ks, l = LComm s t (sync proc) v ∧ s ≠ t
          ∧ pool G !! s = Some (Send (sync proc) v ks)
          ∧ G' = mkState (store G)
                   (<[t := if v then k else Wait_abort proc]>
                      (<[s := ks]> (pool G)))))
  ∧ (shutdown (store G) = true → is_Some (do_step G (LShut t)))
  ∧ (∀ s v ks, s ≠ t → pool G !! s = Some (Send (sync proc) v ks) →
       is_Some (do_step G (LComm s t (sync proc) v))).
Proof.
  intros Ht. split; [|split].
  - intros l G' Hinv Hstep. destruct l as [t'|s r c v|t']; simpl in Hinv.
    + apply bool_decide_eq_true in Hinv as ->. unfold do_step in Hstep.
      by rewrite Ht in Hstep.
    + right. unfold do_step in Hstep.
      destruct (decide (s = r)) as [|Hsr]; [done|].
      destruct (pool G !! s) as [ps|] eqn:Hs; simpl in Hstep; [|done].
      destruct (pool G !! r) as [pr|] eqn:Hr; simpl in Hstep; [|done].
      destruct (send_on c v ps) as [ks|] eqn:Hks; simpl in Hstep; [|done].
      destruct (recv_on c pr) as [kr|] eqn:Hkr; simpl in Hstep; [|done].
      apply send_on_inv in Hks as ->.
      apply orb_true_iff in Hinv as [H|H]; apply bool_decide_eq_true in H; subst.
      * rewrite Ht in Hs. discriminate Hs.
      * rewrite Ht in Hr. simplify_eq. cbn in Hkr.
        destruct (decide (sync proc = c)) as [<-|]; [|done]. simplify_eq.
        exists s, v, ks. split; [done|]. split; [done|]. split; [done|].
        by destruct v.
    + left. apply bool_decide_eq_true in Hinv as ->. unfold do_step in Hstep.
      rewrite Ht in Hstep. cbn in Hstep.
      destruct (shutdown (store G)); [|done]. by simplify_eq.
  - intros Hsd. destruct G as [σ T]. cbn [store pool] in *.
    erewrite do_shut; [by eexists|exact Ht|done|done].
  - intros s v ks Hst Hs. destruct G as [σ T]. cbn [store pool] in *.
    erewrite do_comm; [by eexists|done|exact Hs|exact Ht|apply send_on_Send
                      |apply recv_on_Select].
Qed.

Lemma parked_leaves_by_token_or_shutdown_witness :
  is_Some (do_step (mkState (Demo.parked_store true)
                      (Demo.parked_pool (Send 10 true (Recv 10 (fun _ => Return)))))
             (LShut 1))
  ∧ is_Some (do_step (mkState (Demo.parked_store true)
                        (Demo.parked_pool (Send 10 true (Recv 10 (fun _ => Return)))))
               (LComm 0 1 10 true)).
Proof.
  destruct (parked_leaves_by_token_or_shutdown
              (mkState (Demo.parked_store true)
                 (Demo.parked_pool (Send 10 true (Recv 10 (fun _ => Return)))))
              1 Demo.proc (Println "End" Return) eq_refl) as (_ & Hshut & Hcomm).
  split; [exact (Hshut eq_refl)|].
  exact (Hcomm 0 true (Recv 10 (fun _ => Return)) ltac:(discriminate) eq_refl).
Defined.

(** ** Aborting with a completion occurrence that is settled already *)

Lemma Wait_abort_step_settled σ proc Ep :
  events σ !! ev proc = Some Ep →
  state Ep ≠ pending →
  tstep σ (Wait_abort proc) = Some (σ, Goexit).
Proof.
  intros HE Hst. unfold Wait_abort. cbn [tstep]. rewrite HE. cbn.
  by rewrite decide_False.
Qed.

(** X2. [Wait] ends the calling goroutine on both of its abort paths
    whether or not [proc.ev.Abort()] has anything left to do.  When the
    process's own completion occurrence is settled already, the store is
    the same afterwards and no handler is invoked: (1) on an awaitable
    that is already aborted, which includes the process's own aborted
    completion occurrence; (2) on the abort token received in the
    [select]. *)
Theorem Wait_abort_with_settled_completion σ proc Ep :
  events σ !! ev proc = Some Ep →
  state Ep ≠ pending →
  (∀ a E T t k,
     events σ !! target a = Some E →
     state E = aborted →
     run (mkState σ (<[t := seq (Wait proc a) k]> T)) [LTau t; LTau t; LTau t]
     = Some (mkState σ (<[t := Goexit]> T)))
  ∧ (∀ T t s k ks,
     s ≠ t →
     T !! t = Some (seq (Wait_parked proc) k) →
     T !! s = Some (Send (sync proc) false ks) →
     run (mkState σ T) [LComm s t (sync proc) false; LTau t]
     = Some (mkState σ (<[t := Goexit]> (<[s := ks]> T)))).
Proof.
  intros HEp Hstp. split.
  - intros a E T t k HE Hst. rewrite Wait_eq.
    run_tau ltac:(by apply Wait_on_step).
    rewrite Hst; cbn [bool_decide decide_rel].
    run_tau ltac:(by apply Wait_unprocessed_step).
    rewrite Hst; cbn [bool_decide decide_rel].
    run_tau ltac:(by eapply Wait_abort_step_settled).
    done.
  - intros T t s k ks Hst Ht Hs.
    erewrite run_cons_Some
      by (eapply do_comm; [exact Hst|exact Hs|exact Ht|apply send_on_Send
                          |apply recv_on_Select]).
    cbn [negb seq Wait_abort].
    run_tau ltac:(by eapply Wait_abort_step_settled).
    done.
Qed.

Lemma Wait_abort_with_settled_completion_witness :
  run (mkState
         (mkStore {[ 1 := mkEvent aborted [] [fun _ => Println "cleanup" Return] ]}
            false [])
         (<[1 := seq (Wait Demo.proc (AwProcess Demo.proc)) (Println "End" Return)]> ∅))
      [LTau 1; LTau 1; LTau 1]
  = Some (mkState
            (mkStore {[ 1 := mkEvent aborted [] [fun _ => Println "cleanup" Return] ]}
               false [])
            (<[1 := Goexit]> ∅)).
Proof.
  destruct (Wait_abort_with_settled_completion
              (mkStore {[ 1 := mkEvent aborted []
                                 [fun _ => Println "cleanup" Return] ]} false [])
              Demo.proc (mkEvent aborted [] [fun _ => Println "cleanup" Return]))
    as [H _]; [reflexivity|discriminate|].
  apply (H (AwProcess Demo.proc)
           (mkEvent aborted [] [fun _ => Println "cleanup" Return])); reflexivity.
Defined.

(** ** Blocking at the yield *)

(** X3. The yield of [Wait], [proc.sync <- true] at process.go:74, is a
    plain send outside the [select]: when no other goroutine is ready to
    receive on the process's channel, a process that calls [Wait] on a
    pending awaitable does its two reads and registers its two handlers,
    and then cannot take a step, whether or not the shutdown signal is
    raised; its handlers are on the awaitable all the same. *)
Theorem Wait_blocks_at_yield σ T t proc a E k :
  events σ !! target a = Some E →
  state E = pending →
  (∀ r pr, r ≠ t → T !! r = Some pr → recv_on (sync proc) pr = None) →
  run (mkState σ (<[t := seq (Wait proc a) k]> T)) [LTau t; LTau t; LTau t; LTau t]
  = Some (mkState
            (set_event σ (target a)
               (mkEvent pending (handlers E ++ [resume_handler proc])
                                (abortHandlers E ++ [abort_handler proc])))
            (<[t := Send (sync proc) true (seq (Wait_parked proc) k)]> T))
  ∧ blocked
      (mkState
         (set_event σ (target a)
            (mkEvent pending (handlers E ++ [resume_handler proc])
                             (abortHandlers E ++ [abort_handler proc])))
         (<[t := Send (sync proc) true (seq (Wait_parked proc) k)]> T)) t.
Proof.
  intros HE Hst Hnone. split.
  - rewrite Wait_eq.
    run_tau ltac:(by apply Wait_on_step).
    rewrite Hst; cbn [bool_decide decide_rel].
    run_tau ltac:(by apply Wait_unprocessed_step).
    rewrite Hst; cbn [bool_decide decide_rel].
    run_tau ltac:(by apply tstep_add_handler).
    run_tau ltac:(apply tstep_add_abort_handler, set_event_lookup).
    rewrite set_event_twice. cbn [state handlers abortHandlers]. by rewrite Hst.
  - eapply send_blocked; [apply lookup_insert_eq|].
    intros r pr Hr Hpr. cbn [pool] in Hpr. rewrite lookup_insert_ne in Hpr by done.
    by eapply Hnone.
Qed.

Lemma Wait_blocks_at_yield_witness :
  run (mkState (Demo.store_with pending) (<[1 := Demo.logic]> (Demo.pool_with Return)))
      [LTau 1; LTau 1; LTau 1; LTau 1]
  = Some (mkState (Demo.parked_store false)
            (<[1 := Send 10 true (seq (Wait_parked Demo.proc) (Println "End" Return))]>
               (Demo.pool_with Return)))
  ∧ blocked
      (mkState (Demo.parked_store false)
         (<[1 := Send 10 true (seq (Wait_parked Demo.proc) (Println "End" Return))]>
            (Demo.pool_with Return))) 1.
Proof.
  apply (Wait_blocks_at_yield (Demo.store_with pending) (Demo.pool_with Return) 1
           Demo.proc (AwEvent 0) (mkEvent pending [] []) (Println "End" Return)
           eq_refl eq_refl).
  intros r pr Hr Hpr. unfold Demo.pool_with in Hpr.
  apply lookup_insert_Some in Hpr as [[<- <-]|[_ Hpr]]; [reflexivity|].
  apply lookup_singleton_Some in Hpr as [<- _]. by destruct Hr.
Defined.

(** ** Waiting again on a processed awaitable *)

Lemma Wait_times_processed σ a E proc t k n : ∀ T,
  events σ !! target a = Some E →
  state E = processed →
  T !! t = Some (Wait_times n proc a k) →
  run (mkState σ T) (replicate n (LTau t)) = Some (mkState σ (<[t := k]> T)).
Proof.
  induction n as [|n IH]; intros T HE Hst Ht; cbn [Wait_times replicate run] in *.
  - by rewrite insert_id.
  - rewrite Wait_eq in Ht.
    erewrite do_tau; [|exact Ht|by apply Wait_on_step].
    rewrite Hst. cbn [bool_decide decide_rel mbind option_bind].
    rewrite (IH (<[t := Wait_times n proc a k]> T)); [|done|done|apply lookup_insert_eq].
    by rewrite insert_insert_eq.
Qed.

(** X4. Once an awaitable is processed, [Wait] on it returns at once for
    good: in whatever state any schedule leads to, a goroutine that
    calls [Wait] on it any number of times in a row gets through all the
    calls with one internal step each, and the store is untouched. *)
Theorem Wait_processed_for_good G ls G' a E n t proc k :
  events (store G) !! target a = Some E →
  state E = processed →
  run G ls = Some G' →
  pool G' !! t = Some (Wait_times n proc a k) →
  run G' (replicate n (LTau t)) = Some (mkState (store G') (<[t := k]> (pool G'))).
Proof.
  intros HE Hst Hrun Ht.
  destruct (run_settled_stable _ _ _ _ _ Hrun HE) as (E' & HE' & Hst');
    [by rewrite Hst|].
  destruct G' as [σ' T']. cbn [store pool] in *.
  eapply Wait_times_processed; [exact HE'|congruence|exact Ht].
Qed.

Lemma Wait_processed_for_good_witness :
  run (mkState (Demo.store_with processed)
         {[ 0 := EvAbort 0 (Println "too late" Return);
            1 := Wait_times 3 Demo.proc (AwEvent 0) (Println "End" Return) ]})
      ([LTau 0; LTau 0] ++ replicate 3 (LTau 1))
  = Some (mkState
            (mkStore {[ 0 := mkEvent processed [] []; 1 := mkEvent pending [] [] ]}
               false ["too late"])
            {[ 0 := Return; 1 := Println "End" Return ]}).
Proof.
  rewrite (run_app_Some _ [LTau 0; LTau 0]
             (mkState
                (mkStore {[ 0 := mkEvent processed [] []; 1 := mkEvent pending [] [] ]}
                   false ["too late"])
                {[ 0 := Return;
                   1 := Wait_times 3 Demo.proc (AwEvent 0) (Println "End" Return) ]}))
    by reflexivity.
  eapply eq_trans;
    [apply (Wait_processed_for_good
              (mkState (Demo.store_with processed)
                 {[ 0 := EvAbort 0 (Println "too late" Return);
                    1 := Wait_times 3 Demo.proc (AwEvent 0) (Println "End" Return) ]})
              [LTau 0; LTau 0] _ (AwEvent 0) (mkEvent processed [] []) 3 1 Demo.proc
              (Println "End" Return)); reflexivity
    |reflexivity].
Defined.

(** ** Registration in the order of the calls *)

Lemma after_calls_handlers ws : ∀ σ e E,
  events σ !! e = Some E →
  state E = pending →
  events (after_calls_store σ e ws) !! e
  = Some (mkEvent pending
            (handlers E ++ ((resume_handler ∘ w_proc) <$> ws))
            (abortHandlers E ++ ((abort_handler ∘ w_proc) <$> ws))).
Proof.
  induction ws as [|w ws IH]; intros σ e E HE Hst.
  - cbn. rewrite !app_nil_r, HE. destruct E; cbn in *. by subst.
  - cbn [after_calls_store foldl].
    fold (after_calls_store (register (w_proc w) e σ) e ws).
    rewrite (register_lookup _ _ _ _ HE Hst).
    erewrite IH; [|apply set_event_lookup|done].
    cbn [handlers abortHandlers]. rewrite !fmap_cons, <- !app_assoc. done.
Qed.

Lemma after_calls_other ws : ∀ σ e e',
  e' ≠ e → events (after_calls_store σ e ws) !! e' = events σ !! e'.
Proof.
  induction ws as [|w ws IH]; intros σ e e' Hne; [done|].
  cbn [after_calls_store foldl].
  fold (after_calls_store (register (w_proc w) e σ) e ws).
  rewrite IH by done. unfold register.
  destruct (events σ !! e); [|done]. by rewrite set_event_lookup_ne.
Qed.

Lemma calls_register ws : ∀ σ T d e X,
  NoDup (d :: (w_tid <$> ws)) →
  is_pending σ e →
  Forall (fun w => T !! w_tid w = Some (seq (Wait_on (w_proc w) e) (w_cont w))) ws →
  run (mkState σ (<[d := collect ws X]> T)) (calls d ws)
  = Some (mkState (after_calls_store σ e ws) (<[d := X]> (after_calls_pool T ws))).
Proof.
  induction ws as [|w ws IH]; intros σ T d e X Hnd Hp Hws; [done|].
  apply NoDup_cons in Hnd as [Hd Hnd].
  apply Forall_cons in Hws as [Hw Hws].
  destruct Hp as (E & HE & Hst).
  assert (Hwd : w_tid w ≠ d).
  { intros <-. apply Hd. rewrite fmap_cons. apply list_elem_of_here. }
  apply NoDup_cons in Hnd as [Hw' Hnd].
  cbn [collect foldr calls].
  fold (collect ws X).
  rewrite <- (insert_id (<[d := Recv (sync (w_proc w)) (fun _ => collect ws X)]> T)
                (w_tid w) (seq (Wait_on (w_proc w) e) (w_cont w)))
    by by rewrite lookup_insert_ne.
  erewrite run_app_Some
    by (eapply Wait_pending_parks;
        [exact Hwd|exact HE|exact Hst|apply lookup_insert_eq|apply recv_on_Recv]).
  rewrite (insert_insert_ne _ (w_tid w) d) by done.
  rewrite insert_insert_eq.
  rewrite <- (register_lookup _ _ _ _ HE Hst).
  apply (IH (register (w_proc w) e σ)
            (<[w_tid w := seq (Wait_parked (w_proc w)) (w_cont w)]> T) d e X).
  - apply NoDup_cons. split; [|done].
    intros Hin. apply Hd. rewrite fmap_cons. by apply list_elem_of_further.
  - apply register_pending. by exists E.
  - apply Forall_forall. intros w0 Hin.
    rewrite lookup_insert_ne; [exact (proj1 (Forall_forall _ _) Hws w0 Hin)|].
    intros Heq. apply Hw'. rewrite Heq. by apply list_elem_of_fmap_2.
Qed.

(** X5. Processes that call [Wait] on the same pending awaitable one
    after the other, each handing its token to a goroutine that takes
    them in turn, are all parked, and their handlers stand on the
    awaitable in the order of the calls, behind the handlers that were
    there before: the on-processed handlers in the one list, the
    on-abort handlers in the other.  The awaitable is still pending and
    no other occurrence has changed. *)
Theorem Wait_registers_in_call_order σ T d a E X ws :
  NoDup (d :: (w_tid <$> ws)) →
  events σ !! target a = Some E →
  state E = pending →
  Forall (fun w => T !! w_tid w = Some (seq (Wait (w_proc w) a) (w_cont w))) ws →
  run (mkState σ (<[d := collect ws X]> T)) (calls d ws)
  = Some (mkState (after_calls_store σ (target a) ws)
            (<[d := X]> (after_calls_pool T ws)))
  ∧ events (after_calls_store σ (target a) ws) !! target a
    = Some (mkEvent pending
              (handlers E ++ ((resume_handler ∘ w_proc) <$> ws))
              (abortHandlers E ++ ((abort_handler ∘ w_proc) <$> ws)))
  ∧ ∀ e', e' ≠ target a →
          events (after_calls_store σ (target a) ws) !! e' = events σ !! e'.
Proof.
  intros Hnd HE Hst Hws. split; [|split].
  - apply calls_register; [done|by exists E|].
    apply Forall_forall. intros w Hin. rewrite <- Wait_eq.
    exact (proj1 (Forall_forall _ _) Hws w Hin).
  - by apply after_calls_handlers.
  - intros e' Hne. by apply after_calls_other.
Qed.

Lemma Wait_registers_in_call_order_witness :
  run (mkState Queue.store0 (<[0 := collect Queue.callers Return]> Queue.pool0))
      (calls 0 Queue.callers)
  = Some (mkState
            (mkStore
               {[ 0 := mkEvent pending
                         [resume_handler (mkProcess 1 10); resume_handler (mkProcess 2 20);
                          resume_handler (mkProcess 3 30)]
                         [abort_handler (mkProcess 1 10); abort_handler (mkProcess 2 20);
                          abort_handler (mkProcess 3 30)];
                  1 := mkEvent pending [] []; 2 := mkEvent pending [] [];
                  3 := mkEvent pending [] [] ]} false [])
            {[ 0 := Return;
               1 := seq (Wait_parked (mkProcess 1 10)) (Println "first" Return);
               2 := seq (Wait_parked (mkProcess 2 20)) (Println "second" Return);
               3 := seq (Wait_parked (mkProcess 3 30)) (Println "third" Return) ]}).
Proof.
  eapply eq_trans;
    [apply (Wait_registers_in_call_order Queue.store0 Queue.pool0 0 (AwEvent 0)
              (mkEvent pending [] []) Return Queue.callers)
    |reflexivity].
  - by apply (bool_decide_eq_true_1 (NoDup [0; 1; 2; 3])).
  - reflexivity.
  - reflexivity.
  - repeat constructor.
Defined.

(** ** The process of the documentation *)

Lemma tstep_println σ s k : tstep σ (Println s k) = Some (printed s σ, k).
Proof. done. Qed.

(** X6. What [myProcess], the process of the documentation of [Process],
    prints.  (1) On an awaitable that is already processed it prints
    "Start" and "End" in three steps and returns.  (2) On one that is
    already aborted it prints "Start", aborts its completion occurrence
    and is left with that occurrence's abort handlers and [Goexit]:
    "End" is not printed.  (3) On a pending one it prints "Start",
    registers, hands over its token and is parked with the printing of
    "End" as all that is left to do.  (4) Parked so, it prints "End" and
    returns when it is handed the token [true]. *)
Theorem myProcess_prints :
  (∀ σ T t proc a E,
     events σ !! target a = Some E →
     state E = processed →
     run (mkState σ (<[t := myProcess proc a]> T)) [LTau t; LTau t; LTau t]
     = Some (mkState (printed "End" (printed "Start" σ)) (<[t := Return]> T)))
  ∧ (∀ σ T t proc a E Ep,
     events σ !! target a = Some E →
     state E = aborted →
     events σ !! ev proc = Some Ep →
     state Ep = pending →
     run (mkState σ (<[t := myProcess proc a]> T)) [LTau t; LTau t; LTau t; LTau t]
     = Some (mkState (set_event (printed "Start" σ) (ev proc) (settle aborted Ep))
               (<[t := fire (abortHandlers Ep) (ev proc) Goexit]> T)))
  ∧ (∀ σ T t d proc a E pd kd,
     t ≠ d →
     events σ !! target a = Some E →
     state E = pending →
     T !! d = Some pd →
     recv_on (sync proc) pd = Some kd →
     run (mkState σ (<[t := myProcess proc a]> T))
         [LTau t; LTau t; LTau t; LTau t; LTau t; LComm t d (sync proc) true]
     = Some (mkState
               (set_event (printed "Start" σ) (target a)
                  (mkEvent pending (handlers E ++ [resume_handler proc])
                                   (abortHandlers E ++ [abort_handler proc])))
               (<[d := kd true]>
                  (<[t := seq (Wait_parked proc) (Println "End" Return)]> T))))
  ∧ (∀ σ T t s proc ks,
     s ≠ t →
     T !! t = Some (seq (Wait_parked proc) (Println "End" Return)) →
     T !! s = Some (Send (sync proc) true ks) →
     run (mkState σ T) [LComm s t (sync proc) true; LTau t]
     = Some (mkState (printed "End" σ) (<[t := Return]> (<[s := ks]> T)))).
Proof.
  split; [|split; [|split]].
  - intros σ T t proc a E HE Hst. unfold myProcess.
    run_tau ltac:(apply tstep_println).
    rewrite Wait_eq.
    run_tau ltac:(by apply Wait_on_step).
    rewrite Hst; cbn [bool_decide decide_rel].
    run_tau ltac:(apply tstep_println).
    done.
  - intros σ T t proc a E Ep HE Hst HEp Hstp. unfold myProcess.
    run_tau ltac:(apply tstep_println).
    rewrite Wait_eq.
    run_tau ltac:(by apply Wait_on_step).
    rewrite Hst; cbn [bool_decide decide_rel].
    run_tau ltac:(by apply Wait_unprocessed_step).
    rewrite Hst; cbn [bool_decide decide_rel].
    run_tau ltac:(by apply Wait_abort_step).
    done.
  - intros σ T t d proc a E pd kd Htd HE Hst Hd Hkd. unfold myProcess.
    run_tau ltac:(apply tstep_println).
    rewrite Wait_eq.
    by eapply Wait_pending_parks.
  - intros σ T t s proc ks Hst Ht Hs.
    erewrite run_cons_Some
      by (eapply do_comm; [exact Hst|exact Hs|exact Ht|apply send_on_Send
                          |apply recv_on_Select]).
    cbn [negb seq].
    run_tau ltac:(apply tstep_println).
    done.
Qed.

Lemma myProcess_prints_witness :
  run (mkState (Demo.store_with pending)
         (<[1 := myProcess Demo.proc (AwEvent 0)]>
            {[ 0 := Recv 10 (fun _ => EvSettle 0 Return) ]}))
      ([LTau 1; LTau 1; LTau 1; LTau 1; LTau 1; LComm 1 0 10 true]
       ++ [LTau 0] ++ [LComm 0 1 10 true; LTau 1])
  = Some (mkState
            (mkStore {[ 0 := mkEvent processed [resume_handler Demo.proc]
                                               [abort_handler Demo.proc];
                        1 := mkEvent pending [] [] ]} false ["Start"; "End"])
            {[ 0 := Recv 10 (fun _ => Return); 1 := Return ]}).
Proof.
  rewrite (run_app_Some _ _
             (mkState
                (mkStore {[ 0 := mkEvent pending [resume_handler Demo.proc]
                                                 [abort_handler Demo.proc];
                            1 := mkEvent pending [] [] ]} false ["Start"])
                {[ 0 := EvSettle 0 Return;
                   1 := seq (Wait_parked Demo.proc) (Println "End" Return) ]})).
  - rewrite (run_app_Some _ [LTau 0]
               (mkState
                  (mkStore {[ 0 := mkEvent processed [resume_handler Demo.proc]
                                                     [abort_handler Demo.proc];
                              1 := mkEvent pending [] [] ]} false ["Start"])
                  {[ 0 := Send 10 true (Recv 10 (fun _ => Return));
                     1 := seq (Wait_parked Demo.proc) (Println "End" Return) ]}))
      by reflexivity.
    eapply eq_trans;
      [apply (proj2 (proj2 (proj2 myProcess_prints)) _ _ 1 0 Demo.proc
                (Recv 10 (fun _ => Return))); first [reflexivity|discriminate]
      |reflexivity].
  - eapply eq_trans;
      [apply (proj1 (proj2 (proj2 myProcess_prints)) (Demo.store_with pending)
                {[ 0 := Recv 10 (fun _ => EvSettle 0 Return) ]}
                1 0 Demo.proc (AwEvent 0) (mkEvent pending [] [])
                (Recv 10 (fun _ => EvSettle 0 Return)) (fun _ => EvSettle 0 Return));
       first [reflexivity|discriminate]
      |reflexivity].
Defined.

(** ** Callbacks of a process that [Wait] aborts *)

(** X7. A process registers an on-abort callback [h] and an on-processed
    callback [h'] on itself with [AddAbortHandler] and [AddHandler] and
    then calls [Wait] on an awaitable that is already aborted.  Its
    completion occurrence becomes aborted; [h] is invoked in the
    process's own goroutine, after the on-abort handlers registered
    before it, and the goroutine ends after it; [h'] stays registered
    and is not invoked. *)
Theorem abort_runs_own_callbacks σ T t proc a E Ep h h' k :
  events σ !! target a = Some E →
  state E = aborted →
  events σ !! ev proc = Some Ep →
  state Ep = pending →
  run (mkState σ
         (<[t := AddAbortHandler proc h (AddHandler proc h' (seq (Wait proc a) k))]> T))
      [LTau t; LTau t; LTau t; LTau t; LTau t]
  = Some (mkState
            (set_event σ (ev proc)
               (mkEvent aborted (handlers Ep ++ [h']) (abortHandlers Ep ++ [h])))
            (<[t := fire (abortHandlers Ep) (ev proc) (seq (h (ev proc)) Goexit)]> T)).
Proof.
  intros HE Hst HEp Hstp.
  assert (Hne : ev proc ≠ target a).
  { intros Heq. rewrite Heq, HE in HEp. simplify_eq. congruence. }
  unfold AddAbortHandler, AddHandler, Event_.AddAbortHandler, Event_.AddHandler.
  run_tau ltac:(by apply tstep_add_abort_handler).
  run_tau ltac:(apply tstep_add_handler, set_event_lookup).
  rewrite set_event_twice. cbn [state handlers abortHandlers].
  rewrite Wait_eq.
  run_tau ltac:(apply Wait_on_step; rewrite set_event_lookup_ne by done; exact HE).
  rewrite Hst; cbn [bool_decide decide_rel].
  run_tau ltac:(apply Wait_unprocessed_step; rewrite set_event_lookup_ne by done;
                exact HE).
  rewrite Hst; cbn [bool_decide decide_rel].
  run_tau ltac:(apply Wait_abort_step; [apply set_event_lookup|exact Hstp]).
  rewrite set_event_twice. cbn [abortHandlers handlers settle].
  by rewrite fire_app.
Qed.

Lemma abort_runs_own_callbacks_witness :
  run (mkState (Demo.store_with aborted)
         (<[1 := AddAbortHandler Demo.proc (fun _ => Println "cleanup" Return)
                   (AddHandler Demo.proc (fun _ => Println "done" Return)
                      (seq (Wait Demo.proc (AwEvent 0)) (Println "End" Return)))]> ∅))
      ([LTau 1; LTau 1; LTau 1; LTau 1; LTau 1] ++ [LTau 1])
  = Some (mkState
            (mkStore {[ 0 := mkEvent aborted [] [];
                        1 := mkEvent aborted [fun _ => Println "done" Return]
                                             [fun _ => Println "cleanup" Return] ]}
               false ["cleanup"])
            (<[1 := Goexit]> ∅)).
Proof.
  rewrite (run_app_Some _ _ _ _
             (abort_runs_own_callbacks (Demo.store_with aborted) ∅ 1 Demo.proc (AwEvent 0)
                (mkEvent aborted [] []) (mkEvent pending [] [])
                (fun _ => Println "cleanup" Return) (fun _ => Println "done" Return)
                (Println "End" Return) eq_refl eq_refl eq_refl eq_refl)).
  reflexivity.
Defined.

(** ** The channel inside [Wait] *)

(** X8. What the statements of [Wait] do on channels.  (1) While a
    goroutine is at a statement of [Wait proc a], at any point on any
    path before [Wait] has returned, every step it takes part in is an
    internal step, except at two points: at the yield it sends the token
    [true] on the process's own channel, and in the [select] it receives
    a token on the process's own channel or takes the shutdown case.  The
    statements of [Wait] receive nowhere else, never send [false], and
    use no other channel.  (2) The one statement of [Wait] that runs
    other code is the call [proc.ev.Abort()]: its step is internal, and
    after it the goroutine has the on-abort handlers of the process's
    completion occurrence to run, if that occurrence was pending, and
    then [Goexit].  Those handlers are not statements of [Wait]; they run
    in the same goroutine before it ends and may use other channels: the
    handler of a process that waits on this one sends [false] on that
    process's channel. *)
Theorem Wait_channel_discipline proc a w k G t l G' :
  w ∈ residuals (Wait proc a) →
  w ≠ Return →
  pool G !! t = Some (seq w k) →
  involves t l = true →
  do_step G l = Some G' →
  (l = LTau t
   ∨ (w = Send (sync proc) true (Wait_parked proc)
      ∧ ∃ r, l = LComm t r (sync proc) true)
   ∨ (w = Wait_parked proc
      ∧ (l = LShut t ∨ ∃ s v, l = LComm s t (sync proc) v)))
  ∧ (w = Wait_abort proc →
     ∃ Ep, events (store G) !! ev proc = Some Ep
           ∧ pool G' !! t
             = Some (if decide (state Ep = pending)
                     then fire (abortHandlers Ep) (ev proc) Goexit
                     else Goexit)).
Proof.
  intros Hw Hret Ht Hinv Hstep. split; cycle 1.
  { intros ->.
    assert (l = LTau t) as ->
      by (eapply tau_only; [exact Ht|done|done|exact Hinv|exact Hstep]).
    unfold do_step in Hstep. rewrite Ht in Hstep. cbn in Hstep.
    destruct (events (store G) !! ev proc) as [Ep|]; [|done].
    exists Ep. split; [done|]. cbn in Hstep.
    destruct (decide (state Ep = pending)); simplify_eq/=; apply lookup_insert_eq. }
  apply Wait_points in Hw
    as [->|[->|[->|[->|[->|[->|[->|[->| ->]]]]]]]]; try done;
    try (left; eapply tau_only; [exact Ht|done|done|exact Hinv|exact Hstep]).
  - right. left. split; [done|].
    destruct l as [t'|s r c v|t']; simpl in Hinv; unfold do_step in Hstep.
    + apply bool_decide_eq_true in Hinv as ->. by rewrite Ht in Hstep.
    + destruct (decide (s = r)) as [|Hsr]; [done|].
      destruct (pool G !! s) as [ps|] eqn:Hs; simpl in Hstep; [|done].
      destruct (pool G !! r) as [pr|] eqn:Hr; simpl in Hstep; [|done].
      destruct (send_on c v ps) as [ks|] eqn:Hks; simpl in Hstep; [|done].
      destruct (recv_on c pr) as [kr|] eqn:Hkr; simpl in Hstep; [|done].
      apply send_on_inv in Hks as ->.
      apply orb_true_iff in Hinv as [H|H]; apply bool_decide_eq_true in H; subst.
      * rewrite Ht in Hs. cbn in Hs. simplify_eq. by exists r.
      * rewrite Ht in Hr. by simplify_eq.
    + apply bool_decide_eq_true in Hinv as ->. by rewrite Ht in Hstep.
  - right. right. split; [done|].
    destruct l as [t'|s r c v|t']; simpl in Hinv; unfold do_step in Hstep.
    + apply bool_decide_eq_true in Hinv as ->. by rewrite Ht in Hstep.
    + right.
      destruct (decide (s = r)) as [|Hsr]; [done|].
      destruct (pool G !! s) as [ps|] eqn:Hs; simpl in Hstep; [|done].
      destruct (pool G !! r) as [pr|] eqn:Hr; simpl in Hstep; [|done].
      destruct (send_on c v ps) as [ks|] eqn:Hks; simpl in Hstep; [|done].
      destruct (recv_on c pr) as [kr|] eqn:Hkr; simpl in Hstep; [|done].
      apply send_on_inv in Hks as ->.
      apply orb_true_iff in Hinv as [H|H]; apply bool_decide_eq_true in H; subst.
      * rewrite Ht in Hs. discriminate Hs.
      * rewrite Ht in Hr. simplify_eq. cbn in Hkr.
        destruct (decide (sync proc = c)) as [<-|]; [|done]. by exists s, v.
    + left. apply bool_decide_eq_true in Hinv. by subst.
Qed.

Lemma Wait_channel_discipline_witness :
  Wait_parked Demo.proc ∈ residuals (Wait Demo.proc (AwEvent 0))
  ∧ (LComm 0 1 10 false = LTau 1
     ∨ (Wait_parked Demo.proc = Send (sync Demo.proc) true (Wait_parked Demo.proc)
        ∧ ∃ r, LComm 0 1 10 false = LComm 1 r (sync Demo.proc) true)
     ∨ (Wait_parked Demo.proc = Wait_parked Demo.proc
        ∧ (LComm 0 1 10 false = LShut 1
           ∨ ∃ s v, LComm 0 1 10 false = LComm s 1 (sync Demo.proc) v)))
  ∧ ∃ Ep,
      events (mkStore {[ 0 := mkEvent aborted [] [];
                         1 := mkEvent pending [] [abort_handler (mkProcess 2 20)] ]}
                false []) !! 1 = Some Ep
      ∧ (<[1 := Send 20 false (Recv 20 (fun _ => Goexit))]>
           ({[ 1 := Wait_abort Demo.proc ]} : gmap tid prog)) !! 1
        = Some (if decide (state Ep = pending)
                then fire (abortHandlers Ep) 1 Goexit else Goexit).
Proof.
  assert (Hin : Wait_parked Demo.proc ∈ residuals (Wait Demo.proc (AwEvent 0))).
  { cbn. do 8 apply list_elem_of_further. apply list_elem_of_here. }
  assert (Hin' : Wait_abort Demo.proc ∈ residuals (Wait Demo.proc (AwEvent 0))).
  { cbn. do 3 apply list_elem_of_further. apply list_elem_of_here. }
  split; [exact Hin|]. split.
  - apply (Wait_channel_discipline Demo.proc (AwEvent 0) (Wait_parked Demo.proc)
             (Println "End" Return)
             (mkState (Demo.parked_store false)
                (Demo.parked_pool (Send 10 false (Recv 10 (fun _ => Return)))))
             1 (LComm 0 1 10 false)
             (mkState (Demo.parked_store false)
                (<[1 := Wait_abort Demo.proc]>
                   (<[0 := Recv 10 (fun _ => Return)]>
                      (Demo.parked_pool (Send 10 false (Recv 10 (fun _ => Return)))))))
             Hin ltac:(discriminate) eq_refl eq_refl eq_refl).
  - apply (proj2 (Wait_channel_discipline Demo.proc (AwEvent 0) (Wait_abort Demo.proc)
             (Println "End" Return)
             (mkState (mkStore {[ 0 := mkEvent aborted [] [];
                                  1 := mkEvent pending []
                                         [abort_handler (mkProcess 2 20)] ]} false [])
                {[ 1 := Wait_abort Demo.proc ]})
             1 (LTau 1)
             (mkState (mkStore {[ 0 := mkEvent aborted [] [];
                                  1 := mkEvent aborted []
                                         [abort_handler (mkProcess 2 20)] ]} false [])
                (<[1 := Send 20 false (Recv 20 (fun _ => Goexit))]>
                   {[ 1 := Wait_abort Demo.proc ]}))
             Hin' ltac:(discriminate) eq_refl eq_refl eq_refl) eq_refl).
Defined.

(** ** Shutting down parked processes *)

(** X9. Once the shutdown signal is raised, the parked processes can all
    take their shutdown case, in any order: each goroutine ends, none
    runs the code after its [Wait], and the store is untouched, so that
    no completion occurrence and no awaited occurrence is settled and all
    handlers stay registered. *)
Theorem shutdown_ends_parked_processes ws : ∀ σ T,
  shutdown σ = true →
  NoDup (w_tid <$> ws) →
  Forall (fun w => T !! w_tid w = Some (seq (Wait_parked (w_proc w)) (w_cont w))) ws →
  run (mkState σ T) (LShut ∘ w_tid <$> ws)
  = Some (mkState σ (after_shutdown_pool T ws)).
Proof.
  induction ws as [|w ws IH]; intros σ T Hsd Hnd Hws; [done|].
  apply NoDup_cons in Hnd as [Hw' Hnd].
  apply Forall_cons in Hws as [Hw Hws].
  rewrite fmap_cons. cbn [compose].
  erewrite run_cons_Some by (eapply do_shut; [exact Hw|done|exact Hsd]).
  cbn [after_shutdown_pool foldl].
  apply (IH σ (<[w_tid w := Goexit]> T)); [done|done|].
  apply Forall_forall. intros w0 Hin.
  rewrite lookup_insert_ne; [exact (proj1 (Forall_forall _ _) Hws w0 Hin)|].
  intros Heq. apply Hw'. rewrite Heq. by apply list_elem_of_fmap_2.
Qed.

Lemma shutdown_ends_parked_processes_witness :
  run (mkState (mkStore (events Chain3.store0) true []) Chain3.pool0)
      [LShut 2; LShut 1; LShut 3]
  = Some (mkState (mkStore (events Chain3.store0) true [])
            {[ 0 := EvAbort 0 Return; 3 := Goexit; 2 := Goexit; 1 := Goexit ]}).
Proof.
  eapply eq_trans;
    [apply (shutdown_ends_parked_processes
              [mkWaiter 2 Chain3.P2 (Println "P2 after Wait" Return);
               mkWaiter 1 Chain3.P1 (Println "P1 after Wait" Return);
               mkWaiter 3 Chain3.P3 (Println "P3 after Wait" Return)]
              (mkStore (events Chain3.store0) true []) Chain3.pool0)
    |reflexivity].
  - reflexivity.
  - by apply (bool_decide_eq_true_1 (NoDup [2; 1; 3])).
  - repeat constructor.
Defined.

(** ** Waiting for several occurrences in sequence *)

Lemma tokens_rounds d t c es :
  tokens c (rounds d t c es) = replicate (S (2 * length es)) true.
Proof.
  induction es as [|e es IH]; cbn [rounds app tokens length].
  - by rewrite decide_True.
  - rewrite !decide_True by done. rewrite IH.
    replace (2 * S (length es)) with (S (S (2 * length es))) by lia. done.
Qed.

Lemma rounds_run d t proc k X es : ∀ σ T e E,
  t ≠ d →
  NoDup (e :: es) →
  T !! t = Some (seq (Wait_parked proc) (waits proc es k)) →
  T !! d = Some (EvSettle e (settles es X)) →
  events σ !! e = Some E →
  state E = pending →
  handlers E = [resume_handler proc] →
  Forall (fun e' => ∃ E', events σ !! e' = Some E' ∧ state E' = pending
                          ∧ handlers E' = []) es →
  ∃ σ', run (mkState σ T) (rounds d t (sync proc) es)
        = Some (mkState σ' (<[t := k]> (<[d := Recv (sync proc) (fun _ => X)]> T)))
        ∧ Forall (is_processed σ') (e :: es)
        ∧ output σ' = output σ.
Proof.
  induction es as [|e' es IH]; intros σ T e E Htd Hnd Ht Hd HE Hst Hhs Hes.
  - exists (set_event σ e (settle processed E)). split; [|split].
    + cbn [rounds].
      erewrite run_cons_Some
        by (eapply do_tau; [exact Hd|eapply tstep_settle_pending; eassumption]).
      rewrite Hhs. cbn [fire foldr resume_handler seq settles].
      erewrite run_cons_Some
        by (eapply do_comm;
            [by apply not_eq_sym|apply lookup_insert_eq
            |rewrite lookup_insert_ne by (by apply not_eq_sym); exact Ht
            |apply send_on_Send|apply recv_on_Select]).
      by rewrite insert_insert_eq.
    + constructor; [|constructor]. eexists. split; [apply set_event_lookup|done].
    + done.
  - apply NoDup_cons in Hnd as [He Hnd].
    apply Forall_cons in Hes as [(E' & HE' & Hst' & Hhs') Hes].
    assert (Hee' : e ≠ e').
    { intros ->. apply He. apply list_elem_of_here. }
    set (σ1 := set_event σ e (settle processed E)).
    set (E2 := mkEvent pending (handlers E' ++ [resume_handler proc])
                               (abortHandlers E' ++ [abort_handler proc])).
    set (σ2 := set_event σ1 e' E2).
    set (T2 := <[d := EvSettle e' (settles es X)]>
                 (<[t := seq (Wait_parked proc) (waits proc es k)]>
                    (<[d := Recv (sync proc) (fun _ => EvSettle e' (settles es X))]> T))).
    destruct (IH σ2 T2 e' E2) as (σ' & Hrun & Hall & Hout).
    + done.
    + done.
    + subst T2. rewrite lookup_insert_ne by (by apply not_eq_sym).
      apply lookup_insert_eq.
    + subst T2. apply lookup_insert_eq.
    + subst σ2. apply set_event_lookup.
    + done.
    + subst E2. cbn. by rewrite Hhs'.
    + apply Forall_forall. intros e'' Hin.
      destruct (proj1 (Forall_forall _ _) Hes e'' Hin) as (E'' & HE'' & Hp'').
      exists E''. split; [|done]. subst σ2 σ1.
      rewrite !set_event_lookup_ne; [done| |].
      * intros ->. apply He. by apply list_elem_of_further.
      * intros ->. apply NoDup_cons in Hnd as [Hn _]. by apply Hn.
    + exists σ'. split; [|split].
      * cbn [rounds app].
        erewrite run_cons_Some
          by (eapply do_tau; [exact Hd|eapply tstep_settle_pending; eassumption]).
        rewrite Hhs. cbn [fire foldr resume_handler seq settles].
        erewrite run_cons_Some
          by (eapply do_comm;
              [by apply not_eq_sym|apply lookup_insert_eq
              |rewrite lookup_insert_ne by (by apply not_eq_sym); exact Ht
              |apply send_on_Send|apply recv_on_Select]).
        rewrite insert_insert_eq. cbn [negb waits foldr seq].
        fold (waits proc es k). fold (settles es X).
        change (LTau t :: LTau t :: LTau t :: LTau t
                :: LComm t d (sync proc) true :: rounds d t (sync proc) es)
          with ([LTau t; LTau t; LTau t; LTau t; LComm t d (sync proc) true]
                ++ rounds d t (sync proc) es).
        rewrite Wait_eq. cbn [target].
        erewrite run_app_Some
          by (eapply Wait_pending_parks;
              [exact Htd|by rewrite set_event_lookup_ne|exact Hst'
              |apply lookup_insert_eq|apply recv_on_Recv]).
        fold σ1. fold E2. fold σ2. etrans; [exact Hrun|]. do 2 f_equal.
        subst T2. apply map_eq. intros i. rewrite !lookup_insert.
        repeat case_decide; congruence.
      * constructor; [|done].
        assert (H1 : events σ2 !! e = Some (settle processed E)).
        { subst σ2 σ1. rewrite set_event_lookup_ne by (by apply not_eq_sym).
          apply set_event_lookup. }
        destruct (run_settled_stable _ _ _ e _ Hrun H1) as (E3 & HE3 & Hst3); [done|].
        by exists E3.
      * by rewrite Hout.
Qed.

(** X10. A process is parked in its first [Wait] and has [Wait]s on
    further pending occurrences, all different, as what it does next; it
    is the only one to wait on any of them.  A driver processes the
    occurrences in the same order.  Then the process gets through all of
    its [Wait]s and reaches the code after them: each handler returns to
    the driver when the process hands over its token in its next [Wait],
    the last one still waits for the process; every occurrence ends up
    processed; nothing is printed on the way; and the tokens on the
    process's channel are one to resume it for each occurrence and one
    to hand control back in between, all of them [true]. *)
Theorem Wait_in_sequence d t proc k X es σ T e E :
  t ≠ d →
  NoDup (e :: es) →
  T !! t = Some (seq (Wait_parked proc) (waits proc es k)) →
  T !! d = Some (EvSettle e (settles es X)) →
  events σ !! e = Some E →
  state E = pending →
  handlers E = [resume_handler proc] →
  Forall (fun e' => ∃ E', events σ !! e' = Some E' ∧ state E' = pending
                          ∧ handlers E' = []) es →
  (∃ σ', run (mkState σ T) (rounds d t (sync proc) es)
         = Some (mkState σ' (<[t := k]> (<[d := Recv (sync proc) (fun _ => X)]> T)))
         ∧ Forall (is_processed σ') (e :: es)
         ∧ output σ' = output σ)
  ∧ tokens (sync proc) (rounds d t (sync proc) es)
    = replicate (S (2 * length es)) true.
Proof.
  intros. split; [by eapply rounds_run|apply tokens_rounds].
Qed.

Lemma Wait_in_sequence_witness :
  (∃ σ', run (mkState Sequence.store0 Sequence.pool0)
             (rounds 0 1 (sync Demo.proc) [2; 3])
         = Some (mkState σ'
                   (<[1 := Println "End" Return]>
                      (<[0 := Recv (sync Demo.proc) (fun _ => Return)]>
                         Sequence.pool0)))
         ∧ Forall (is_processed σ') [0; 2; 3]
         ∧ output σ' = output Sequence.store0)
  ∧ tokens (sync Demo.proc) (rounds 0 1 (sync Demo.proc) [2; 3])
    = replicate 5 true.
Proof.
  apply (Wait_in_sequence 0 1 Demo.proc (Println "End" Return) Return [2; 3]
           Sequence.store0 Sequence.pool0 0
           (mkEvent pending [resume_handler Demo.proc] [abort_handler Demo.proc])).
  - discriminate.
  - by apply (bool_decide_eq_true_1 (NoDup [0; 2; 3])).
  - reflexivity.
  - reflexivity.
  - reflexivity.
  - reflexivity.
  - reflexivity.
  - repeat constructor; eexists; (split; [reflexivity|split; reflexivity]).
Defined.

